(** * Misty2Robot: gamepad-to-command mapping and video-stream session

    A shallow embedding of [src/misty.ts].  JavaScript numbers are IEEE 754
    binary64 values; they are modelled by [spec_float] with the operations
    of [SpecFloat] at precision 53 and maximal exponent 1024, which round to
    nearest, ties to even, as the language prescribes.  Calls to [fetch],
    [new WebSocket] and [console.log] are recorded in a chronological trace;
    the object's fields live in a store threaded by a small state and
    exception monad. *)

From Stdlib Require Import ZArith List Bool String Lia Reals Lra Psatz.
From Stdlib Require Import Floats.SpecFloat.
Import ListNotations.

Local Open Scope Z_scope.

(** ** JavaScript numbers *)

Module Num.

Definition prec : Z := 53.
Definition emax : Z := 1024.

Definition number : Type := spec_float.

Definition nan : number := S754_nan.

(** An integer literal, or an integer converted to a number. *)
Definition of_Z (z : Z) : number := binary_normalize prec emax z 0 false.

Definition add : number -> number -> number := SFadd prec emax.
Definition sub : number -> number -> number := SFsub prec emax.
Definition mul : number -> number -> number := SFmul prec emax.
Definition div : number -> number -> number := SFdiv prec emax.
Definition neg : number -> number := SFopp.

(** [a < b], [a > b], [a <= b] and [a == b] on numbers. *)
Definition lt (a b : number) : bool := SFltb a b.
Definition gt (a b : number) : bool := SFltb b a.
Definition le (a b : number) : bool := SFleb a b.
Definition eq (a b : number) : bool := SFeqb a b.

(** The decimal literal [n / 10^k]: the binary64 value nearest to it,
    obtained as the correctly rounded quotient of two integers that are
    represented exactly. *)
Definition decimal (n : Z) (k : nat) : number :=
  div (of_Z n) (of_Z (10 ^ Z.of_nat k)).

Definition is_nan (x : number) : bool :=
  match x with S754_nan => true | _ => false end.

(** Every binary64 value satisfies [valid]: its mantissa and exponent
    are in canonical form. *)
Definition valid (x : number) : bool := valid_binary prec emax x.

End Num.

Module Math.
Import Num.

(** [Math.floor]: the largest integer not above [x]; infinities, NaN and
    zeros of either sign are returned as they are. *)
Definition floor (x : number) : number :=
  match x with
  | S754_finite s m (Zneg p) =>
      let q := Z.shiftr (Zpos m) (Zpos p) in
      if s then
        if Z.shiftl q (Zpos p) =? Zpos m then of_Z (- q) else of_Z (- (q + 1))
      else of_Z q
  | _ => x
  end.

(** [Math.trunc]: the integer part of [x]; a value strictly between -1
    and 0 truncates to the negative zero. *)
Definition trunc (x : number) : number :=
  match x with
  | S754_finite s m (Zneg p) =>
      let q := Z.shiftr (Zpos m) (Zpos p) in
      if q =? 0 then S754_zero s else of_Z (if s then - q else q)
  | _ => x
  end.

(** [Math.min] and [Math.max] of two arguments: NaN if either is NaN,
    and the negative zero counts as smaller than the positive one. *)
Definition min (a b : number) : number :=
  if is_nan a || is_nan b then nan
  else if lt a b then a
  else if lt b a then b
  else match a with S754_zero true => a | _ => b end.

Definition max (a b : number) : number :=
  if is_nan a || is_nan b then nan
  else if lt b a then a
  else if lt a b then b
  else match a with S754_zero false => a | _ => b end.

End Math.

(** ** Arrays of numbers

    Reading past the end yields [undefined], which every use in this
    program converts to NaN (comparisons with it are false, arithmetic on it
    is NaN); writing past the end extends the array. *)

Definition arr_get (l : list Num.number) (i : nat) : Num.number :=
  nth i l Num.nan.

Fixpoint arr_set (l : list Num.number) (i : nat) (v : Num.number)
  : list Num.number :=
  match i, l with
  | O, [] => [v]
  | O, _ :: t => v :: t
  | S i', [] => Num.nan :: arr_set [] i' v
  | S i', x :: t => x :: arr_set t i' v
  end.

Notation "l .[ i ]" := (arr_get l i) (at level 1, format "l .[ i ]").

(** ** The platform: requests, sockets, the log *)

Inductive jsvalue :=
| JNumber (n : Num.number)
| JBoolean (b : bool).

(** The object literal handed to [JSON.stringify], fields in source order. *)
Definition jsobject : Type := list (string * jsvalue).

Record Request := mkRequest {
  url : string;
  method : string;
  body : option jsobject
}.

(** What awaiting a [fetch] yields: a response with its status, or a
    rejection (the request could not be delivered). *)
Inductive FetchOutcome :=
| Responded (status : Z)
| Rejected.

Definition Transport : Type := Request -> FetchOutcome.

(** Which URLs the [WebSocket] constructor accepts.  [new WebSocket(u)]
    throws a [SyntaxError] when [u] does not parse as a URL, has a scheme
    other than [ws], [wss], [http] or [https], or has a fragment; an address
    with a port of its own, as in [ws://127.0.0.1:8080:5678], is such a
    URL.  The parser belongs to the platform, as the network does. *)
Definition UrlParser : Type := string -> bool.

Inductive event :=
| Fetch (r : Request)
| NewWebSocket (u : string)
| ConsoleLog (msg : string).

(** Close handlers: the closure this program installs, with the address it
    captured, and a handler the host assigns to [onclose] in its place,
    given by the platform calls it makes (the handler of the README's quick
    start logs one line). *)
Inductive closure :=
| StopStreamOnClose (ip : string)
| HostHandler (calls : list event).

Inductive readyState := OPEN | CLOSED.

Record WebSocket := mkWebSocket {
  ws_url : string;
  onclose : option closure;
  ws_state : readyState
}.

Inductive exn :=
| Error (message : string)
| SyntaxError
| FetchRejected.

(** ** The object *)

Record Misty2Robot := mkRobot {
  ipAddress : string;
  headRotation : list Num.number;
  framesToMoveHead : Num.number;
  framesToMoveBody : Num.number;
  sensitivity : Num.number;
  deadzone : Num.number;
  imageWidth : Num.number;
  imageHeight : Num.number;
  videoQuality : Num.number;
  ws : option nat
}.

Definition set_headRotation (v : list Num.number) (r : Misty2Robot) :=
  mkRobot (ipAddress r) v (framesToMoveHead r) (framesToMoveBody r)
          (sensitivity r) (deadzone r) (imageWidth r) (imageHeight r)
          (videoQuality r) (ws r).

Definition set_framesToMoveHead (v : Num.number) (r : Misty2Robot) :=
  mkRobot (ipAddress r) (headRotation r) v (framesToMoveBody r)
          (sensitivity r) (deadzone r) (imageWidth r) (imageHeight r)
          (videoQuality r) (ws r).

Definition set_framesToMoveBody (v : Num.number) (r : Misty2Robot) :=
  mkRobot (ipAddress r) (headRotation r) (framesToMoveHead r) v
          (sensitivity r) (deadzone r) (imageWidth r) (imageHeight r)
          (videoQuality r) (ws r).

Definition set_ws (v : option nat) (r : Misty2Robot) :=
  mkRobot (ipAddress r) (headRotation r) (framesToMoveHead r)
          (framesToMoveBody r) (sensitivity r) (deadzone r) (imageWidth r)
          (imageHeight r) (videoQuality r) v.

(** The store: the object's fields, the sockets created so far (a handle is
    an index into this list) and the trace of platform calls, oldest
    first. *)
Record Store := mkStore {
  this : Misty2Robot;
  sockets : list WebSocket;
  trace : list event
}.

(** ** A state and exception monad over the store *)

Inductive Completion (A : Type) :=
| Normal (a : A)
| Throw (e : exn).
Arguments Normal {A} a.
Arguments Throw {A} e.

Definition Eff (A : Type) : Type := Store -> Completion A * Store.

Definition ret {A} (a : A) : Eff A := fun s => (Normal a, s).

Definition bind {A B} (m : Eff A) (k : A -> Eff B) : Eff B :=
  fun s =>
    match m s with
    | (Normal a, s') => k a s'
    | (Throw e, s') => (Throw e, s')
    end.

Notation "x <- m ;; k" := (bind m (fun x => k))
  (at level 61, m at next level, right associativity).
Notation "m ;; k" := (bind m (fun _ => k))
  (at level 61, right associativity).

Definition throw {A} (e : exn) : Eff A := fun s => (Throw e, s).

Definition read {A} (f : Misty2Robot -> A) : Eff A :=
  fun s => (Normal (f (this s)), s).

Definition modify (f : Misty2Robot -> Misty2Robot) : Eff unit :=
  fun s => (Normal tt, mkStore (f (this s)) (sockets s) (trace s)).

Definition emit (e : event) : Eff unit :=
  fun s => (Normal tt, mkStore (this s) (sockets s) (trace s ++ [e])).

(** [fetch(...)] whose promise is dropped: the request is issued and
    nothing of its outcome reaches the program. *)
Definition fetch_forget (r : Request) : Eff unit := emit (Fetch r).

(** [await fetch(...)]: the request is issued and the transport's answer
    is the result; a rejection is thrown at the [await]. *)
Definition fetch_await (net : Transport) (r : Request) : Eff Z :=
  emit (Fetch r) ;;
  match net r with
  | Responded status => ret status
  | Rejected => throw FetchRejected
  end.

Definition console_log (msg : string) : Eff unit := emit (ConsoleLog msg).

(** [new WebSocket(u)]: a [SyntaxError] when the platform does not accept
    the URL, and nothing is created; otherwise a fresh open socket without
    handlers, whose handle is its index. *)
Definition new_WebSocket (parses : UrlParser) (u : string) : Eff nat :=
  fun s =>
    if parses u then
      (Normal (List.length (sockets s)),
       mkStore (this s) (sockets s ++ [mkWebSocket u None OPEN])
               (trace s ++ [NewWebSocket u]))
    else (Throw SyntaxError, s).

Fixpoint update_nth {A} (l : list A) (i : nat) (f : A -> A) : list A :=
  match l, i with
  | [], _ => []
  | x :: t, O => f x :: t
  | x :: t, S i' => x :: update_nth t i' f
  end.

(** [sock.onclose = c]. *)
Definition set_onclose (h : nat) (c : closure) : Eff unit :=
  fun s =>
    (Normal tt,
     mkStore (this s)
             (update_nth (sockets s) h
                (fun w => mkWebSocket (ws_url w) (Some c) (ws_state w)))
             (trace s)).

(** ** URLs of the robot's API *)

Local Open Scope string_scope.

Definition api (ip path : string) : string := "http://" ++ ip ++ path.

Definition POST : string := "POST".

(** ** Methods of [Misty2Robot] *)

Import Num.

Definition constructor (ip : string) (videoQuality imageWidth imageHeight : number)
  : Misty2Robot :=
  {| ipAddress := ip;
     headRotation := [of_Z 0; of_Z 0];
     framesToMoveHead := of_Z 0;
     framesToMoveBody := of_Z 0;
     sensitivity := decimal 2 2;
     deadzone := decimal 1 1;
     imageWidth := imageWidth;
     imageHeight := imageHeight;
     videoQuality := videoQuality;
     ws := None |}.

(** [new Misty2Robot(ip)] with the default arguments. *)
Definition constructor_default (ip : string) : Misty2Robot :=
  constructor ip (of_Z 100) (of_Z 400) (of_Z 540).

(** The body of a close handler: that of the handler installed by
    [getVideoStream], and the calls of a handler of the host. *)
Definition run_closure (c : closure) : Eff unit :=
  match c with
  | StopStreamOnClose ip =>
      fetch_forget (mkRequest (api ip "/api/videostreaming/stop") POST None) ;;
      console_log "Closed socket"
  | HostHandler calls =>
      fun s => (Normal tt, mkStore (this s) (sockets s) (trace s ++ calls))
  end.

Definition getVideoStream (net : Transport) (parses : UrlParser) : Eff nat :=
  ip <- read ipAddress ;;
  w <- read imageWidth ;;
  h <- read imageHeight ;;
  q <- read videoQuality ;;
  status <- fetch_await net
    (mkRequest (api ip "/api/videostreaming/start") POST
       (Some [("Port", JNumber (of_Z 5678));
              ("Rotation", JNumber (of_Z 90));
              ("Width", JNumber w);
              ("Height", JNumber h);
              ("Quality", JNumber q)])) ;;
  if (status =? 200)%Z then
    sock <- new_WebSocket parses ("ws://" ++ ip ++ ":5678") ;;
    modify (set_ws (Some sock)) ;;
    set_onclose sock (StopStreamOnClose ip) ;;
    ret sock
  else
    throw (Error "Failed to start video stream.").

Definition moveHead (pitch yaw : number) : Eff unit :=
  modify (fun r => set_framesToMoveHead (add (framesToMoveHead r) (of_Z 1)) r) ;;
  n <- read framesToMoveHead ;;
  if eq n (of_Z 180) then
    ip <- read ipAddress ;;
    fetch_forget
      (mkRequest (api ip "/api/head") POST
         (Some [("Pitch", JNumber pitch);
                ("Yaw", JNumber yaw);
                ("Velocity", JNumber (of_Z 100))])) ;;
    modify (set_framesToMoveHead (of_Z 0))
  else ret tt.

Definition move (linearVelocity angularVelocity : number) : Eff unit :=
  modify (fun r => set_framesToMoveBody (add (framesToMoveBody r) (of_Z 1)) r) ;;
  n <- read framesToMoveBody ;;
  if eq n (of_Z 180) then
    ip <- read ipAddress ;;
    fetch_forget
      (mkRequest (api ip "/api/drive") POST
         (Some [("LinearVelocity", JNumber linearVelocity);
                ("AngularVelocity", JNumber angularVelocity)])) ;;
    modify (set_framesToMoveBody (of_Z 0))
  else ret tt.

Definition restart (net : Transport) : Eff unit :=
  ip <- read ipAddress ;;
  response <- fetch_await net
    (mkRequest (api ip "/api/reboot") POST
       (Some [("Core", JBoolean false);
              ("SensoryServices", JBoolean true)])) ;;
  ret tt.

Record Gamepad := mkGamepad { axes : list number }.

Definition readAnalogSticks (gamepad : Gamepad) (deadzone : number)
  : list number :=
  let leftStickX := (axes gamepad).[0] in
  let leftStickX :=
    if lt leftStickX deadzone && gt leftStickX (neg deadzone)
    then of_Z 0 else leftStickX in
  let leftStickY := (axes gamepad).[1] in
  let leftStickY :=
    if lt leftStickY deadzone && gt leftStickY (neg deadzone)
    then of_Z 0 else leftStickY in
  let rightStickX := (axes gamepad).[2] in
  let rightStickX :=
    if lt rightStickX deadzone && gt rightStickX (neg deadzone)
    then of_Z 0 else rightStickX in
  let rightStickY := (axes gamepad).[3] in
  let rightStickY :=
    if lt rightStickY deadzone && gt rightStickY (neg deadzone)
    then of_Z 0 else rightStickY in
  [leftStickX; leftStickY; rightStickX; rightStickY].

Definition mapAnalogValues (x y : number) : list number :=
  let minX := of_Z (-1) in
  let maxX := of_Z 1 in
  let minY := of_Z (-100) in
  let maxY := of_Z 100 in
  let scaledX :=
    Math.floor (add (mul (div (sub x minX) (sub maxX minX)) (sub maxY minY)) minY) in
  let scaledY :=
    Math.floor (add (mul (div (sub y minX) (sub maxX minX)) (sub maxY minY)) minY) in
  [scaledX; scaledY].

Definition clamp (value min max : number) : number :=
  Math.max min (Math.min value max).

Definition update (gamepad : Gamepad) : Eff unit :=
  dz <- read deadzone ;;
  let stickValues := readAnalogSticks gamepad dz in
  let headValues := mapAnalogValues stickValues.[2] stickValues.[3] in
  modify (fun r => set_headRotation
            (arr_set (headRotation r) 0
               (add (headRotation r).[0] (mul headValues.[0] (sensitivity r)))) r) ;;
  modify (fun r => set_headRotation
            (arr_set (headRotation r) 0
               (clamp (headRotation r).[0] (of_Z (-100)) (of_Z 100))) r) ;;
  modify (fun r => set_headRotation
            (arr_set (headRotation r) 1
               (add (headRotation r).[1] (mul headValues.[1] (sensitivity r)))) r) ;;
  modify (fun r => set_headRotation
            (arr_set (headRotation r) 1
               (clamp (headRotation r).[1] (of_Z (-100)) (of_Z 100))) r) ;;
  let driveValues := mapAnalogValues stickValues.[0] stickValues.[1] in
  h <- read headRotation ;;
  moveHead (Math.trunc h.[1]) (neg (Math.trunc h.[0])) ;;
  move driveValues.[1] driveValues.[0].

(** The host loop: one [update] per frame, in order. *)
Fixpoint frames (gs : list Gamepad) : Eff unit :=
  match gs with
  | [] => ret tt
  | g :: gs' => update g ;; frames gs'
  end.

(** The platform delivers a close event to socket [h]: an open socket
    becomes closed and its handler, if any, runs once; the cause of the
    close plays no part in the dispatch. *)
Inductive close_cause := RemoteClose | NetworkFailure | ClientClose.

Definition dispatch_close (cause : close_cause) (h : nat) : Eff unit :=
  fun s =>
    match nth_error (sockets s) h with
    | Some w =>
        match ws_state w with
        | OPEN =>
            let s' := mkStore (this s)
                        (update_nth (sockets s) h
                           (fun w => mkWebSocket (ws_url w) (onclose w) CLOSED))
                        (trace s) in
            match onclose w with
            | Some c => run_closure c s'
            | None => (Normal tt, s')
            end
        | CLOSED => (Normal tt, s)
        end
    | None => (Normal tt, s)
    end.

(** ** Vocabulary of the specification

    Definitions that follow the words of the specification; each is related
    to the code above by a lemma below. *)

(** The deadzone filter that [readAnalogSticks] applies to each axis. *)
Definition applyDeadzone (value deadzone : number) : number :=
  if lt value deadzone && gt value (neg deadzone) then of_Z 0 else value.

(** The scaling that [mapAnalogValues] applies to each argument, with the
    constants of the source. *)
Definition scale (v : number) : number :=
  Math.floor
    (add (mul (div (sub v (of_Z (-1))) (sub (of_Z 1) (of_Z (-1))))
              (sub (of_Z 100) (of_Z (-100))))
         (of_Z (-100))).

(** One frame of a counter: incremented, and back to zero when the
    increment reaches 180. *)
Definition due (c : number) : bool := eq (add c (of_Z 1)) (of_Z 180).

Definition tick (c : number) : number :=
  if due c then of_Z 0 else add c (of_Z 1).

(** One frame of a component of the head orientation. *)
Definition accumulate (h delta sens : number) : number :=
  clamp (add h (mul delta sens)) (of_Z (-100)) (of_Z 100).

Definition in_range (x : number) : bool :=
  le (of_Z (-100)) x && le x (of_Z 100).

(** The two commands as requests. *)
Definition HeadCommand (ip : string) (pitch yaw velocity : number) : event :=
  Fetch (mkRequest (api ip "/api/head") POST
           (Some [("Pitch", JNumber pitch); ("Yaw", JNumber yaw);
                  ("Velocity", JNumber velocity)])).

Definition DriveCommand (ip : string) (linearVelocity angularVelocity : number)
  : event :=
  Fetch (mkRequest (api ip "/api/drive") POST
           (Some [("LinearVelocity", JNumber linearVelocity);
                  ("AngularVelocity", JNumber angularVelocity)])).

Definition is_request_to (u : string) (e : event) : bool :=
  match e with
  | Fetch r => String.eqb (url r) u
  | _ => false
  end.

Definition count_head (ip : string) (tr : list event) : nat :=
  List.length (filter (is_request_to (api ip "/api/head")) tr).

Definition count_drive (ip : string) (tr : list event) : nat :=
  List.length (filter (is_request_to (api ip "/api/drive")) tr).

(** Identity of two numbers as values ([Object.is]). *)
Definition same (a b : number) : bool :=
  match a, b with
  | S754_zero s1, S754_zero s2 => Bool.eqb s1 s2
  | S754_infinity s1, S754_infinity s2 => Bool.eqb s1 s2
  | S754_nan, S754_nan => true
  | S754_finite s1 m1 e1, S754_finite s2 m2 e2 =>
      Bool.eqb s1 s2 && Pos.eqb m1 m2 && Z.eqb e1 e2
  | _, _ => false
  end.

(** The store after one [update], written out. *)
Definition head_after (g : Gamepad) (r : Misty2Robot) : list number :=
  let sv := readAnalogSticks g (deadzone r) in
  let hv := mapAnalogValues sv.[2] sv.[3] in
  let h1 := arr_set (headRotation r) 0
              (add (headRotation r).[0] (mul hv.[0] (sensitivity r))) in
  let h2 := arr_set h1 0 (clamp h1.[0] (of_Z (-100)) (of_Z 100)) in
  let h3 := arr_set h2 1 (add h2.[1] (mul hv.[1] (sensitivity r))) in
  arr_set h3 1 (clamp h3.[1] (of_Z (-100)) (of_Z 100)).

Definition head_events (g : Gamepad) (r : Misty2Robot) : list event :=
  if due (framesToMoveHead r) then
    [HeadCommand (ipAddress r) (Math.trunc (head_after g r).[1])
       (neg (Math.trunc (head_after g r).[0])) (of_Z 100)]
  else [].

Definition drive_events (g : Gamepad) (r : Misty2Robot) : list event :=
  let sv := readAnalogSticks g (deadzone r) in
  let dv := mapAnalogValues sv.[0] sv.[1] in
  if due (framesToMoveBody r) then
    [DriveCommand (ipAddress r) dv.[1] dv.[0]]
  else [].

Definition robot_after (g : Gamepad) (r : Misty2Robot) : Misty2Robot :=
  mkRobot (ipAddress r) (head_after g r) (tick (framesToMoveHead r))
          (tick (framesToMoveBody r)) (sensitivity r) (deadzone r)
          (imageWidth r) (imageHeight r) (videoQuality r) (ws r).

(** ** Values of binary floating-point numbers

    The real number a finite [spec_float] denotes, and the notions used to
    state what rounding does.  [prec] and [emax] are the parameters of the
    format. *)

Definition bpow (e : Z) : R := powerRZ 2 e.

Definition F2R (m e : Z) : R := (IZR m * bpow e)%R.

Definition B2R (x : spec_float) : R :=
  match x with
  | S754_finite s m e => F2R (cond_Zopp s (Zpos m)) e
  | _ => 0%R
  end.

Definition is_finite (x : spec_float) : bool :=
  match x with
  | S754_zero _ | S754_finite _ _ _ => true
  | _ => false
  end.

Definition is_zero (x : spec_float) : bool :=
  match x with S754_zero _ => true | _ => false end.

(** The record of a right shift stands for the real [y]: its integer part
    is the mantissa, and the two remaining bits say whether anything was
    shifted out. *)
Definition inb (mrs : shr_record) (y : R) : Prop :=
  (IZR (shr_m mrs) <= y < IZR (shr_m mrs) + 1)%R /\
  (loc_of_shr_record mrs = loc_Exact -> y = IZR (shr_m mrs)) /\
  (loc_of_shr_record mrs <> loc_Exact -> (IZR (shr_m mrs) < y)%R).

(** A mantissa and exponent in the canonical form of the format. *)
Definition canonical (prec emax m e : Z) : Prop :=
  0 <= m /\ emin prec emax <= e /\
  (0 < m -> fexp prec emax (Zdigits2 m + e) = e) /\
  (m = 0 -> e = emin prec emax).

(** What [binary_round_aux] returns for a rounded mantissa and exponent. *)
Definition mk_float (prec emax : Z) (s : bool) (m e : Z) : spec_float :=
  match m with
  | Z0 => S754_zero s
  | Zpos p =>
      if (e <=? emax - prec)%Z then S754_finite s p e else S754_infinity s
  | Zneg _ => S754_nan
  end.

Definition good (prec emax : Z) (x : spec_float) : Prop :=
  valid_binary prec emax x = true /\ x <> S754_nan.

(** ** Invariants of a run *)

(** A valid finite number. *)
Definition number_ok (x : number) : Prop :=
  valid x = true /\ is_finite x = true.

(** What holds of each component of the head orientation at all times: it
    is NaN or lies in [-100, 100], and it is never the negative zero. *)
Definition head_inv (h : number) : Prop :=
  valid h = true /\ h <> S754_zero true /\ (h = nan \/ in_range h = true).

Definition robot_inv (r : Misty2Robot) : Prop :=
  exists a b, headRotation r = [a; b] /\ head_inv a /\ head_inv b /\
              sensitivity r = decimal 2 2 /\ deadzone r = decimal 1 1.

Definition head_is_number (r : Misty2Robot) : Prop :=
  (headRotation r).[0] <> nan /\ (headRotation r).[1] <> nan.

Definition head_axes_are_numbers (g : Gamepad) : Prop :=
  (axes g).[2] <> nan /\ (axes g).[3] <> nan.

(** ** Vocabulary of the further properties *)

Definition is_command (ip : string) (e : event) : bool :=
  is_request_to (api ip "/api/head") e || is_request_to (api ip "/api/drive") e.

Definition same_head_axes (g g' : Gamepad) : Prop :=
  (axes g).[2] = (axes g').[2] /\ (axes g).[3] = (axes g').[3].

Definition same_drive_axes (g g' : Gamepad) : Prop :=
  (axes g).[0] = (axes g').[0] /\ (axes g).[1] = (axes g').[1].

Definition head_requests (ip : string) (tr : list event) : list event :=
  filter (is_request_to (api ip "/api/head")) tr.

Definition drive_requests (ip : string) (tr : list event) : list event :=
  filter (is_request_to (api ip "/api/drive")) tr.

Definition start_request (r : Misty2Robot) : Request :=
  mkRequest (api (ipAddress r) "/api/videostreaming/start") POST
    (Some [("Port", JNumber (of_Z 5678)); ("Rotation", JNumber (of_Z 90));
           ("Width", JNumber (imageWidth r));
           ("Height", JNumber (imageHeight r));
           ("Quality", JNumber (videoQuality r))]).

Definition reboot_request (r : Misty2Robot) : Request :=
  mkRequest (api (ipAddress r) "/api/reboot") POST
    (Some [("Core", JBoolean false); ("SensoryServices", JBoolean true)]).

Definition stop_request (ip : string) : Request :=
  mkRequest (api ip "/api/videostreaming/stop") POST None.

Definition session_socket (ip : string) : WebSocket :=
  mkWebSocket ("ws://" ++ ip ++ ":5678") (Some (StopStreamOnClose ip)) OPEN.

Definition axis_in_unit (a : number) : Prop :=
  valid a = true /\ le (of_Z (-1)) a = true /\ le a (of_Z 1) = true.

Definition unit_drive_axes (g : Gamepad) : Prop :=
  axis_in_unit (axes g).[0] /\ axis_in_unit (axes g).[1].

Definition small_integer (x : number) : Prop :=
  exists z : Z, -100 <= z <= 100 /\ x = of_Z z.

(** An integer between -100 and 100, or the negative zero. *)
Definition small_integer_or_negzero (x : number) : Prop :=
  small_integer x \/ x = S754_zero true.

(** * Properties *)

Arguments add : simpl never.
Arguments sub : simpl never.
Arguments mul : simpl never.
Arguments div : simpl never.
Arguments of_Z : simpl never.
Arguments eq : simpl never.
Arguments lt : simpl never.
Arguments gt : simpl never.
Arguments le : simpl never.
Arguments decimal : simpl never.
Arguments Math.floor : simpl never.
Arguments Math.trunc : simpl never.
Arguments Math.min : simpl never.
Arguments Math.max : simpl never.
Arguments api : simpl never.

(** ** The number model on some literals *)

Example decimal_0_1 :
  decimal 1 1 = S754_finite false 7205759403792794 (-56).
Proof. vm_compute. reflexivity. Qed.

Example decimal_0_02 :
  decimal 2 2 = S754_finite false 5764607523034235 (-58).
Proof. vm_compute. reflexivity. Qed.

Example scale_ends :
  mapAnalogValues (of_Z (-1)) (of_Z 1) = [of_Z (-100); of_Z 100].
Proof. vm_compute. reflexivity. Qed.

(** Rounding shows: 0.57 scales to 56, not to 57, because the product
    [0.785 * 200] rounds to a number just below 157. *)
Example scale_0_57 :
  mapAnalogValues (decimal 57 2) (decimal (-57) 2) = [of_Z 56; of_Z (-57)].
Proof. vm_compute. reflexivity. Qed.

(** ** One frame, as an equation *)

Lemma moveHead_eq (pitch yaw : number) (s : Store) :
  moveHead pitch yaw s =
  (Normal tt,
   mkStore (set_framesToMoveHead (tick (framesToMoveHead (this s))) (this s))
           (sockets s)
           (trace s ++ (if due (framesToMoveHead (this s))
                        then [HeadCommand (ipAddress (this s)) pitch yaw (of_Z 100)]
                        else []))).
Proof.
  unfold moveHead, bind, modify, read, fetch_forget, emit, ret, tick, due,
    HeadCommand.
  cbn.
  destruct (eq (add (framesToMoveHead (this s)) (of_Z 1)) (of_Z 180)); cbn.
  - reflexivity.
  - rewrite app_nil_r. destruct s as [r so tr]; reflexivity.
Qed.

Lemma move_eq (lin ang : number) (s : Store) :
  move lin ang s =
  (Normal tt,
   mkStore (set_framesToMoveBody (tick (framesToMoveBody (this s))) (this s))
           (sockets s)
           (trace s ++ (if due (framesToMoveBody (this s))
                        then [DriveCommand (ipAddress (this s)) lin ang]
                        else []))).
Proof.
  unfold move, bind, modify, read, fetch_forget, emit, ret, tick, due,
    DriveCommand.
  cbn.
  destruct (eq (add (framesToMoveBody (this s)) (of_Z 1)) (of_Z 180)); cbn.
  - reflexivity.
  - rewrite app_nil_r. destruct s as [r so tr]; reflexivity.
Qed.

Lemma update_eq (g : Gamepad) (s : Store) :
  update g s =
  (Normal tt,
   mkStore (robot_after g (this s)) (sockets s)
           (trace s ++ head_events g (this s) ++ drive_events g (this s))).
Proof.
  unfold update.
  unfold bind at 1. unfold read at 1.
  unfold bind at 1. unfold modify at 1.
  unfold bind at 1. unfold modify at 1.
  unfold bind at 1. unfold modify at 1.
  unfold bind at 1. unfold modify at 1.
  unfold bind at 1. unfold read at 1.
  unfold bind at 1. rewrite moveHead_eq. rewrite move_eq.
  cbn [this sockets trace set_headRotation set_framesToMoveHead
       headRotation framesToMoveHead framesToMoveBody ipAddress sensitivity
       deadzone imageWidth imageHeight videoQuality ws].
  unfold robot_after, head_events, drive_events, head_after, set_framesToMoveBody.
  cbn [this sockets trace set_headRotation set_framesToMoveHead
       headRotation framesToMoveHead framesToMoveBody ipAddress sensitivity
       deadzone imageWidth imageHeight videoQuality ws].
  rewrite <- app_assoc. reflexivity.
Qed.

(** ** Strings and requests *)

Lemma append_eqb_prefix (p a b : string) :
  String.eqb (p ++ a) (p ++ b) = String.eqb a b.
Proof.
  induction p as [|c p IH]; cbn.
  - reflexivity.
  - rewrite Ascii.eqb_refl. exact IH.
Qed.

Lemma api_eqb (ip a b : string) :
  String.eqb (api ip a) (api ip b) = String.eqb a b.
Proof. unfold api. now rewrite !append_eqb_prefix. Qed.

Lemma count_head_app ip t1 t2 :
  count_head ip (t1 ++ t2) = (count_head ip t1 + count_head ip t2)%nat.
Proof. unfold count_head. now rewrite filter_app, length_app. Qed.

Lemma count_drive_app ip t1 t2 :
  count_drive ip (t1 ++ t2) = (count_drive ip t1 + count_drive ip t2)%nat.
Proof. unfold count_drive. now rewrite filter_app, length_app. Qed.

Lemma count_head_events g r :
  count_head (ipAddress r) (head_events g r) =
  if due (framesToMoveHead r) then 1%nat else 0%nat.
Proof.
  unfold head_events, count_head, HeadCommand.
  destruct (due (framesToMoveHead r)); cbn; [|reflexivity].
  now rewrite String.eqb_refl.
Qed.

Lemma count_head_drive_events g r :
  count_head (ipAddress r) (drive_events g r) = 0%nat.
Proof.
  unfold drive_events, count_head, DriveCommand.
  destruct (due (framesToMoveBody r)); cbn; [|reflexivity].
  now rewrite api_eqb.
Qed.

Lemma count_drive_events g r :
  count_drive (ipAddress r) (drive_events g r) =
  if due (framesToMoveBody r) then 1%nat else 0%nat.
Proof.
  unfold drive_events, count_drive, DriveCommand.
  destruct (due (framesToMoveBody r)); cbn; [|reflexivity].
  now rewrite String.eqb_refl.
Qed.

Lemma count_drive_head_events g r :
  count_drive (ipAddress r) (head_events g r) = 0%nat.
Proof.
  unfold head_events, count_drive, HeadCommand.
  destruct (due (framesToMoveHead r)); cbn; [|reflexivity].
  now rewrite api_eqb.
Qed.

(** ** The frame counters

    A counter only ever holds one of the integers 0..179, and on those the
    binary64 increment and comparison agree with the integers'. *)

Lemma same_eq (a b : number) : same a b = true -> a = b.
Proof.
  destruct a as [s1|s1| |s1 m1 e1], b as [s2|s2| |s2 m2 e2]; cbn;
    try discriminate; try reflexivity.
  - intros H. apply Bool.eqb_prop in H. now subst.
  - intros H. apply Bool.eqb_prop in H. now subst.
  - intros H. apply andb_prop in H as [H He]. apply andb_prop in H as [Hs Hm].
    apply Bool.eqb_prop in Hs. apply Pos.eqb_eq in Hm. apply Z.eqb_eq in He.
    now subst.
Qed.

Lemma counter_table :
  forallb (fun k : nat =>
             same (add (of_Z (Z.of_nat k)) (of_Z 1)) (of_Z (Z.of_nat k + 1))
             && Bool.eqb (eq (of_Z (Z.of_nat k + 1)) (of_Z 180))
                         (Z.of_nat k + 1 =? 180)%Z)
          (seq 0 180) = true.
Proof. vm_compute. reflexivity. Qed.

Lemma counter_step (k : Z) :
  0 <= k < 180 ->
  add (of_Z k) (of_Z 1) = of_Z (k + 1) /\
  due (of_Z k) = (k =? 179)%Z.
Proof.
  intros Hk.
  pose proof counter_table as T.
  rewrite forallb_forall in T.
  specialize (T (Z.to_nat k)).
  rewrite Z2Nat.id in T by lia.
  assert (Hin : In (Z.to_nat k) (seq 0 180)) by (apply in_seq; lia).
  apply T in Hin. apply andb_prop in Hin as [H1 H2].
  apply same_eq in H1. apply Bool.eqb_prop in H2.
  split; [exact H1|].
  unfold due. rewrite H1, H2.
  destruct (Z.eqb_spec (k + 1) 180), (Z.eqb_spec k 179); try reflexivity; lia.
Qed.

Lemma tick_counter (k : Z) :
  0 <= k < 180 -> tick (of_Z k) = of_Z ((k + 1) mod 180).
Proof.
  intros Hk. unfold tick.
  destruct (counter_step k Hk) as [Ha Hd]. rewrite Hd, Ha.
  destruct (Z.eqb_spec k 179) as [->|Hne].
  - reflexivity.
  - rewrite Z.mod_small by lia. reflexivity.
Qed.

Lemma frames_run (gs : list Gamepad) :
  forall (s : Store) (hk bk : Z),
    0 <= hk < 180 -> 0 <= bk < 180 ->
    framesToMoveHead (this s) = of_Z hk ->
    framesToMoveBody (this s) = of_Z bk ->
    exists s',
      frames gs s = (Normal tt, s') /\
      ipAddress (this s') = ipAddress (this s) /\
      framesToMoveHead (this s') = of_Z ((hk + Z.of_nat (List.length gs)) mod 180) /\
      framesToMoveBody (this s') = of_Z ((bk + Z.of_nat (List.length gs)) mod 180) /\
      Z.of_nat (count_head (ipAddress (this s)) (trace s')) =
        Z.of_nat (count_head (ipAddress (this s)) (trace s))
        + (hk + Z.of_nat (List.length gs)) / 180 /\
      Z.of_nat (count_drive (ipAddress (this s)) (trace s')) =
        Z.of_nat (count_drive (ipAddress (this s)) (trace s))
        + (bk + Z.of_nat (List.length gs)) / 180.
Proof.
  induction gs as [|g gs IH]; intros s hk bk Hh Hb Eh Eb.
  - exists s. cbn [frames List.length Z.of_nat]. rewrite !Z.add_0_r.
    rewrite !Z.mod_small, !Z.div_small by lia.
    unfold ret. repeat split; try assumption; lia.
  - cbn [frames]. unfold bind. rewrite update_eq.
    set (s1 := mkStore _ _ _).
    assert (Eh1 : framesToMoveHead (this s1) = of_Z ((hk + 1) mod 180)).
    { cbn. rewrite Eh. now apply tick_counter. }
    assert (Eb1 : framesToMoveBody (this s1) = of_Z ((bk + 1) mod 180)).
    { cbn. rewrite Eb. now apply tick_counter. }
    destruct (IH s1 ((hk + 1) mod 180) ((bk + 1) mod 180))
      as (s' & Hrun & Hip & Hhc & Hbc & Hch & Hcd); try assumption;
      try (apply Z.mod_pos_bound; lia).
    exists s'. split; [exact Hrun|].
    assert (Hip1 : ipAddress (this s1) = ipAddress (this s)) by reflexivity.
    rewrite Hip1 in *.
    assert (Hd1 : due (framesToMoveHead (this s)) = (hk =? 179)%Z).
    { rewrite Eh. now apply counter_step. }
    assert (Hd2 : due (framesToMoveBody (this s)) = (bk =? 179)%Z).
    { rewrite Eb. now apply counter_step. }
    assert (Ht1 : Z.of_nat (count_head (ipAddress (this s)) (trace s1)) =
                  Z.of_nat (count_head (ipAddress (this s)) (trace s))
                  + (if (hk =? 179)%Z then 1 else 0)).
    { subst s1. cbn [trace]. rewrite !count_head_app, count_head_events,
        count_head_drive_events, Hd1.
      destruct (hk =? 179)%Z; lia. }
    assert (Ht2 : Z.of_nat (count_drive (ipAddress (this s)) (trace s1)) =
                  Z.of_nat (count_drive (ipAddress (this s)) (trace s))
                  + (if (bk =? 179)%Z then 1 else 0)).
    { subst s1. cbn [trace]. rewrite !count_drive_app, count_drive_events,
        count_drive_head_events, Hd2.
      destruct (bk =? 179)%Z; lia. }
    cbn [List.length]. rewrite Nat2Z.inj_succ.
    replace (hk + Z.succ (Z.of_nat (List.length gs)))
      with (hk + 1 + Z.of_nat (List.length gs)) by lia.
    replace (bk + Z.succ (Z.of_nat (List.length gs)))
      with (bk + 1 + Z.of_nat (List.length gs)) by lia.
    rewrite Hhc, Hbc, Hch, Hcd, Ht1, Ht2.
    rewrite !Zplus_mod_idemp_l.
    repeat split; try assumption.
    + destruct (Z.eqb_spec hk 179) as [->|Hne].
      * replace ((179 + 1) mod 180) with 0 by reflexivity.
        replace (179 + 1 + Z.of_nat (List.length gs))
          with (Z.of_nat (List.length gs) + 1 * 180) by lia.
        rewrite Z.div_add by lia. rewrite ?Z.add_0_l. lia.
      * rewrite (Z.mod_small (hk + 1)) by lia. lia.
    + destruct (Z.eqb_spec bk 179) as [->|Hne].
      * replace ((179 + 1) mod 180) with 0 by reflexivity.
        replace (179 + 1 + Z.of_nat (List.length gs))
          with (Z.of_nat (List.length gs) + 1 * 180) by lia.
        rewrite Z.div_add by lia. rewrite ?Z.add_0_l. lia.
      * rewrite (Z.mod_small (bk + 1)) by lia. lia.
Qed.

Lemma update_head_channel (g : Gamepad) (s : Store) :
  let s' := snd (update g s) in
  let ip := ipAddress (this s) in
  if due (framesToMoveHead (this s))
  then count_head ip (trace s') = S (count_head ip (trace s)) /\
       framesToMoveHead (this s') = of_Z 0
  else count_head ip (trace s') = count_head ip (trace s) /\
       framesToMoveHead (this s') = add (framesToMoveHead (this s)) (of_Z 1).
Proof.
  cbv zeta. rewrite update_eq. cbn [snd trace this robot_after framesToMoveHead].
  rewrite !count_head_app, count_head_events, count_head_drive_events.
  unfold tick. destruct (due (framesToMoveHead (this s))); split;
    try reflexivity; lia.
Qed.

Lemma update_body_channel (g : Gamepad) (s : Store) :
  let s' := snd (update g s) in
  let ip := ipAddress (this s) in
  if due (framesToMoveBody (this s))
  then count_drive ip (trace s') = S (count_drive ip (trace s)) /\
       framesToMoveBody (this s') = of_Z 0
  else count_drive ip (trace s') = count_drive ip (trace s) /\
       framesToMoveBody (this s') = add (framesToMoveBody (this s)) (of_Z 1).
Proof.
  cbv zeta. rewrite update_eq. cbn [snd trace this robot_after framesToMoveBody].
  rewrite !count_drive_app, count_drive_events, count_drive_head_events.
  unfold tick. destruct (due (framesToMoveBody (this s))); split;
    try reflexivity; lia.
Qed.

(** C1.  From a freshly constructed robot, whatever the gamepad samples
    are: every call of [update] completes; after [n] calls [n / 180]
    commands of each channel have been sent; any 180 consecutive calls send
    exactly one head command and exactly one drive command; and in every
    call each channel looks at its own counter only, which goes back to zero
    exactly when that channel sends and is incremented otherwise. *)
Theorem one_command_per_180_frames
  (ip : string) (vq w h : number) (socks : list WebSocket) (tr : list event)
  (before window : list Gamepad) :
  List.length window = 180%nat ->
  let s0 := mkStore (constructor ip vq w h) socks tr in
  let s1 := snd (frames before s0) in
  let s2 := snd (frames window s1) in
  fst (frames before s0) = Normal tt /\
  fst (frames window s1) = Normal tt /\
  count_head ip (trace s1) = (count_head ip tr + List.length before / 180)%nat /\
  count_drive ip (trace s1) = (count_drive ip tr + List.length before / 180)%nat /\
  count_head ip (trace s2) = S (count_head ip (trace s1)) /\
  count_drive ip (trace s2) = S (count_drive ip (trace s1)) /\
  forall (g : Gamepad) (s : Store),
    let s' := snd (update g s) in
    let ip' := ipAddress (this s) in
    (if due (framesToMoveHead (this s))
     then count_head ip' (trace s') = S (count_head ip' (trace s)) /\
          framesToMoveHead (this s') = of_Z 0
     else count_head ip' (trace s') = count_head ip' (trace s) /\
          framesToMoveHead (this s') = add (framesToMoveHead (this s)) (of_Z 1))
    /\
    (if due (framesToMoveBody (this s))
     then count_drive ip' (trace s') = S (count_drive ip' (trace s)) /\
          framesToMoveBody (this s') = of_Z 0
     else count_drive ip' (trace s') = count_drive ip' (trace s) /\
          framesToMoveBody (this s') = add (framesToMoveBody (this s)) (of_Z 1)).
Proof.
  intros Hlen s0 s1 s2.
  destruct (frames_run before s0 0 0) as (t1 & R1 & I1 & H1 & B1 & C1 & D1);
    try lia; try reflexivity.
  assert (E1 : s1 = t1) by (unfold s1; now rewrite R1).
  rewrite Z.add_0_l in *.
  destruct (frames_run window t1
              (Z.of_nat (List.length before) mod 180)
              (Z.of_nat (List.length before) mod 180))
    as (t2 & R2 & I2 & H2 & B2 & C2 & D2);
    try (apply Z.mod_pos_bound; lia); try assumption.
  assert (E2 : s2 = t2) by (unfold s2; rewrite E1; now rewrite R2).
  rewrite I1 in C2, D2. cbn [s0 this constructor ipAddress trace] in C1, D1, C2, D2.
  rewrite Hlen in C2, D2.
  assert (Hw : (Z.of_nat (List.length before) mod 180 + Z.of_nat 180) / 180 = 1).
  { pose proof (Z.mod_pos_bound (Z.of_nat (List.length before)) 180 ltac:(lia)).
    change (Z.of_nat 180) with (1 * 180).
    rewrite Z.div_add by lia. rewrite Z.div_small by lia. reflexivity. }
  rewrite Hw in C2, D2.
  rewrite E2, E1, R1.
  change 180 with (Z.of_nat 180) in C1, D1.
  rewrite <- Nat2Z.inj_div in C1, D1.
  repeat split; try lia.
  - rewrite R2. reflexivity.
  - apply update_head_channel.
  - apply update_body_channel.
Qed.

Lemma one_command_per_180_frames_witness :
  let g := mkGamepad [of_Z 1; of_Z (-1); decimal 5 1; nan] in
  let s1 := snd (frames [g; g; g]
                   (mkStore (constructor_default "10.0.0.2") [] [])) in
  let s2 := snd (frames (repeat g 180) s1) in
  count_head "10.0.0.2" (trace s2) = S (count_head "10.0.0.2" (trace s1)) /\
  count_drive "10.0.0.2" (trace s2) = S (count_drive "10.0.0.2" (trace s1)).
Proof.
  intros g s1 s2.
  pose proof (one_command_per_180_frames "10.0.0.2" (of_Z 100) (of_Z 400)
                (of_Z 540) [] [] [g; g; g] (repeat g 180) eq_refl) as H.
  cbv zeta in H.
  destruct H as (_ & _ & _ & _ & Hh & Hd & _).
  split; [exact Hh | exact Hd].
Defined.

(** ** Comparison of numbers *)

Lemma SFcompare_refl (x : number) :
  SFcompare x x = if is_nan x then None else Some Eq.
Proof.
  destruct x as [s|s| |s m e]; cbn; try reflexivity.
  - now destruct s.
  - rewrite Z.compare_refl, Pos.compare_cont_refl. now destruct s.
Qed.

Lemma lt_irrefl (x : number) : lt x x = false.
Proof.
  unfold lt, SFltb. rewrite SFcompare_refl. now destruct (is_nan x).
Qed.

Lemma SFcompare_Eq_inv (a b : number) :
  SFcompare a b = Some Eq ->
  (exists s1 s2, a = S754_zero s1 /\ b = S754_zero s2) \/
  (a = b /\ is_nan a = false).
Proof.
  destruct a as [s1|s1| |s1 m1 e1], b as [s2|s2| |s2 m2 e2]; cbn;
    try discriminate;
    try (destruct s1; discriminate); try (destruct s2; discriminate).
  - intros _. left. now exists s1, s2.
  - destruct s1, s2; intros H; try discriminate H; now right.
  - destruct s1, s2; try discriminate;
      destruct (Z.compare_spec e1 e2) as [->| |]; try discriminate;
      intros H; injection H as H.
    + apply CompOpp_iff in H. cbn in H. apply Pos.compare_eq in H. subst. now right.
    + apply Pos.compare_eq in H. subst. now right.
Qed.

Lemma SFcompare_Eq_sym (a b : number) :
  SFcompare a b = Some Eq -> SFcompare b a = Some Eq.
Proof.
  intros H. destruct (SFcompare_Eq_inv a b H) as [(s1 & s2 & -> & ->)|[-> Hn]].
  - reflexivity.
  - rewrite SFcompare_refl, Hn. reflexivity.
Qed.

Lemma eq_not_lt (a b : number) : eq a b = true -> lt a b = false.
Proof.
  unfold eq, lt, SFeqb, SFltb.
  destruct (SFcompare a b) as [[| |]|]; congruence.
Qed.

Lemma eq_not_gt (a b : number) : eq a b = true -> gt a b = false.
Proof.
  unfold eq, gt, SFeqb, SFltb. intros H.
  destruct (SFcompare a b) as [[| |]|] eqn:E; try discriminate.
  now rewrite (SFcompare_Eq_sym a b E).
Qed.

(** ** The deadzone filter *)

Lemma readAnalogSticks_spec (g : Gamepad) (d : number) :
  readAnalogSticks g d =
  [applyDeadzone (axes g).[0] d; applyDeadzone (axes g).[1] d;
   applyDeadzone (axes g).[2] d; applyDeadzone (axes g).[3] d].
Proof. reflexivity. Qed.

Lemma applyDeadzone_inside (v d : number) :
  gt v (neg d) = true -> lt v d = true -> applyDeadzone v d = of_Z 0.
Proof. intros H1 H2. unfold applyDeadzone. now rewrite H1, H2. Qed.

(** C3.  A value strictly between [-d] and [d] is replaced by 0; a value
    equal to [d] or to [-d], and any value for which one of the two strict
    comparisons fails, is returned as it is; [readAnalogSticks] applies
    this filter to each of the four axes separately. *)
Theorem deadzone_filter (v d : number) :
  (gt v (neg d) = true -> lt v d = true -> applyDeadzone v d = of_Z 0) /\
  (eq v d = true -> applyDeadzone v d = v) /\
  (eq v (neg d) = true -> applyDeadzone v d = v) /\
  (lt v d = false \/ gt v (neg d) = false -> applyDeadzone v d = v) /\
  (forall g : Gamepad,
      readAnalogSticks g d =
      [applyDeadzone (axes g).[0] d; applyDeadzone (axes g).[1] d;
       applyDeadzone (axes g).[2] d; applyDeadzone (axes g).[3] d]).
Proof.
  split; [apply applyDeadzone_inside|].
  unfold applyDeadzone. repeat split.
  - intros H. now rewrite (eq_not_lt _ _ H).
  - intros H. rewrite (eq_not_gt _ _ H). now rewrite andb_false_r.
  - intros [H|H]; rewrite H; [reflexivity | now rewrite andb_false_r].
Qed.

Lemma deadzone_filter_witness :
  applyDeadzone (decimal 5 2) (decimal 1 1) = of_Z 0 /\
  applyDeadzone (decimal 1 1) (decimal 1 1) = decimal 1 1 /\
  applyDeadzone (neg (decimal 1 1)) (decimal 1 1) = neg (decimal 1 1) /\
  applyDeadzone (decimal 7 1) (decimal 1 1) = decimal 7 1.
Proof.
  split; [|split; [|split]].
  - apply (proj1 (deadzone_filter (decimal 5 2) (decimal 1 1)));
      vm_compute; reflexivity.
  - apply (proj1 (proj2 (deadzone_filter (decimal 1 1) (decimal 1 1))));
      vm_compute; reflexivity.
  - apply (proj1 (proj2 (proj2
             (deadzone_filter (neg (decimal 1 1)) (decimal 1 1)))));
      vm_compute; reflexivity.
  - apply (proj1 (proj2 (proj2 (proj2
             (deadzone_filter (decimal 7 1) (decimal 1 1))))));
      left; vm_compute; reflexivity.
Defined.

(** ** Arrays *)

Lemma arr_get_set_same (i : nat) :
  forall (l : list number) (v : number), (arr_set l i v).[i] = v.
Proof.
  induction i as [|i IH]; intros [|x t] v; cbn; try reflexivity; apply IH.
Qed.

Lemma arr_get_set_other (i : nat) :
  forall (l : list number) (j : nat) (v : number),
    i <> j -> (arr_set l i v).[j] = l.[j].
Proof.
  unfold arr_get.
  induction i as [|i IH]; intros [|x t] [|j] v Hij; cbn; try congruence.
  - now destruct j.
  - rewrite IH by congruence. now destruct j.
  - apply IH. congruence.
Qed.

Lemma mapAnalogValues_spec (x y : number) :
  mapAnalogValues x y = [scale x; scale y].
Proof. reflexivity. Qed.

Lemma head_after_0 (g : Gamepad) (r : Misty2Robot) :
  (head_after g r).[0] =
  accumulate (headRotation r).[0]
             (scale (applyDeadzone (axes g).[2] (deadzone r)))
             (sensitivity r).
Proof.
  unfold head_after. cbv zeta.
  rewrite (arr_get_set_other 1 _ 0) by congruence.
  rewrite (arr_get_set_other 1 _ 0) by congruence.
  rewrite !arr_get_set_same. reflexivity.
Qed.

Lemma head_after_1 (g : Gamepad) (r : Misty2Robot) :
  (head_after g r).[1] =
  accumulate (headRotation r).[1]
             (scale (applyDeadzone (axes g).[3] (deadzone r)))
             (sensitivity r).
Proof.
  unfold head_after. cbv zeta.
  rewrite !arr_get_set_same.
  rewrite !(arr_get_set_other 0 _ 1) by congruence. reflexivity.
Qed.

(** ** Contents of the commands *)

(** C5.  In a call of [update] in which the head counter reaches 180, the
    call sends one head command; its pitch is the truncation of component 1
    of the head orientation, its yaw the negated truncation of component 0
    and its velocity 100, the components being those stored by this very
    call: the old value plus the scaled head axis times the sensitivity,
    clamped to [-100, 100]. *)
Theorem head_command_contents (g : Gamepad) (s : Store) :
  due (framesToMoveHead (this s)) = true ->
  let s' := snd (update g s) in
  let r := this s in
  let h' := headRotation (this s') in
  (exists rest,
      trace s' =
      (trace s ++
       HeadCommand (ipAddress r) (Math.trunc h'.[1]) (neg (Math.trunc h'.[0]))
                   (of_Z 100) :: rest)%list /\
      count_head (ipAddress r) rest = 0%nat) /\
  h'.[0] = clamp (add (headRotation r).[0]
                      (mul (scale (applyDeadzone (axes g).[2] (deadzone r)))
                           (sensitivity r)))
                 (of_Z (-100)) (of_Z 100) /\
  h'.[1] = clamp (add (headRotation r).[1]
                      (mul (scale (applyDeadzone (axes g).[3] (deadzone r)))
                           (sensitivity r)))
                 (of_Z (-100)) (of_Z 100).
Proof.
  intros Hdue s' r h'. subst s' h' r. rewrite update_eq.
  cbn [snd this trace robot_after headRotation].
  split; [|split].
  - exists (drive_events g (this s)). split.
    + unfold head_events. rewrite Hdue. reflexivity.
    + apply count_head_drive_events.
  - apply head_after_0.
  - apply head_after_1.
Qed.

Lemma head_command_contents_witness :
  let g := mkGamepad [of_Z 0; of_Z 0; of_Z 1; of_Z (-1)] in
  let r := set_framesToMoveHead (of_Z 179)
             (set_headRotation [decimal 505 1; decimal (-75) 1]
                (constructor_default "10.0.0.2")) in
  exists rest,
    trace (snd (update g (mkStore r [] []))) =
    HeadCommand "10.0.0.2" (of_Z (-9)) (of_Z (-52)) (of_Z 100) :: rest.
Proof.
  intros g r.
  destruct (head_command_contents g (mkStore r [] []) eq_refl)
    as ((rest & Htr & _) & _).
  exists rest. exact Htr.
Defined.

(** C6.  In a call of [update] in which the body counter reaches 180, the
    call sends one drive command; its linear velocity is the scaled,
    deadzone-filtered axis 1 and its angular velocity the scaled,
    deadzone-filtered axis 0 of the sample. *)
Theorem drive_command_contents (g : Gamepad) (s : Store) :
  due (framesToMoveBody (this s)) = true ->
  let s' := snd (update g s) in
  let r := this s in
  exists before,
    trace s' =
    (trace s ++ before ++
     [DriveCommand (ipAddress r)
        (scale (applyDeadzone (axes g).[1] (deadzone r)))
        (scale (applyDeadzone (axes g).[0] (deadzone r)))])%list /\
    count_drive (ipAddress r) before = 0%nat.
Proof.
  intros Hdue s' r. subst s' r. rewrite update_eq. cbn [snd trace].
  exists (head_events g (this s)). split.
  - unfold drive_events. rewrite Hdue. reflexivity.
  - apply count_drive_head_events.
Qed.

Lemma drive_command_contents_witness :
  let g := mkGamepad [decimal 5 1; of_Z (-1); of_Z 0; of_Z 0] in
  let r := set_framesToMoveBody (of_Z 179) (constructor_default "10.0.0.2") in
  exists before,
    trace (snd (update g (mkStore r [] []))) =
    (before ++ [DriveCommand "10.0.0.2" (of_Z (-100)) (of_Z 50)])%list.
Proof.
  intros g r.
  destruct (drive_command_contents g (mkStore r [] []) eq_refl)
    as (before & Htr & _).
  exists before. exact Htr.
Defined.

(** ** The video-stream session *)

Lemma getVideoStream_ok (net : Transport) (parses : UrlParser) (s : Store) :
  let r := this s in
  let start :=
    mkRequest (api (ipAddress r) "/api/videostreaming/start") POST
      (Some [("Port", JNumber (of_Z 5678)); ("Rotation", JNumber (of_Z 90));
             ("Width", JNumber (imageWidth r));
             ("Height", JNumber (imageHeight r));
             ("Quality", JNumber (videoQuality r))]) in
  net start = Responded 200 ->
  parses ("ws://" ++ ipAddress r ++ ":5678") = true ->
  getVideoStream net parses s =
  (Normal (List.length (sockets s)),
   mkStore (set_ws (Some (List.length (sockets s))) r)
           (sockets s ++
            [mkWebSocket ("ws://" ++ ipAddress r ++ ":5678")
                         (Some (StopStreamOnClose (ipAddress r))) OPEN])
           (trace s ++
            [Fetch start; NewWebSocket ("ws://" ++ ipAddress r ++ ":5678")])).
Proof.
  intros r start Hnet Hurl. subst r start.
  unfold getVideoStream, fetch_await, bind, read, emit, ret.
  cbn [this sockets trace]. rewrite Hnet. cbn [Z.eqb Pos.eqb].
  unfold bind, new_WebSocket, modify, set_onclose, ret.
  cbn [this sockets trace]. rewrite Hurl. cbn.
  f_equal. f_equal.
  - induction (sockets s) as [|x t IH]; cbn; [reflexivity|].
    now rewrite IH.
  - now rewrite <- app_assoc.
Qed.

Lemma getVideoStream_bad_url (net : Transport) (parses : UrlParser) (s : Store) :
  let r := this s in
  let start :=
    mkRequest (api (ipAddress r) "/api/videostreaming/start") POST
      (Some [("Port", JNumber (of_Z 5678)); ("Rotation", JNumber (of_Z 90));
             ("Width", JNumber (imageWidth r));
             ("Height", JNumber (imageHeight r));
             ("Quality", JNumber (videoQuality r))]) in
  net start = Responded 200 ->
  parses ("ws://" ++ ipAddress r ++ ":5678") = false ->
  getVideoStream net parses s =
  (Throw SyntaxError, mkStore r (sockets s) (trace s ++ [Fetch start])).
Proof.
  intros r start Hnet Hurl. subst r start.
  unfold getVideoStream, fetch_await, bind, read, emit, ret.
  cbn [this sockets trace]. rewrite Hnet. cbn [Z.eqb Pos.eqb].
  unfold bind, new_WebSocket. cbn [this sockets trace]. rewrite Hurl.
  reflexivity.
Qed.

Lemma getVideoStream_refused
  (net : Transport) (parses : UrlParser) (s : Store) (status : Z) :
  let r := this s in
  let start :=
    mkRequest (api (ipAddress r) "/api/videostreaming/start") POST
      (Some [("Port", JNumber (of_Z 5678)); ("Rotation", JNumber (of_Z 90));
             ("Width", JNumber (imageWidth r));
             ("Height", JNumber (imageHeight r));
             ("Quality", JNumber (videoQuality r))]) in
  net start = Responded status -> status <> 200 ->
  getVideoStream net parses s =
  (Throw (Error "Failed to start video stream."),
   mkStore r (sockets s) (trace s ++ [Fetch start])).
Proof.
  intros r start Hnet Hst. subst r start.
  unfold getVideoStream, fetch_await, bind, read, emit, ret.
  cbn [this sockets trace]. rewrite Hnet.
  destruct (Z.eqb_spec status 200) as [E|_]; [contradiction|].
  unfold throw. reflexivity.
Qed.

(** C7, amended.  [getVideoStream] issues one request, the start request
    with port 5678, rotation 90 and the configured width, height and
    quality.  When the answer has status 200 and the platform accepts the
    socket URL [ws://<address>:5678], it opens a socket to port 5678 of the
    robot, stores its handle, installs the close handler and returns the
    handle.  When the answer has status 200 and the platform does not accept
    that URL, the [WebSocket] constructor throws a [SyntaxError].  With any
    other status it throws the error of the source.  In both failures
    nothing else happens: no socket is created and the stored handle is what
    it was. *)
Theorem getVideoStream_outcomes
  (net : Transport) (parses : UrlParser) (s : Store) (status : Z) :
  let r := this s in
  let start :=
    mkRequest (api (ipAddress r) "/api/videostreaming/start") POST
      (Some [("Port", JNumber (of_Z 5678)); ("Rotation", JNumber (of_Z 90));
             ("Width", JNumber (imageWidth r));
             ("Height", JNumber (imageHeight r));
             ("Quality", JNumber (videoQuality r))]) in
  net start = Responded status ->
  (status = 200 -> parses ("ws://" ++ ipAddress r ++ ":5678") = true ->
   getVideoStream net parses s =
   (Normal (List.length (sockets s)),
    mkStore (set_ws (Some (List.length (sockets s))) r)
            (sockets s ++
             [mkWebSocket ("ws://" ++ ipAddress r ++ ":5678")
                          (Some (StopStreamOnClose (ipAddress r))) OPEN])
            (trace s ++
             [Fetch start; NewWebSocket ("ws://" ++ ipAddress r ++ ":5678")])))
  /\
  (status = 200 -> parses ("ws://" ++ ipAddress r ++ ":5678") = false ->
   getVideoStream net parses s =
   (Throw SyntaxError, mkStore r (sockets s) (trace s ++ [Fetch start])))
  /\
  (status <> 200 ->
   getVideoStream net parses s =
   (Throw (Error "Failed to start video stream."),
    mkStore r (sockets s) (trace s ++ [Fetch start]))).
Proof.
  intros r start Hnet. split; [|split].
  - intros Hst Hurl. subst status. now apply getVideoStream_ok.
  - intros Hst Hurl. subst status. now apply getVideoStream_bad_url.
  - intros Hst. now apply (getVideoStream_refused net parses s status).
Qed.

Lemma getVideoStream_outcomes_witness :
  let s := mkStore (constructor_default "10.0.0.2") [] [] in
  fst (getVideoStream (fun _ => Responded 200) (fun _ => true) s)
  = Normal 0%nat /\
  fst (getVideoStream (fun _ => Responded 200) (fun _ => false) s)
  = Throw SyntaxError /\
  fst (getVideoStream (fun _ => Responded 503) (fun _ => true) s)
  = Throw (Error "Failed to start video stream.").
Proof.
  intros s. split; [|split].
  - rewrite (proj1 (getVideoStream_outcomes (fun _ => Responded 200)
                      (fun _ => true) s 200 eq_refl) eq_refl eq_refl).
    reflexivity.
  - rewrite (proj1 (proj2 (getVideoStream_outcomes (fun _ => Responded 200)
                             (fun _ => false) s 200 eq_refl))
                   eq_refl eq_refl).
    reflexivity.
  - rewrite (proj2 (proj2 (getVideoStream_outcomes (fun _ => Responded 503)
                             (fun _ => true) s 503 eq_refl)))
      by discriminate.
    reflexivity.
Defined.

(** C7 as stated fails: a response with status 200 need not open a socket.
    For the address [127.0.0.1:8080] the start request goes to
    [http://127.0.0.1:8080/api/videostreaming/start] and can be answered
    with 200, but the socket URL is [ws://127.0.0.1:8080:5678], which the
    platform does not accept: the call throws a [SyntaxError], which is not
    the error of a failed start, and no handle is returned. *)
Lemma getVideoStream_socket_url_rejected :
  getVideoStream
    (fun _ => Responded 200)
    (fun u => negb (String.eqb u "ws://127.0.0.1:8080:5678"))
    (mkStore (constructor_default "127.0.0.1:8080") [] [])
  = (Throw SyntaxError,
     mkStore (constructor_default "127.0.0.1:8080") []
       [Fetch (mkRequest "http://127.0.0.1:8080/api/videostreaming/start" POST
                 (Some [("Port", JNumber (of_Z 5678));
                        ("Rotation", JNumber (of_Z 90));
                        ("Width", JNumber (of_Z 400));
                        ("Height", JNumber (of_Z 540));
                        ("Quality", JNumber (of_Z 100))]))]).
Proof. reflexivity. Qed.

Lemma update_nth_last {A} (l : list A) (x : A) (f : A -> A) :
  update_nth (l ++ [x]) (List.length l) f = (l ++ [f x])%list.
Proof. induction l as [|y t IH]; cbn; [reflexivity | now rewrite IH]. Qed.

Lemma update_nth_id {A} (f : A -> A) (l : list A) :
  forall (i : nat) (x : A),
    nth_error l i = Some x -> f x = x -> update_nth l i f = l.
Proof.
  induction l as [|y t IH]; intros [|i] x Hx Hf; cbn in *; try discriminate.
  - injection Hx as ->. now rewrite Hf.
  - now rewrite (IH i x).
Qed.





(** C9.  [restart] issues exactly one request, the reboot request with
    [Core] false and [SensoryServices] true, from any store; whatever status
    the answer carries it completes normally, and it changes neither the
    object nor the sockets. *)
Theorem restart_one_reboot_request (net : Transport) (s : Store) :
  let reboot :=
    mkRequest (api (ipAddress (this s)) "/api/reboot") POST
      (Some [("Core", JBoolean false); ("SensoryServices", JBoolean true)]) in
  snd (restart net s) = mkStore (this s) (sockets s) (trace s ++ [Fetch reboot])
  /\ forall status : Z,
      net reboot = Responded status -> fst (restart net s) = Normal tt.
Proof.
  intros reboot. subst reboot.
  unfold restart, fetch_await, bind, read, emit, ret, throw.
  cbn [this sockets trace].
  destruct (net _) as [st|]; cbn.
  - split; [reflexivity|]. intros; reflexivity.
  - split; [reflexivity|]. intros; discriminate.
Qed.

Lemma restart_one_reboot_request_witness :
  fst (restart (fun _ => Responded 500)
         (mkStore (constructor_default "10.0.0.2") [] [])) = Normal tt.
Proof.
  exact (proj2 (restart_one_reboot_request (fun _ => Responded 500)
                  (mkStore (constructor_default "10.0.0.2") [] []))
               500 eq_refl).
Defined.

(** * Rounding to nearest in a binary format

    What [binary_round_aux] and the four operations built on it return, in
    terms of the real numbers their arguments denote. *)

(** ** Powers of two *)

Lemma bpow_pos e : (0 < bpow e)%R.
Proof. apply powerRZ_lt. lra. Qed.

Lemma bpow_add a b : bpow (a + b) = (bpow a * bpow b)%R.
Proof. apply powerRZ_add. lra. Qed.

Lemma bpow_0 : bpow 0 = 1%R.
Proof. reflexivity. Qed.

Lemma bpow_IZR n : 0 <= n -> bpow n = IZR (2 ^ n).
Proof.
  intros Hn. unfold bpow.
  rewrite <- (Z2Nat.id n Hn) at 1.
  rewrite <- pow_powerRZ.
  rewrite pow_IZR. now rewrite Z2Nat.id.
Qed.

Lemma bpow_opp e : bpow (- e) = (/ bpow e)%R.
Proof. apply powerRZ_neg'. Qed.

Lemma bpow_le a b : a <= b -> (bpow a <= bpow b)%R.
Proof.
  intros H. replace b with (a + (b - a)) by lia. rewrite bpow_add.
  rewrite (bpow_IZR (b - a)) by lia.
  assert (1 <= 2 ^ (b - a)) by (apply (Z.pow_le_mono_r 2 0); lia).
  apply IZR_le in H0. pose proof (bpow_pos a). nra.
Qed.

Lemma bpow_lt a b : a < b -> (bpow a < bpow b)%R.
Proof.
  intros H. replace b with (a + (b - a)) by lia. rewrite bpow_add.
  rewrite (bpow_IZR (b - a)) by lia.
  assert (2 ^ 1 <= 2 ^ (b - a)) by (apply Z.pow_le_mono_r; lia).
  apply IZR_le in H0. change (2 ^ 1) with 2 in H0. pose proof (bpow_pos a). nra.
Qed.

Lemma bpow_lt_inv a b : (bpow a < bpow b)%R -> a < b.
Proof.
  intros H. destruct (Z_lt_le_dec a b) as [|Hle]; [assumption|].
  apply bpow_le in Hle. lra.
Qed.

(** ** Number of binary digits *)

Lemma digits2_size p : digits2_pos p = Pos.size p.
Proof. induction p; cbn; congruence. Qed.

Lemma Zdigits2_bounds m :
  0 < m -> 2 ^ (Zdigits2 m - 1) <= m < 2 ^ Zdigits2 m.
Proof.
  destruct m as [|p|p]; try lia. intros _. cbn [Zdigits2].
  rewrite digits2_size.
  pose proof (Pos.size_gt p) as Hgt. pose proof (Pos.size_le p) as Hle.
  split.
  - assert (2 ^ Z.pos (Pos.size p) <= Z.pos p~0).
    { rewrite <- Pos2Z.inj_pow. now apply Pos2Z.pos_le_pos. }
    replace (Z.pos (Pos.size p)) with (Z.pos (Pos.size p) - 1 + 1) in H by lia.
    rewrite Z.pow_add_r in H by lia. lia.
  - rewrite <- Pos2Z.inj_pow. now apply Pos2Z.pos_lt_pos.
Qed.

Lemma Zdigits2_pos m : 0 < m -> 0 < Zdigits2 m.
Proof. destruct m; cbn; lia. Qed.

Lemma Zdigits2_unique m d :
  0 < m -> 2 ^ (d - 1) <= m < 2 ^ d -> Zdigits2 m = d.
Proof.
  intros Hm [H1 H2]. pose proof (Zdigits2_bounds m Hm) as [H3 H4].
  pose proof (Zdigits2_pos m Hm).
  assert (0 < d).
  { destruct (Z_lt_le_dec 0 d); [assumption|].
    assert (2 ^ d <= 2 ^ 0) by (apply Z.pow_le_mono_r; lia).
    change (2 ^ 0) with 1 in *. lia. }
  destruct (Z.lt_trichotomy (Zdigits2 m) d) as [Hlt|[Heq|Hgt]]; [|assumption|].
  - assert (2 ^ Zdigits2 m <= 2 ^ (d - 1)) by (apply Z.pow_le_mono_r; lia). lia.
  - assert (2 ^ d <= 2 ^ (Zdigits2 m - 1)) by (apply Z.pow_le_mono_r; lia). lia.
Qed.

(** ** Shifting right

    One step halves the real the record stands for; [n] steps divide the
    mantissa by [2 ^ n]. *)

Lemma shr_1_step (mrs : shr_record) (y : R) :
  0 <= shr_m mrs -> inb mrs y ->
  inb (shr_1 mrs) (y / 2) /\ shr_m (shr_1 mrs) = shr_m mrs / 2.
Proof.
  destruct mrs as [m r s]. unfold inb. cbn [shr_m]. intros Hm [[H1 H2] [H3 H4]].
  assert (Hex : forall m' : Z,
             loc_of_shr_record (Build_shr_record m' false (r || s)) = loc_Exact ->
             y = IZR m).
  { intros m' Hl. apply H3. destruct r, s; cbn in *; try discriminate; reflexivity. }
  assert (Hin : forall m' : Z,
             loc_of_shr_record (Build_shr_record m' false (r || s)) <> loc_Exact ->
             (IZR m < y)%R).
  { intros m' Hl. apply H4. destruct r, s; cbn in *; try discriminate; congruence. }
  assert (Hne : forall m' : Z,
             loc_of_shr_record (Build_shr_record m' true (r || s)) <> loc_Exact).
  { intros m'. cbn. destruct (r || s); discriminate. }
  destruct m as [|[p|p|]|p]; try lia; cbn [shr_1 shr_m].
  - split; [split; [lra|split]|reflexivity].
    + intros Hl. rewrite (Hex _ Hl). lra.
    + intros Hl. apply Hin in Hl. lra.
  - assert (E : IZR (Z.pos p~1) = (2 * IZR (Z.pos p) + 1)%R).
    { change (Z.pos p~1) with (2 * Z.pos p + 1). rewrite plus_IZR, mult_IZR. lra. }
    rewrite E in *. split; [split; [lra|split]|].
    + intros Hl. now apply Hne in Hl.
    + intros _. lra.
    + replace (Z.pos p~1) with (1 + Z.pos p * 2) by lia.
      rewrite Z.div_add by lia. reflexivity.
  - assert (E : IZR (Z.pos p~0) = (2 * IZR (Z.pos p))%R).
    { change (Z.pos p~0) with (2 * Z.pos p). rewrite mult_IZR. lra. }
    rewrite E in *. split; [split; [lra|split]|].
    + intros Hl. rewrite (Hex _ Hl). lra.
    + intros Hl. apply Hin in Hl. lra.
    + replace (Z.pos p~0) with (0 + Z.pos p * 2) by lia.
      rewrite Z.div_add by lia. reflexivity.
  - split; [split; [lra|split]|reflexivity].
    + intros Hl. now apply Hne in Hl.
    + intros _. lra.
Qed.

Lemma iter_pos_nat {A} (f : A -> A) (p : positive) :
  forall x, iter_pos f p x = Nat.iter (Pos.to_nat p) f x.
Proof.
  induction p as [p IH|p IH|]; intros x; cbn [iter_pos].
  - rewrite !IH. rewrite Pos2Nat.inj_xI.
    replace (S (2 * Pos.to_nat p))%nat with (Pos.to_nat p + Pos.to_nat p + 1)%nat by lia.
    rewrite !Nat.iter_add. reflexivity.
  - rewrite !IH. rewrite Pos2Nat.inj_xO.
    replace (2 * Pos.to_nat p)%nat with (Pos.to_nat p + Pos.to_nat p)%nat by lia.
    rewrite !Nat.iter_add. reflexivity.
  - reflexivity.
Qed.

Lemma iter_shr_1 (n : nat) :
  forall (mrs : shr_record) (y : R),
    0 <= shr_m mrs -> inb mrs y ->
    inb (Nat.iter n shr_1 mrs) (y * bpow (- Z.of_nat n)) /\
    shr_m (Nat.iter n shr_1 mrs) = shr_m mrs / 2 ^ Z.of_nat n.
Proof.
  induction n as [|n IH]; intros mrs y Hm Hy.
  - cbn. rewrite Z.div_1_r. split; [|reflexivity].
    replace (y * 1)%R with y by lra. exact Hy.
  - change (Nat.iter (S n) shr_1 mrs) with (shr_1 (Nat.iter n shr_1 mrs)).
    destruct (IH mrs y Hm Hy) as [H1 H2].
    assert (Hm' : 0 <= shr_m (Nat.iter n shr_1 mrs)).
    { rewrite H2. apply Z.div_pos; lia. }
    destruct (shr_1_step _ _ Hm' H1) as [H3 H4].
    split.
    + replace (y * bpow (- Z.of_nat (S n)))%R
        with (y * bpow (- Z.of_nat n) / 2)%R; [exact H3|].
      replace (- Z.of_nat (S n)) with (- Z.of_nat n + -1) by lia.
      rewrite bpow_add. change (bpow (-1)) with (/ (2 * 1))%R. field.
    + rewrite H4, H2. rewrite Z.div_div by lia.
      rewrite Nat2Z.inj_succ, Z.pow_succ_r by lia. f_equal. lia.
Qed.

Lemma shr_spec (mrs : shr_record) (e n : Z) (x : R) :
  0 <= shr_m mrs -> inb mrs (x * bpow (- e)) -> 0 <= n ->
  let '(mrs', e') := shr mrs e n in
  e' = e + n /\
  inb mrs' (x * bpow (- e')) /\
  shr_m mrs' = shr_m mrs / 2 ^ n.
Proof.
  intros Hm Hy Hn. destruct n as [|p|p]; try lia; cbn [shr].
  - rewrite Z.add_0_r, Z.div_1_r. auto.
  - rewrite iter_pos_nat.
    destruct (iter_shr_1 (Pos.to_nat p) mrs _ Hm Hy) as [H1 H2].
    rewrite positive_nat_Z in *.
    split; [reflexivity|]. split; [|exact H2].
    replace (- (e + Z.pos p)) with (- e + - Z.pos p) by lia.
    rewrite bpow_add, <- Rmult_assoc. exact H1.
Qed.

Section Rounding.
Local Close Scope string_scope.
Variables prec emax : Z.
Hypothesis Hprec : 0 < prec.
Hypothesis Hemax : prec < emax.

Local Abbreviation fexp := (fexp prec emax).
Local Abbreviation emin := (emin prec emax).

Lemma fexp_ge_emin z : emin <= fexp z.
Proof. unfold SpecFloat.fexp. lia. Qed.

Lemma shr_m_of_loc m l : shr_m (shr_record_of_loc m l) = m.
Proof. now destruct l as [|[| |]]. Qed.

Lemma loc_of_loc m l : loc_of_shr_record (shr_record_of_loc m l) = l.
Proof. now destruct l as [|[| |]]. Qed.

Lemma rne_bounds m l :
  m <= round_nearest_even m l <= m + 1 /\
  (l = loc_Exact -> round_nearest_even m l = m).
Proof.
  destruct l as [|[| |]]; cbn; try (split; [lia|]; try reflexivity; discriminate).
  destruct (Z.even m); split; try lia; discriminate.
Qed.

Lemma canonical_digits m e :
  canonical prec emax m e -> 0 < m -> Zdigits2 m <= prec.
Proof.
  intros (_ & _ & Hc & _) Hm. specialize (Hc Hm).
  unfold SpecFloat.fexp in Hc. lia.
Qed.

Lemma canonical_normal m e :
  canonical prec emax m e -> emin < e -> 0 < m /\ Zdigits2 m = prec.
Proof.
  intros (H0 & H1 & Hc & Hz) He.
  assert (Hm : 0 < m) by (destruct (Z.eq_dec m 0) as [E|]; [apply Hz in E|]; lia).
  split; [assumption|]. specialize (Hc Hm). unfold SpecFloat.fexp in Hc. lia.
Qed.

(** The first shift of [binary_round_aux] brings the mantissa to the
    canonical exponent and keeps track of what was cut off. *)
Lemma first_shift m e l x :
  0 <= m -> inb (shr_record_of_loc m l) (x * bpow (- e)) ->
  e <= fexp (Zdigits2 m + e) ->
  let '(mrs, e1) := shr_fexp prec emax m e l in
  inb mrs (x * bpow (- e1)) /\ canonical prec emax (shr_m mrs) e1.
Proof.
  intros Hm Hx Hal. unfold shr_fexp.
  set (n := fexp (Zdigits2 m + e) - e).
  assert (Hn : 0 <= n) by (unfold n; lia).
  pose proof (shr_spec (shr_record_of_loc m l) e n x) as S.
  rewrite shr_m_of_loc in S. specialize (S Hm Hx Hn).
  destruct (shr (shr_record_of_loc m l) e n) as [mrs e1].
  destruct S as (He1 & Hin & Hm1).
  split; [exact Hin|].
  assert (E1 : e1 = fexp (Zdigits2 m + e)) by (unfold n in He1; lia).
  assert (Hp : 0 < 2 ^ n) by (apply Z.pow_pos_nonneg; lia).
  unfold canonical. rewrite Hm1.
  split; [apply Z.div_pos; lia|].
  split; [rewrite E1; apply fexp_ge_emin|].
  destruct (Z.eq_dec m 0) as [->|Hm0].
  - rewrite Z.div_0_l by lia. split; [lia|]. intros _.
    cbn [Zdigits2] in *. unfold SpecFloat.fexp in *. lia.
  - assert (Hmp : 0 < m) by lia.
    pose proof (Zdigits2_bounds m Hmp) as [Hd1 Hd2].
    pose proof (Zdigits2_pos m Hmp) as Hd0.
    destruct (Z_lt_le_dec n (Zdigits2 m)) as [Hlt|Hge].
    + assert (Hb : 2 ^ (Zdigits2 m - n - 1) <= m / 2 ^ n < 2 ^ (Zdigits2 m - n)).
      { split.
        - apply Z.div_le_lower_bound; [lia|].
          rewrite <- Z.pow_add_r by lia.
          replace (n + (Zdigits2 m - n - 1)) with (Zdigits2 m - 1) by lia. lia.
        - apply Z.div_lt_upper_bound; [lia|].
          rewrite <- Z.pow_add_r by lia.
          replace (n + (Zdigits2 m - n)) with (Zdigits2 m) by lia. lia. }
      assert (Hq : 0 < m / 2 ^ n).
      { assert (0 < 2 ^ (Zdigits2 m - n - 1)) by (apply Z.pow_pos_nonneg; lia). lia. }
      split; [|lia]. intros _.
      rewrite (Zdigits2_unique (m / 2 ^ n) (Zdigits2 m - n) Hq Hb).
      replace (Zdigits2 m - n + e1) with (Zdigits2 m + e) by lia. lia.
    + assert (Hq : m / 2 ^ n = 0).
      { apply Z.div_small. split; [lia|].
        assert (2 ^ Zdigits2 m <= 2 ^ n) by (apply Z.pow_le_mono_r; lia). lia. }
      rewrite Hq. split; [lia|]. intros _.
      unfold SpecFloat.fexp in *. lia.
Qed.

Lemma F2R_lt_inv m1 m2 e : (F2R m1 e < F2R m2 e)%R -> m1 < m2.
Proof.
  unfold F2R. intros H. pose proof (bpow_pos e).
  apply lt_IZR. nra.
Qed.

Lemma F2R_le m1 m2 e : m1 <= m2 -> (F2R m1 e <= F2R m2 e)%R.
Proof.
  unfold F2R. intros H. pose proof (bpow_pos e). apply IZR_le in H. nra.
Qed.

Lemma F2R_shift m e k : 0 <= k -> F2R m (e + k) = F2R (m * 2 ^ k) e.
Proof.
  intros Hk. unfold F2R. rewrite bpow_add, mult_IZR, (bpow_IZR k) by lia. ring.
Qed.

Lemma F2R_digits_lt m e : 0 < m -> (F2R m e < bpow (Zdigits2 m + e))%R.
Proof.
  intros Hm. pose proof (Zdigits2_bounds m Hm) as [_ H].
  pose proof (Zdigits2_pos m Hm).
  unfold F2R. rewrite bpow_add, (bpow_IZR (Zdigits2 m)) by lia.
  apply IZR_lt in H. pose proof (bpow_pos e). nra.
Qed.

Lemma F2R_digits_ge m e : 0 < m -> (bpow (Zdigits2 m - 1 + e) <= F2R m e)%R.
Proof.
  intros Hm. pose proof (Zdigits2_bounds m Hm) as [H _].
  pose proof (Zdigits2_pos m Hm).
  unfold F2R. rewrite bpow_add, (bpow_IZR (Zdigits2 m - 1)) by lia.
  apply IZR_le in H. pose proof (bpow_pos e). nra.
Qed.

(** Of two numbers in canonical form, the one with the larger exponent is
    the larger. *)
Lemma canonical_exp_lt m1 e1 m2 e2 :
  canonical prec emax m1 e1 -> canonical prec emax m2 e2 -> 0 < m2 -> e2 < e1 ->
  (F2R m2 e2 < F2R m1 e1)%R.
Proof.
  intros C1 C2 Hm2 He.
  pose proof (canonical_digits m2 e2 C2 Hm2) as Hd2.
  destruct C2 as (_ & Hemin & _).
  destruct (canonical_normal m1 e1 C1 ltac:(lia)) as [Hm1 Hd1].
  pose proof (F2R_digits_lt m2 e2 Hm2) as U.
  pose proof (F2R_digits_ge m1 e1 Hm1) as L. rewrite Hd1 in L.
  assert (bpow (Zdigits2 m2 + e2) <= bpow (prec - 1 + e1))%R by (apply bpow_le; lia).
  lra.
Qed.

(** A canonical number strictly above (below) a point of the grid of
    exponent [e1] is at least the next (at most the previous) point. *)
Lemma grid_up m1 e1 mb eb :
  canonical prec emax m1 e1 -> canonical prec emax mb eb ->
  (F2R m1 e1 < F2R mb eb)%R -> (F2R (m1 + 1) e1 <= F2R mb eb)%R.
Proof.
  intros C1 Cb Hlt.
  assert (Hmb : 0 < mb).
  { destruct C1 as (H1 & _). destruct Cb as (Hb & _).
    destruct (Z.eq_dec mb 0) as [->|]; [|lia].
    unfold F2R in Hlt. apply IZR_le in H1. pose proof (bpow_pos e1). nra. }
  destruct (Z_le_gt_dec e1 eb) as [Hle|Hgt].
  - replace eb with (e1 + (eb - e1)) in * by lia.
    rewrite F2R_shift in * by lia.
    apply F2R_lt_inv in Hlt. apply F2R_le. lia.
  - pose proof (canonical_exp_lt m1 e1 mb eb C1 Cb Hmb ltac:(lia)). lra.
Qed.

Lemma grid_down m1 e1 mb eb :
  canonical prec emax m1 e1 -> canonical prec emax mb eb ->
  (F2R mb eb < F2R (m1 + 1) e1)%R -> (F2R mb eb <= F2R m1 e1)%R.
Proof.
  intros C1 Cb Hlt.
  destruct (Z.eq_dec mb 0) as [->|Hmb0].
  { destruct C1 as (H1 & _). unfold F2R. apply IZR_le in H1.
    pose proof (bpow_pos e1). nra. }
  assert (Hmb : 0 < mb) by (destruct Cb; lia).
  destruct (Z_le_gt_dec e1 eb) as [Hle|Hgt].
  - replace eb with (e1 + (eb - e1)) in * by lia.
    rewrite F2R_shift in * by lia.
    apply F2R_lt_inv in Hlt. apply F2R_le. lia.
  - pose proof (canonical_exp_lt m1 e1 mb eb C1 Cb Hmb ltac:(lia)). lra.
Qed.

(** The second shift only repairs a mantissa that rounding up has made one
    digit too long; the value does not change. *)
Lemma second_shift m1 e1 m2 :
  canonical prec emax m1 e1 -> m1 <= m2 <= m1 + 1 ->
  let '(mrs, e2) := shr_fexp prec emax m2 e1 loc_Exact in
  canonical prec emax (shr_m mrs) e2 /\ F2R (shr_m mrs) e2 = F2R m2 e1.
Proof.
  intros C1 Hm2. unfold shr_fexp.
  set (n := fexp (Zdigits2 m2 + e1) - e1).
  assert (Hcase : (n = 0 /\ canonical prec emax m2 e1) \/
                  (n = 1 /\ m2 = 2 ^ prec /\ emin <= e1)).
  { destruct C1 as (H0 & He & Hc & Hz).
    destruct (Z.eq_dec m2 0) as [E2|N2].
    - left. assert (m1 = 0) by lia. subst m1. specialize (Hz eq_refl).
      subst m2. unfold n, canonical. cbn [Zdigits2].
      unfold SpecFloat.fexp in *. repeat split; lia.
    - assert (P2 : 0 < m2) by lia.
      destruct (Z.eq_dec m1 0) as [E1|N1].
      + left. specialize (Hz E1). assert (m2 = 1) by lia. subst m2.
        unfold n, canonical. cbn [Zdigits2 digits2_pos].
        unfold SpecFloat.fexp in *. repeat split; lia.
      + assert (P1 : 0 < m1) by lia. specialize (Hc P1).
        pose proof (Zdigits2_bounds m1 P1) as [B1 B2].
        pose proof (Zdigits2_pos m1 P1) as D1.
        destruct (Z_lt_le_dec m2 (2 ^ Zdigits2 m1)) as [Hlt|Hge].
        * left. rewrite <- (Zdigits2_unique m2 (Zdigits2 m1)) in Hc by lia.
          unfold n, canonical. repeat split; try lia.
        * assert (E2 : m2 = 2 ^ Zdigits2 m1) by lia.
          assert (D2 : Zdigits2 m2 = Zdigits2 m1 + 1).
          { apply Zdigits2_unique; [lia|].
            replace (Zdigits2 m1 + 1 - 1) with (Zdigits2 m1) by lia.
            rewrite Z.pow_add_r by lia. lia. }
          unfold n, canonical. rewrite D2.
          unfold SpecFloat.fexp in *.
          destruct (Z.eq_dec (Zdigits2 m1) prec) as [Ep|Np].
          -- right. rewrite Ep in *. repeat split; lia.
          -- left. repeat split; try lia. }
  assert (Hn : 0 <= n) by (destruct Hcase as [[-> _]|[-> _]]; lia).
  assert (Hm2' : 0 <= m2) by (destruct C1; lia).
  pose proof (shr_spec (shr_record_of_loc m2 loc_Exact) e1 n (F2R m2 e1)) as S.
  cbn [shr_record_of_loc shr_m] in S.
  assert (Hin : inb (Build_shr_record m2 false false) (F2R m2 e1 * bpow (- e1))).
  { unfold inb, F2R. cbn [shr_m loc_of_shr_record].
    rewrite Rmult_assoc, <- bpow_add, Z.add_opp_diag_r, bpow_0, Rmult_1_r.
    repeat split; try lra. congruence. }
  specialize (S Hm2' Hin Hn). cbn [shr_record_of_loc].
  destruct (shr (Build_shr_record m2 false false) e1 n) as [mrs e2].
  destruct S as (He2 & _ & Hm).
  rewrite Hm, He2.
  destruct Hcase as [[-> C2]|(-> & -> & He)].
  - rewrite Z.div_1_r, Z.add_0_r. split; [exact C2 | reflexivity].
  - change (2 ^ 1) with 2.
    assert (E : 2 ^ prec / 2 = 2 ^ (prec - 1)).
    { replace prec with (prec - 1 + 1) at 1 by lia.
      rewrite Z.pow_add_r by lia. change (2 ^ 1) with 2.
      now rewrite Z.div_mul by lia. }
    rewrite E. split.
    + assert (P : 0 < 2 ^ (prec - 1)) by (apply Z.pow_pos_nonneg; lia).
      assert (D : Zdigits2 (2 ^ (prec - 1)) = prec).
      { apply Zdigits2_unique; [lia|]. split; [lia|].
        apply Z.pow_lt_mono_r; lia. }
      unfold canonical. rewrite D. unfold SpecFloat.fexp. repeat split; lia.
    + rewrite F2R_shift by lia. f_equal.
      replace prec with (prec - 1 + 1) at 2 by lia.
      now rewrite Z.pow_add_r by lia.
Qed.

(** Rounding returns a canonical number that no canonical upper bound of
    the exact value [x] lies below, and no canonical lower bound above. *)
Theorem binary_round_aux_spec s m e l x :
  0 <= m -> inb (shr_record_of_loc m l) (x * bpow (- e)) ->
  e <= fexp (Zdigits2 m + e) ->
  exists m' e',
    binary_round_aux prec emax s m e l = mk_float prec emax s m' e' /\
    canonical prec emax m' e' /\
    (forall mb eb, canonical prec emax mb eb ->
                   (x <= F2R mb eb)%R -> (F2R m' e' <= F2R mb eb)%R) /\
    (forall ma ea, canonical prec emax ma ea ->
                   (F2R ma ea <= x)%R -> (F2R ma ea <= F2R m' e')%R).
Proof.
  intros Hm Hx Hal. unfold binary_round_aux.
  pose proof (first_shift m e l x Hm Hx Hal) as S1.
  destruct (shr_fexp prec emax m e l) as [mrs1 e1].
  destruct S1 as [Hin C1].
  set (m1 := shr_m mrs1) in *.
  set (m2 := round_nearest_even m1 (loc_of_shr_record mrs1)).
  destruct (rne_bounds m1 (loc_of_shr_record mrs1)) as [Hb Hex]. fold m2 in Hb, Hex.
  pose proof (second_shift m1 e1 m2 C1 Hb) as S2.
  destruct (shr_fexp prec emax m2 e1 loc_Exact) as [mrs2 e2].
  destruct S2 as [C2 HF].
  exists (shr_m mrs2), e2. split; [reflexivity|]. split; [exact C2|].
  rewrite HF.
  assert (Ex : x = (x * bpow (- e1) * bpow e1)%R).
  { rewrite Rmult_assoc, <- bpow_add, Z.add_opp_diag_l, bpow_0. ring. }
  destruct Hin as [[Y1 Y2] [Y3 Y4]]. fold m1 in Y1, Y2, Y3, Y4.
  set (y := (x * bpow (- e1))%R) in *. clearbody y.
  pose proof (bpow_pos e1) as Hp.
  assert (L : (F2R m1 e1 <= x)%R) by (unfold F2R; nra).
  assert (U : (x < F2R (m1 + 1) e1)%R).
  { unfold F2R. rewrite plus_IZR. nra. }
  split.
  - intros mb eb Cb Hle.
    destruct (Z.eq_dec m2 m1) as [E|Hne]; [rewrite E; lra|].
    assert (E2 : m2 = m1 + 1) by lia. rewrite E2.
    apply grid_up; try assumption.
    assert (Hl : loc_of_shr_record mrs1 <> loc_Exact) by (intros E; apply Hex in E; lia).
    apply Y4 in Hl.
    assert (F2R m1 e1 < x)%R; [|lra].
    unfold F2R. rewrite Ex. apply Rmult_lt_compat_r; assumption.
  - intros ma ea Ca Hle.
    destruct (Z.eq_dec m2 m1) as [E|Hne].
    + rewrite E. apply grid_down; try assumption. lra.
    + assert (E2 : m2 = m1 + 1) by lia. rewrite E2. lra.
Qed.

Lemma bounded_canonical m e :
  bounded prec emax m e = true <->
  canonical prec emax (Z.pos m) e /\ e <= emax - prec.
Proof.
  unfold bounded, canonical_mantissa, canonical. cbn [Zdigits2].
  rewrite andb_true_iff, Z.eqb_eq, Z.leb_le. split.
  - intros [H1 H2]. split; [|assumption].
    repeat split; try lia.
    rewrite <- H1. apply fexp_ge_emin.
  - intros [(_ & _ & H & _) H2]. split; [apply H; lia | assumption].
Qed.

Lemma F2R_opp m e : F2R (- m) e = (- F2R m e)%R.
Proof. unfold F2R. rewrite opp_IZR. lra. Qed.

Lemma B2R_opp x : B2R (SFopp x) = (- B2R x)%R.
Proof.
  destruct x as [s|s| |s m e]; cbn [SFopp B2R]; try lra.
  destruct s; cbn [negb cond_Zopp]; rewrite F2R_opp; lra.
Qed.

Lemma valid_opp x :
  valid_binary prec emax (SFopp x) = valid_binary prec emax x.
Proof. now destruct x. Qed.

Lemma is_finite_opp x : is_finite (SFopp x) = is_finite x.
Proof. now destruct x. Qed.

Lemma F2R_pos m e : 0 < m -> (0 < F2R m e)%R.
Proof.
  intros H. unfold F2R. apply IZR_lt in H. pose proof (bpow_pos e). nra.
Qed.

Lemma F2R_0 e : F2R 0 e = 0%R.
Proof. unfold F2R. lra. Qed.

Lemma F2R_compare m1 m2 e :
  match Z.compare m1 m2 with
  | Lt => (F2R m1 e < F2R m2 e)%R
  | Eq => F2R m1 e = F2R m2 e
  | Gt => (F2R m2 e < F2R m1 e)%R
  end.
Proof.
  pose proof (bpow_pos e). unfold F2R.
  destruct (Z.compare_spec m1 m2) as [->|L|L]; [reflexivity| |];
    apply IZR_lt in L; nra.
Qed.

(** On valid finite numbers the comparison is that of the values. *)
Lemma SFcompare_finite a b :
  valid_binary prec emax a = true -> valid_binary prec emax b = true ->
  is_finite a = true -> is_finite b = true ->
  exists c, SFcompare a b = Some c /\
            match c with
            | Lt => (B2R a < B2R b)%R
            | Eq => B2R a = B2R b
            | Gt => (B2R b < B2R a)%R
            end.
Proof.
  destruct a as [sa|sa| |sa ma ea], b as [sb|sb| |sb mb eb]; try discriminate;
    cbn [valid_binary is_finite SFcompare B2R]; intros Va Vb _ _.
  - exists Eq. now split.
  - pose proof (F2R_pos (Z.pos mb) eb eq_refl).
    destruct sb; eexists; (split; [reflexivity|]); cbn [cond_Zopp];
      rewrite ?F2R_opp; lra.
  - pose proof (F2R_pos (Z.pos ma) ea eq_refl).
    destruct sa; eexists; (split; [reflexivity|]); cbn [cond_Zopp];
      rewrite ?F2R_opp; lra.
  - apply bounded_canonical in Va as [Ca _], Vb as [Cb _].
    pose proof (F2R_pos (Z.pos ma) ea eq_refl).
    pose proof (F2R_pos (Z.pos mb) eb eq_refl).
    destruct sa, sb; eexists; (split; [reflexivity|]); cbn [cond_Zopp];
      rewrite ?F2R_opp; try lra.
    + destruct (Z.compare_spec ea eb) as [->|L|L].
      * rewrite Pos.compare_cont_spec. cbn [Pos.switch_Eq].
        change (Pos.compare ma mb) with (Z.compare (Z.pos ma) (Z.pos mb)).
        pose proof (F2R_compare (Z.pos ma) (Z.pos mb) eb) as HC.
        destruct (Z.compare (Z.pos ma) (Z.pos mb)); cbn [CompOpp Pos.switch_Eq]; lra.
      * pose proof (canonical_exp_lt _ _ _ _ Cb Ca eq_refl L). lra.
      * pose proof (canonical_exp_lt _ _ _ _ Ca Cb eq_refl L). lra.
    + destruct (Z.compare_spec ea eb) as [->|L|L].
      * rewrite Pos.compare_cont_spec. cbn [Pos.switch_Eq].
        change (Pos.compare ma mb) with (Z.compare (Z.pos ma) (Z.pos mb)).
        pose proof (F2R_compare (Z.pos ma) (Z.pos mb) eb) as HC.
        destruct (Z.compare (Z.pos ma) (Z.pos mb)); cbn [CompOpp Pos.switch_Eq]; lra.
      * pose proof (canonical_exp_lt _ _ _ _ Cb Ca eq_refl L). lra.
      * pose proof (canonical_exp_lt _ _ _ _ Ca Cb eq_refl L). lra.
Qed.

(** ** From magnitudes to signed bounds *)

Lemma mk_float_mag s m' e' mu eu :
  canonical prec emax m' e' -> bounded prec emax mu eu = true ->
  (F2R m' e' <= F2R (Z.pos mu) eu)%R ->
  valid_binary prec emax (mk_float prec emax s m' e') = true /\
  is_finite (mk_float prec emax s m' e') = true /\
  B2R (mk_float prec emax s m' e') = F2R (cond_Zopp s m') e'.
Proof.
  intros C Bu U. apply bounded_canonical in Bu as [Cu Hu].
  destruct m' as [|p|p].
  - cbn [mk_float valid_binary is_finite B2R].
    destruct s; cbn [cond_Zopp Z.opp]; rewrite F2R_0; auto.
  - assert (He : e' <= emax - prec).
    { destruct (Z_le_gt_dec e' (emax - prec)) as [|Hgt]; [assumption|].
      pose proof (canonical_exp_lt _ _ _ _ C Cu eq_refl ltac:(lia)). lra. }
    unfold mk_float. apply Z.leb_le in He. rewrite He.
    cbn [valid_binary is_finite B2R]. repeat split.
    apply bounded_canonical. split; [assumption | now apply Z.leb_le].
  - destruct C as (H & _). lia.
Qed.

Lemma F2R_nonneg m e : 0 <= m -> (0 <= F2R m e)%R.
Proof.
  intros H. unfold F2R. apply IZR_le in H. pose proof (bpow_pos e). nra.
Qed.

Lemma mk_float_bounds (s : bool) m' e' x A B :
  canonical prec emax m' e' -> (0 < x)%R ->
  (forall mb eb, canonical prec emax mb eb ->
                 (x <= F2R mb eb)%R -> (F2R m' e' <= F2R mb eb)%R) ->
  (forall ma ea, canonical prec emax ma ea ->
                 (F2R ma ea <= x)%R -> (F2R ma ea <= F2R m' e')%R) ->
  valid_binary prec emax A = true -> valid_binary prec emax B = true ->
  is_finite A = true -> is_finite B = true ->
  (B2R A <= (if s then - x else x) <= B2R B)%R ->
  let r := mk_float prec emax s m' e' in
  valid_binary prec emax r = true /\ is_finite r = true /\
  (B2R A <= B2R r <= B2R B)%R.
Proof.
  intros C Hx TU TL VA VB FA FB [HA HB] r.
  pose proof (F2R_nonneg m' e' ltac:(destruct C; lia)) as Hnn.
  destruct s.
  - (* negative: the magnitude is bounded by that of A *)
    destruct A as [sa|sa| |[|] ma ea]; try discriminate; cbn [B2R cond_Zopp] in HA;
      try (pose proof (F2R_pos (Z.pos ma) ea eq_refl)); try lra.
    change (Z.neg ma) with (- Z.pos ma) in HA. rewrite F2R_opp in HA.
    pose proof VA as VA'. cbn [valid_binary] in VA'.
    destruct (bounded_canonical ma ea) as [BC _]. destruct (BC VA') as [Ca _].
    assert (U : (F2R m' e' <= F2R (Z.pos ma) ea)%R) by (apply TU; [assumption|lra]).
    destruct (mk_float_mag true m' e' ma ea C VA' U) as (V & F & E).
    subst r. rewrite E. split; [exact V|]. split; [exact F|].
    cbn [B2R cond_Zopp]. change (Z.neg ma) with (- Z.pos ma).
    rewrite !F2R_opp. split; [lra|].
    destruct B as [sb|sb| |[|] mb eb]; try discriminate; cbn [B2R cond_Zopp] in *;
      try (pose proof (F2R_pos (Z.pos mb) eb eq_refl)); try lra.
    change (Z.neg mb) with (- Z.pos mb) in *. rewrite F2R_opp in *.
    cbn [valid_binary] in VB. destruct (bounded_canonical mb eb) as [BC' _].
    destruct (BC' VB) as [Cb _].
    assert (F2R (Z.pos mb) eb <= F2R m' e')%R by (apply TL; [assumption|lra]). lra.
  - destruct B as [sb|sb| |[|] mb eb]; try discriminate; cbn [B2R cond_Zopp] in HB;
      try (pose proof (F2R_pos (Z.pos mb) eb eq_refl));
      try (change (Z.neg mb) with (- Z.pos mb) in HB; rewrite F2R_opp in HB);
      try lra.
    pose proof VB as VB'. cbn [valid_binary] in VB'.
    destruct (bounded_canonical mb eb) as [BC _]. destruct (BC VB') as [Cb _].
    assert (U : (F2R m' e' <= F2R (Z.pos mb) eb)%R) by (apply TU; [assumption|lra]).
    destruct (mk_float_mag false m' e' mb eb C VB' U) as (V & F & E).
    subst r. rewrite E. split; [exact V|]. split; [exact F|].
    cbn [B2R cond_Zopp]. split; [|lra].
    destruct A as [sa|sa| |[|] ma ea]; try discriminate; cbn [B2R cond_Zopp] in *;
      try (pose proof (F2R_pos (Z.pos ma) ea eq_refl));
      try (change (Z.neg ma) with (- Z.pos ma) in *; rewrite F2R_opp in * );
      try lra.
    cbn [valid_binary] in VA. destruct (bounded_canonical ma ea) as [BC' _].
    destruct (BC' VA) as [Ca _].
    apply TL; [assumption|lra].
Qed.

(** ** Addition and subtraction *)

Lemma pos_iter_xO m d : Z.pos (Pos.iter xO m d) = Z.pos m * 2 ^ Z.pos d.
Proof.
  induction d as [|d IH] using Pos.peano_ind.
  - cbn. lia.
  - rewrite Pos.iter_succ, Pos2Z.inj_succ, Z.pow_succ_r by lia.
    rewrite Pos2Z.inj_xO, IH. ring.
Qed.

Lemma shl_align_spec m e e' :
  let '(m', e'') := shl_align m e e' in
  e'' = Z.min e e' /\ Z.pos m' = Z.pos m * 2 ^ (e - e'').
Proof.
  unfold shl_align. destruct (e' - e) as [|d|d] eqn:E.
  - rewrite Z.min_l by lia. rewrite Z.sub_diag. split; lia.
  - rewrite Z.min_l by lia. rewrite Z.sub_diag. split; lia.
  - rewrite Z.min_r by lia. split; [reflexivity|].
    rewrite pos_iter_xO. f_equal. f_equal. lia.
Qed.

Lemma Zdigits2_shift m k :
  0 < m -> 0 <= k -> Zdigits2 (m * 2 ^ k) = Zdigits2 m + k.
Proof.
  intros Hm Hk. pose proof (Zdigits2_bounds m Hm) as [H1 H2].
  pose proof (Zdigits2_pos m Hm).
  assert (0 < 2 ^ k) by (apply Z.pow_pos_nonneg; lia).
  apply Zdigits2_unique; [nia|].
  replace (Zdigits2 m + k - 1) with (Zdigits2 m - 1 + k) by lia.
  rewrite !Z.pow_add_r by lia. nia.
Qed.

Lemma inb_exact m e :
  inb (shr_record_of_loc m loc_Exact) (F2R m e * bpow (- e)).
Proof.
  unfold inb, F2R. cbn [shr_record_of_loc shr_m loc_of_shr_record].
  rewrite Rmult_assoc, <- bpow_add, Z.add_opp_diag_r, bpow_0, Rmult_1_r.
  repeat split; try lra. congruence.
Qed.

Lemma binary_round_T s m e :
  exists m' e',
    binary_round prec emax s m e = mk_float prec emax s m' e' /\
    canonical prec emax m' e' /\
    (forall mb eb, canonical prec emax mb eb ->
                   (F2R (Z.pos m) e <= F2R mb eb)%R -> (F2R m' e' <= F2R mb eb)%R) /\
    (forall ma ea, canonical prec emax ma ea ->
                   (F2R ma ea <= F2R (Z.pos m) e)%R -> (F2R ma ea <= F2R m' e')%R).
Proof.
  unfold binary_round.
  pose proof (shl_align_spec m e (fexp (Z.pos (digits2_pos m) + e))) as S.
  destruct (shl_align m e (fexp (Z.pos (digits2_pos m) + e))) as [mz ez].
  destruct S as [Ez Em].
  assert (Hk : 0 <= e - ez) by lia.
  assert (EF : F2R (Z.pos m) e = F2R (Z.pos mz) ez).
  { rewrite Em. rewrite <- F2R_shift by lia. f_equal. lia. }
  rewrite EF. apply binary_round_aux_spec; [lia|apply inb_exact|].
  rewrite Em, Zdigits2_shift by lia. cbn [Zdigits2].
  replace (Z.pos (digits2_pos m) + (e - ez) + ez)
    with (Z.pos (digits2_pos m) + e) by lia. lia.
Qed.

Lemma binary_normalize_bounds M e szero A B :
  valid_binary prec emax A = true -> valid_binary prec emax B = true ->
  is_finite A = true -> is_finite B = true ->
  (B2R A <= F2R M e <= B2R B)%R ->
  let r := binary_normalize prec emax M e szero in
  valid_binary prec emax r = true /\ is_finite r = true /\
  (B2R A <= B2R r <= B2R B)%R.
Proof.
  intros VA VB FA FB HAB. destruct M as [|m|m]; cbn [binary_normalize].
  - cbn. rewrite F2R_0 in HAB. auto.
  - destruct (binary_round_T false m e) as (m' & e' & -> & C & TU & TL).
    apply (mk_float_bounds false m' e' (F2R (Z.pos m) e)); auto.
    now apply F2R_pos.
  - destruct (binary_round_T true m e) as (m' & e' & -> & C & TU & TL).
    apply (mk_float_bounds true m' e' (F2R (Z.pos m) e)); auto.
    + now apply F2R_pos.
    + change (Z.neg m) with (- Z.pos m) in HAB. now rewrite F2R_opp in HAB.
Qed.

Lemma canonical_1_emin : canonical prec emax 1 emin.
Proof.
  unfold canonical. cbn [Zdigits2 digits2_pos]. unfold SpecFloat.fexp.
  repeat split; lia.
Qed.

Lemma binary_round_nonzero s m e :
  emin <= e -> is_zero (binary_round prec emax s m e) = false.
Proof.
  intros He. destruct (binary_round_T s m e) as (m' & e' & -> & C & _ & TL).
  specialize (TL 1 emin canonical_1_emin).
  assert (F2R 1 emin <= F2R (Z.pos m) e)%R.
  { unfold F2R. pose proof (bpow_le _ _ He). pose proof (bpow_pos emin).
    assert (1 <= IZR (Z.pos m))%R by (apply IZR_le; lia). nra. }
  specialize (TL H). pose proof (F2R_pos 1 emin eq_refl).
  destruct m' as [|p|p]; cbn.
  - rewrite F2R_0 in TL. lra.
  - now destruct (e' <=? emax - prec).
  - reflexivity.
Qed.

Lemma F2R_cond_Zopp s m e :
  F2R (cond_Zopp s m) e = if s then (- F2R m e)%R else F2R m e.
Proof. destruct s; cbn [cond_Zopp]; [apply F2R_opp | reflexivity]. Qed.

Lemma F2R_plus m1 m2 e : F2R (m1 + m2) e = (F2R m1 e + F2R m2 e)%R.
Proof. unfold F2R. rewrite plus_IZR. ring. Qed.

Lemma F2R_minus m1 m2 e : F2R (m1 - m2) e = (F2R m1 e - F2R m2 e)%R.
Proof. unfold F2R. rewrite minus_IZR. ring. Qed.

Lemma shl_align_fst m e ez :
  ez <= e -> F2R (Z.pos (fst (shl_align m e ez))) ez = F2R (Z.pos m) e.
Proof.
  intros H. pose proof (shl_align_spec m e ez) as S.
  destruct (shl_align m e ez) as [m' e']. destruct S as [E1 E2]. cbn [fst].
  rewrite Z.min_r in E1 by lia. subst e'. rewrite E2.
  rewrite <- F2R_shift by lia. f_equal. lia.
Qed.

Lemma valid_exp_ge s m e :
  valid_binary prec emax (S754_finite s m e) = true -> emin <= e.
Proof.
  cbn. intros H. apply bounded_canonical in H as [(_ & H & _) _]. exact H.
Qed.

Lemma SFadd_bounds a b A B :
  valid_binary prec emax a = true -> valid_binary prec emax b = true ->
  is_finite a = true -> is_finite b = true ->
  valid_binary prec emax A = true -> valid_binary prec emax B = true ->
  is_finite A = true -> is_finite B = true ->
  (B2R A <= B2R a + B2R b <= B2R B)%R ->
  let r := SFadd prec emax a b in
  valid_binary prec emax r = true /\ is_finite r = true /\
  (B2R A <= B2R r <= B2R B)%R.
Proof.
  intros Va Vb Fa Fb VA VB FA FB HAB.
  destruct a as [sa|sa| |sa ma ea], b as [sb|sb| |sb mb eb]; try discriminate;
    cbn [SFadd].
  - cbn [B2R] in HAB. destruct sa, sb; cbn; repeat split; lra.
  - cbn [B2R] in *. repeat split; try assumption; lra.
  - cbn [B2R] in *. repeat split; try assumption; lra.
  - apply binary_normalize_bounds; try assumption.
    rewrite F2R_plus, !F2R_cond_Zopp, !shl_align_fst by lia.
    cbn [B2R] in HAB. rewrite !F2R_cond_Zopp in HAB. exact HAB.
Qed.

Lemma SFsub_bounds a b A B :
  valid_binary prec emax a = true -> valid_binary prec emax b = true ->
  is_finite a = true -> is_finite b = true ->
  valid_binary prec emax A = true -> valid_binary prec emax B = true ->
  is_finite A = true -> is_finite B = true ->
  (B2R A <= B2R a - B2R b <= B2R B)%R ->
  let r := SFsub prec emax a b in
  valid_binary prec emax r = true /\ is_finite r = true /\
  (B2R A <= B2R r <= B2R B)%R.
Proof.
  intros Va Vb Fa Fb VA VB FA FB HAB.
  destruct a as [sa|sa| |sa ma ea], b as [sb|sb| |sb mb eb]; try discriminate;
    cbn [SFsub].
  - cbn [B2R] in HAB. destruct sa, sb; cbn; repeat split; lra.
  - cbn [B2R valid_binary is_finite] in *. rewrite !F2R_cond_Zopp in *.
    repeat split; try assumption; destruct sb; cbn [negb]; lra.
  - cbn [B2R] in *. repeat split; try assumption; lra.
  - apply binary_normalize_bounds; try assumption.
    rewrite F2R_minus, !F2R_cond_Zopp, !shl_align_fst by lia.
    cbn [B2R] in HAB. rewrite !F2R_cond_Zopp in HAB. exact HAB.
Qed.

Lemma SFadd_not_negzero a b :
  valid_binary prec emax a = true -> valid_binary prec emax b = true ->
  is_finite a = true -> is_finite b = true -> is_zero b = false ->
  SFadd prec emax a b <> S754_zero true.
Proof.
  intros Va Vb Fa Fb Zb.
  destruct a as [sa|sa| |sa ma ea], b as [sb|sb| |sb mb eb]; try discriminate;
    cbn [SFadd].
  pose proof (valid_exp_ge _ _ _ Va). pose proof (valid_exp_ge _ _ _ Vb).
  unfold binary_normalize.
  destruct (cond_Zopp sa _ + cond_Zopp sb _) as [|m|m]; [discriminate| |].
  - pose proof (binary_round_nonzero false m (Z.min ea eb) ltac:(lia)) as N.
    intros E. rewrite E in N. discriminate.
  - pose proof (binary_round_nonzero true m (Z.min ea eb) ltac:(lia)) as N.
    intros E. rewrite E in N. discriminate.
Qed.

(** ** Multiplication *)

Lemma Zdigits2_ge n k : 0 <= k -> 2 ^ k <= n -> k + 1 <= Zdigits2 n.
Proof.
  intros Hk Hn.
  assert (Hp : 0 < 2 ^ k) by (apply Z.pow_pos_nonneg; lia).
  pose proof (Zdigits2_bounds n ltac:(lia)) as [_ H].
  pose proof (Zdigits2_pos n ltac:(lia)).
  destruct (Z_lt_le_dec k (Zdigits2 n)); [lia|].
  assert (2 ^ Zdigits2 n <= 2 ^ k) by (apply Z.pow_le_mono_r; lia). lia.
Qed.

Lemma emin_nonpos : emin <= 0.
Proof. unfold SpecFloat.emin. lia. Qed.

Lemma mul_aligned mx ex my ey :
  bounded prec emax mx ex = true -> bounded prec emax my ey = true ->
  ex + ey <= fexp (Zdigits2 (Z.pos (mx * my)) + (ex + ey)).
Proof.
  intros Bx By.
  apply bounded_canonical in Bx as [(_ & Hx1 & Hx2 & _) _].
  apply bounded_canonical in By as [(_ & Hy1 & Hy2 & _) _].
  specialize (Hx2 eq_refl). specialize (Hy2 eq_refl).
  pose proof (Zdigits2_bounds (Z.pos mx) eq_refl) as [Lx _].
  pose proof (Zdigits2_bounds (Z.pos my) eq_refl) as [Ly _].
  pose proof (Zdigits2_pos (Z.pos mx) eq_refl) as Px.
  pose proof (Zdigits2_pos (Z.pos my) eq_refl) as Py.
  assert (D : Zdigits2 (Z.pos mx) + Zdigits2 (Z.pos my) - 1
              <= Zdigits2 (Z.pos (mx * my))).
  { replace (Zdigits2 (Z.pos mx) + Zdigits2 (Z.pos my) - 1)
      with (Zdigits2 (Z.pos mx) - 1 + (Zdigits2 (Z.pos my) - 1) + 1) by lia.
    apply Zdigits2_ge; [lia|].
    rewrite Z.pow_add_r, Pos2Z.inj_mul by lia.
    apply Z.mul_le_mono_nonneg; try assumption; apply Z.pow_nonneg; lia. }
  pose proof emin_nonpos.
  unfold SpecFloat.fexp in *. lia.
Qed.

Lemma SFmul_bounds a b A B :
  valid_binary prec emax a = true -> valid_binary prec emax b = true ->
  is_finite a = true -> is_finite b = true ->
  valid_binary prec emax A = true -> valid_binary prec emax B = true ->
  is_finite A = true -> is_finite B = true ->
  (B2R A <= B2R a * B2R b <= B2R B)%R ->
  let r := SFmul prec emax a b in
  valid_binary prec emax r = true /\ is_finite r = true /\
  (B2R A <= B2R r <= B2R B)%R.
Proof.
  intros Va Vb Fa Fb VA VB FA FB HAB.
  destruct a as [sa|sa| |sa ma ea], b as [sb|sb| |sb mb eb]; try discriminate;
    cbn [SFmul]; cbn [B2R] in HAB;
    try (rewrite ?Rmult_0_l, ?Rmult_0_r in HAB; cbn; auto).
  destruct (binary_round_aux_spec (xorb sa sb) (Z.pos (ma * mb)) (ea + eb)
              loc_Exact (F2R (Z.pos (ma * mb)) (ea + eb)))
    as (m' & e' & -> & C & TU & TL);
    [lia | apply inb_exact | now apply mul_aligned |].
  apply (mk_float_bounds (xorb sa sb) m' e' (F2R (Z.pos (ma * mb)) (ea + eb)));
    auto.
  - now apply F2R_pos.
  - assert (E : F2R (Z.pos (ma * mb)) (ea + eb)
                = (F2R (Z.pos ma) ea * F2R (Z.pos mb) eb)%R).
    { unfold F2R. rewrite Pos2Z.inj_mul, mult_IZR, bpow_add. ring. }
    rewrite E. rewrite !F2R_cond_Zopp in HAB.
    destruct sa, sb; cbn [xorb]; lra.
Qed.

(** ** Division *)

Lemma new_location_exact nb k :
  new_location nb k = loc_Exact <-> k = 0.
Proof.
  unfold new_location, new_location_even, new_location_odd.
  destruct (Z.even nb), (Z.eqb_spec k 0); split; try tauto; try discriminate.
Qed.

Lemma div_core_spec mx ex my ey :
  let '(q, e', l) := SFdiv_core_binary prec emax (Z.pos mx) ex (Z.pos my) ey in
  0 <= q /\
  inb (shr_record_of_loc q l)
      (F2R (Z.pos mx) ex / F2R (Z.pos my) ey * bpow (- e')) /\
  e' <= fexp (Zdigits2 q + e').
Proof.
  unfold SFdiv_core_binary.
  set (d1 := Zdigits2 (Z.pos mx)). set (d2 := Zdigits2 (Z.pos my)).
  set (e' := Z.min (fexp (d1 + ex - (d2 + ey))) (ex - ey)).
  set (s := ex - ey - e').
  assert (Hs : 0 <= s) by (unfold s, e'; lia).
  set (m' := match s with Z.pos _ => Z.shiftl (Z.pos mx) s | 0 => Z.pos mx
                     | Z.neg _ => 0 end).
  assert (Em : m' = Z.pos mx * 2 ^ s).
  { unfold m'. destruct s as [|p|p]; try lia.
    now rewrite Z.shiftl_mul_pow2 by lia. }
  assert (Hp : 0 < 2 ^ s) by (apply Z.pow_pos_nonneg; lia).
  pose proof (Z_div_mod m' (Z.pos my) eq_refl) as DM.
  destruct (Z.div_eucl m' (Z.pos my)) as [q r]. destruct DM as [DM Hr].
  assert (Hq : 0 <= q) by nia.
  split; [exact Hq|].
  assert (Y : (F2R (Z.pos mx) ex / F2R (Z.pos my) ey * bpow (- e')
               = IZR q + IZR r / IZR (Z.pos my))%R).
  { assert (Hy : (0 < IZR (Z.pos my))%R) by (apply IZR_lt; lia).
    assert (E1 : (IZR (Z.pos mx) * bpow s = IZR (Z.pos my) * IZR q + IZR r)%R).
    { rewrite (bpow_IZR s Hs), <- mult_IZR, <- Em, DM, plus_IZR, mult_IZR.
      reflexivity. }
    assert (E2 : bpow ex = (bpow s * bpow ey * bpow e')%R).
    { rewrite <- !bpow_add. f_equal. unfold s. lia. }
    unfold F2R. rewrite E2, bpow_opp.
    pose proof (bpow_pos ey). pose proof (bpow_pos e'). pose proof (bpow_pos s).
    replace (IZR (Z.pos mx) * (bpow s * bpow ey * bpow e') /
             (IZR (Z.pos my) * bpow ey) * / bpow e')%R
      with ((IZR (Z.pos mx) * bpow s) / IZR (Z.pos my))%R by (field; lra).
    rewrite E1. field. lra. }
  split.
  - rewrite Y. unfold inb. rewrite shr_m_of_loc, loc_of_loc.
    assert (Hy : (0 < IZR (Z.pos my))%R) by (apply IZR_lt; lia).
    assert (R0 : (0 <= IZR r / IZR (Z.pos my) < 1)%R).
    { destruct Hr as [Hr1 Hr2]. apply IZR_le in Hr1. apply IZR_lt in Hr2.
      split.
      - apply Rmult_le_pos; [lra|]. left. now apply Rinv_0_lt_compat.
      - apply (Rmult_lt_reg_r (IZR (Z.pos my))); [lra|].
        unfold Rdiv. rewrite Rmult_assoc, Rinv_l by lra. lra. }
    split; [lra|]. split.
    + intros Hl. apply new_location_exact in Hl. subst r.
      unfold Rdiv. lra.
    + intros Hl.
      assert (r <> 0) by (intros E; apply Hl; now apply new_location_exact).
      assert (0 < r) by lia.
      assert (0 < IZR r / IZR (Z.pos my))%R.
      { apply Rmult_lt_0_compat; [now apply IZR_lt | now apply Rinv_0_lt_compat]. }
      lra.
  - assert (D : d1 + ex - (d2 + ey) <= Zdigits2 q + e').
    { pose proof (Zdigits2_bounds (Z.pos mx) eq_refl) as [L1 _].
      pose proof (Zdigits2_bounds (Z.pos my) eq_refl) as [_ U2].
      pose proof (Zdigits2_pos (Z.pos mx) eq_refl).
      pose proof (Zdigits2_pos (Z.pos my) eq_refl).
      fold d1 in L1. fold d2 in U2. fold d1 in H. fold d2 in H0.
      destruct (Z_le_gt_dec 0 (d1 - 1 + s - d2)) as [Hk|Hk].
      - assert (2 ^ (d1 - 1 + s - d2) <= q).
        { assert (Eq : q = m' / Z.pos my).
          { apply (Z.div_unique m' (Z.pos my) q r); [lia|lia]. }
          rewrite Eq. apply Z.div_le_lower_bound; [lia|].
          rewrite Em.
          assert (2 ^ (d1 - 1 + s) = 2 ^ (d1 - 1 + s - d2) * 2 ^ d2).
          { rewrite <- Z.pow_add_r by lia. f_equal. lia. }
          assert (2 ^ (d1 - 1 + s) = 2 ^ (d1 - 1) * 2 ^ s).
          { rewrite <- Z.pow_add_r by lia. reflexivity. }
          assert (0 < 2 ^ (d1 - 1 + s - d2)) by (apply Z.pow_pos_nonneg; lia).
          nia. }
        pose proof (Zdigits2_ge q (d1 - 1 + s - d2) Hk H1). unfold s in *. lia.
      - assert (0 <= Zdigits2 q) by (destruct q; cbn; lia).
        unfold s in *. lia. }
    assert (e' <= fexp (d1 + ex - (d2 + ey))) by (unfold e'; lia).
    unfold SpecFloat.fexp in *. lia.
Qed.

Lemma SFdiv_bounds a b A B :
  valid_binary prec emax a = true -> valid_binary prec emax b = true ->
  is_finite a = true -> is_finite b = true -> is_zero b = false ->
  valid_binary prec emax A = true -> valid_binary prec emax B = true ->
  is_finite A = true -> is_finite B = true ->
  (B2R A <= B2R a / B2R b <= B2R B)%R ->
  let r := SFdiv prec emax a b in
  valid_binary prec emax r = true /\ is_finite r = true /\
  (B2R A <= B2R r <= B2R B)%R.
Proof.
  intros Va Vb Fa Fb Zb VA VB FA FB HAB.
  destruct a as [sa|sa| |sa ma ea], b as [sb|sb| |sb mb eb]; try discriminate;
    cbn [SFdiv]; cbn [B2R] in HAB.
  - unfold Rdiv in HAB. rewrite Rmult_0_l in HAB. cbn. auto.
  - pose proof (div_core_spec ma ea mb eb) as S.
    destruct (SFdiv_core_binary prec emax (Z.pos ma) ea (Z.pos mb) eb)
      as [[q e'] l].
    destruct S as (Hq & Hin & Hal).
    destruct (binary_round_aux_spec (xorb sa sb) q e' l _ Hq Hin Hal)
      as (m' & e'' & -> & C & TU & TL).
    pose proof (F2R_pos (Z.pos ma) ea eq_refl) as Pa.
    pose proof (F2R_pos (Z.pos mb) eb eq_refl) as Pb.
    apply (mk_float_bounds (xorb sa sb) m' e''
             (F2R (Z.pos ma) ea / F2R (Z.pos mb) eb)); auto.
    + apply Rmult_lt_0_compat; [assumption | now apply Rinv_0_lt_compat].
    + rewrite !F2R_cond_Zopp in HAB.
      destruct sa, sb; cbn [xorb];
        replace (- F2R (Z.pos ma) ea / - F2R (Z.pos mb) eb)%R
          with (F2R (Z.pos ma) ea / F2R (Z.pos mb) eb)%R in HAB
          by (field; lra);
        replace (- F2R (Z.pos ma) ea / F2R (Z.pos mb) eb)%R
          with (- (F2R (Z.pos ma) ea / F2R (Z.pos mb) eb))%R in HAB
          by (field; lra);
        replace (F2R (Z.pos ma) ea / - F2R (Z.pos mb) eb)%R
          with (- (F2R (Z.pos ma) ea / F2R (Z.pos mb) eb))%R in HAB
          by (field; lra);
        exact HAB.
Qed.


(** ** Results that are numbers

    The operations return a valid number, never NaN, when their second
    argument is a finite number other than zero and the first is not NaN. *)

Lemma mk_float_not_nan s m e :
  0 <= m -> mk_float prec emax s m e <> S754_nan.
Proof.
  destruct m as [|p|p]; cbn; try lia; try discriminate.
  intros _. now destruct (e <=? emax - prec).
Qed.

Lemma mk_float_good s m e :
  canonical prec emax m e -> good prec emax (mk_float prec emax s m e).
Proof.
  intros C. split; [|apply mk_float_not_nan; destruct C; lia].
  destruct m as [|p|p]; cbn; try reflexivity.
  destruct (Z.leb_spec e (emax - prec)); [|reflexivity].
  apply bounded_canonical. split; assumption.
Qed.

Lemma binary_normalize_good M e sz :
  good prec emax (binary_normalize prec emax M e sz).
Proof.
  destruct M as [|m|m]; cbn [binary_normalize].
  - split; [reflexivity | discriminate].
  - destruct (binary_round_T false m e) as (m' & e' & -> & C & _).
    now apply mk_float_good.
  - destruct (binary_round_T true m e) as (m' & e' & -> & C & _).
    now apply mk_float_good.
Qed.

Lemma SFadd_good a b :
  valid_binary prec emax b = true -> is_finite b = true -> is_zero b = false ->
  a <> S754_nan -> good prec emax (SFadd prec emax a b).
Proof.
  intros Vb Fb Zb Na.
  destruct a as [sa|sa| |sa ma ea], b as [sb|sb| |sb mb eb]; try discriminate;
    try congruence; cbn [SFadd].
  - split; [assumption | discriminate].
  - split; [reflexivity | discriminate].
  - apply binary_normalize_good.
Qed.

Lemma SFsub_good a b :
  valid_binary prec emax b = true -> is_finite b = true -> is_zero b = false ->
  a <> S754_nan -> good prec emax (SFsub prec emax a b).
Proof.
  intros Vb Fb Zb Na.
  destruct a as [sa|sa| |sa ma ea], b as [sb|sb| |sb mb eb]; try discriminate;
    try congruence; cbn [SFsub].
  - split; [assumption | discriminate].
  - split; [reflexivity | discriminate].
  - apply binary_normalize_good.
Qed.

Lemma SFdiv_good a b :
  is_finite b = true -> is_zero b = false ->
  a <> S754_nan -> good prec emax (SFdiv prec emax a b).
Proof.
  intros Fb Zb Na.
  destruct a as [sa|sa| |sa ma ea], b as [sb|sb| |sb mb eb]; try discriminate;
    try congruence; cbn [SFdiv].
  - split; [reflexivity | discriminate].
  - split; [reflexivity | discriminate].
  - pose proof (div_core_spec ma ea mb eb) as S.
    destruct (SFdiv_core_binary prec emax (Z.pos ma) ea (Z.pos mb) eb)
      as [[q e'] l].
    destruct S as (Hq & Hin & Hal).
    destruct (binary_round_aux_spec (xorb sa sb) q e' l _ Hq Hin Hal)
      as (m' & e'' & -> & C & _).
    now apply mk_float_good.
Qed.

Lemma SFmul_good a b :
  valid_binary prec emax a = true -> valid_binary prec emax b = true ->
  is_finite b = true -> is_zero b = false ->
  a <> S754_nan -> good prec emax (SFmul prec emax a b).
Proof.
  intros Va Vb Fb Zb Na.
  destruct a as [sa|sa| |sa ma ea], b as [sb|sb| |sb mb eb]; try discriminate;
    try congruence; cbn [SFmul].
  - split; [reflexivity | discriminate].
  - split; [reflexivity | discriminate].
  - destruct (binary_round_aux_spec (xorb sa sb) (Z.pos (ma * mb)) (ea + eb)
                loc_Exact (F2R (Z.pos (ma * mb)) (ea + eb)))
      as (m' & e' & -> & C & _);
      [lia | apply inb_exact | now apply mul_aligned |].
    now apply mk_float_good.
Qed.

Lemma SFadd_not_nan a b :
  is_finite a = true -> b <> S754_nan -> SFadd prec emax a b <> S754_nan.
Proof.
  intros Fa Nb.
  destruct a as [sa|sa| |sa ma ea], b as [sb|sb| |sb mb eb]; try discriminate;
    try congruence; cbn [SFadd]; try discriminate.
  - now destruct sa, sb.
  - apply binary_normalize_good.
Qed.

End Rounding.

(** * The binary64 instance *)

Lemma prec_pos : 0 < prec.
Proof. reflexivity. Qed.

Lemma prec_lt_emax : prec < emax.
Proof. reflexivity. Qed.

Lemma le_B2R (a b : number) :
  valid a = true -> valid b = true ->
  is_finite a = true -> is_finite b = true ->
  (le a b = true <-> (B2R a <= B2R b)%R).
Proof.
  intros Va Vb Fa Fb.
  destruct (SFcompare_finite prec emax a b Va Vb Fa Fb) as (c & Hc & Hs).
  unfold le, SFleb. rewrite Hc. destruct c; split; intros H; try reflexivity;
    try discriminate; lra.
Qed.

Lemma B2R_neg_exp (s : bool) (m p : positive) :
  B2R (S754_finite s m (Z.neg p)) =
  (IZR (cond_Zopp s (Z.pos m)) / IZR (2 ^ Z.pos p))%R.
Proof.
  cbn [B2R]. unfold F2R. change (Z.neg p) with (- Z.pos p).
  rewrite bpow_opp, bpow_IZR by lia. reflexivity.
Qed.

Ltac b2r_const :=
  match goal with
  | |- B2R ?c = _ =>
      let v := eval vm_compute in c in
      change c with v; rewrite B2R_neg_exp; cbn [cond_Zopp Z.opp];
      match goal with
      | |- context [IZR (2 ^ ?n)] =>
          let w := eval vm_compute in (2 ^ n)%Z in
          change (2 ^ n)%Z with w
      end; lra
  end.

Lemma B2R_minus_one : B2R (of_Z (-1)) = (-1)%R.
Proof. b2r_const. Qed.

Lemma B2R_one : B2R (of_Z 1) = 1%R.
Proof. b2r_const. Qed.

Lemma B2R_two : B2R (sub (of_Z 1) (of_Z (-1))) = 2%R.
Proof. b2r_const. Qed.

Lemma B2R_two_hundred : B2R (sub (of_Z 100) (of_Z (-100))) = 200%R.
Proof. b2r_const. Qed.

Lemma B2R_minus_hundred : B2R (of_Z (-100)) = (-100)%R.
Proof. b2r_const. Qed.

Lemma B2R_hundred : B2R (of_Z 100) = 100%R.
Proof. b2r_const. Qed.

(** The four operations keep a result between representable bounds of the
    exact result. *)
Lemma sub_bounds (a b A B : number) :
  number_ok a -> number_ok b -> number_ok A -> number_ok B ->
  (B2R A <= B2R a - B2R b <= B2R B)%R ->
  number_ok (sub a b) /\ (B2R A <= B2R (sub a b) <= B2R B)%R.
Proof.
  intros [Va Fa] [Vb Fb] [VA FA] [VB FB] H.
  destruct (SFsub_bounds prec emax prec_pos a b A B Va Vb Fa Fb VA VB FA FB H)
    as (V & F & R).
  repeat split; assumption || apply R.
Qed.

Lemma add_bounds (a b A B : number) :
  number_ok a -> number_ok b -> number_ok A -> number_ok B ->
  (B2R A <= B2R a + B2R b <= B2R B)%R ->
  number_ok (add a b) /\ (B2R A <= B2R (add a b) <= B2R B)%R.
Proof.
  intros [Va Fa] [Vb Fb] [VA FA] [VB FB] H.
  destruct (SFadd_bounds prec emax prec_pos a b A B Va Vb Fa Fb VA VB FA FB H)
    as (V & F & R).
  repeat split; assumption || apply R.
Qed.

Lemma mul_bounds (a b A B : number) :
  number_ok a -> number_ok b -> number_ok A -> number_ok B ->
  (B2R A <= B2R a * B2R b <= B2R B)%R ->
  number_ok (mul a b) /\ (B2R A <= B2R (mul a b) <= B2R B)%R.
Proof.
  intros [Va Fa] [Vb Fb] [VA FA] [VB FB] H.
  destruct (SFmul_bounds prec emax prec_pos prec_lt_emax a b A B
              Va Vb Fa Fb VA VB FA FB H) as (V & F & R).
  repeat split; assumption || apply R.
Qed.

Lemma div_bounds (a b A B : number) :
  number_ok a -> number_ok b -> is_zero b = false ->
  number_ok A -> number_ok B ->
  (B2R A <= B2R a / B2R b <= B2R B)%R ->
  number_ok (div a b) /\ (B2R A <= B2R (div a b) <= B2R B)%R.
Proof.
  intros [Va Fa] [Vb Fb] Zb [VA FA] [VB FB] H.
  destruct (SFdiv_bounds prec emax prec_pos a b A B
              Va Vb Fa Fb Zb VA VB FA FB H) as (V & F & R).
  repeat split; assumption || apply R.
Qed.

Lemma le_one_finite (v : number) :
  le (of_Z (-1)) v = true -> le v (of_Z 1) = true -> is_finite v = true.
Proof.
  destruct v as [s|[|]| |s m e]; try reflexivity; intros H1 H2;
    vm_compute in H1, H2; discriminate.
Qed.

(** ** The scaling keeps [-1, 1] within [-100, 100] *)

Lemma floor_range (r : number) :
  number_ok r -> r <> S754_zero true ->
  (-100 <= B2R r <= 100)%R ->
  exists z : Z, -100 <= z <= 100 /\ Math.floor r = of_Z z.
Proof.
  intros [V F] Nz HR.
  destruct r as [[|]| | |s m e]; try discriminate; try congruence.
  - exists 0. split; [lia | reflexivity].
  - unfold valid in V. cbn [valid_binary] in V.
    apply bounded_canonical in V as [C _].
    assert (He : e < 0).
    { destruct (Z_lt_le_dec e 0) as [|Hge]; [assumption|exfalso].
      destruct (canonical_normal prec emax _ _ C) as [_ D].
      { unfold emin, emax, prec. lia. }
      pose proof (F2R_digits_ge (Z.pos m) e eq_refl) as L. rewrite D in L.
      assert (B : (bpow 52 <= bpow (prec - 1 + e))%R)
        by (apply bpow_le; unfold prec; lia).
      rewrite (bpow_IZR 52) in B by lia.
      change (2 ^ 52) with 4503599627370496 in B.
      cbn [B2R] in HR. rewrite F2R_cond_Zopp in HR.
      destruct s; lra. }
    destruct e as [|p|p]; try lia.
    rewrite B2R_neg_exp in HR.
    assert (P : 0 < 2 ^ Z.pos p) by (apply Z.pow_pos_nonneg; lia).
    assert (PR : (0 < IZR (2 ^ Z.pos p))%R) by now apply IZR_lt.
    assert (M : Z.pos m <= 100 * 2 ^ Z.pos p).
    { apply le_IZR. rewrite mult_IZR.
      destruct s; cbn [cond_Zopp] in HR;
        [change (- Z.pos m) with (Z.neg m) in HR;
         change (Z.neg m) with (- Z.pos m) in HR; rewrite opp_IZR in HR|];
        destruct HR as [H1 H2].
      - apply (Rmult_le_compat_r (IZR (2 ^ Z.pos p))) in H1; [|lra].
        unfold Rdiv in H1. rewrite Rmult_assoc, Rinv_l in H1 by lra. lra.
      - apply (Rmult_le_compat_r (IZR (2 ^ Z.pos p))) in H2; [|lra].
        unfold Rdiv in H2. rewrite Rmult_assoc, Rinv_l in H2 by lra. lra. }
    unfold Math.floor.
    rewrite Z.shiftr_div_pow2, Z.shiftl_mul_pow2 by lia.
    set (q := Z.pos m / 2 ^ Z.pos p).
    pose proof (Z.div_mod (Z.pos m) (2 ^ Z.pos p) ltac:(lia)) as DM.
    pose proof (Z.mod_pos_bound (Z.pos m) (2 ^ Z.pos p) P) as MB.
    fold q in DM.
    assert (Q0 : 0 <= q) by (apply Z.div_pos; lia).
    assert (Q1 : q <= 100) by (apply Z.div_le_upper_bound; lia).
    destruct s.
    + destruct (Z.eqb_spec (q * 2 ^ Z.pos p) (Z.pos m)) as [E|NE].
      * exists (- q). split; [lia | reflexivity].
      * exists (- (q + 1)). split; [|reflexivity].
        assert (q <> 100) by nia. lia.
    + exists q. split; [lia | reflexivity].
Qed.

Lemma number_ok_const (c : number) :
  valid c && is_finite c = true -> number_ok c.
Proof. intros H. apply andb_prop in H. exact H. Qed.

Lemma scale_range (v : number) :
  valid v = true -> le (of_Z (-1)) v = true -> le v (of_Z 1) = true ->
  exists z : Z, -100 <= z <= 100 /\ scale v = of_Z z.
Proof.
  intros V L U.
  pose proof (le_one_finite v L U) as F.
  assert (Ok : number_ok v) by (split; assumption).
  assert (Om1 : number_ok (of_Z (-1))) by (apply number_ok_const; reflexivity).
  assert (O1 : number_ok (of_Z 1)) by (apply number_ok_const; reflexivity).
  assert (O0 : number_ok (S754_zero false)) by (apply number_ok_const; reflexivity).
  assert (O2 : number_ok (sub (of_Z 1) (of_Z (-1))))
    by (apply number_ok_const; reflexivity).
  assert (O200 : number_ok (sub (of_Z 100) (of_Z (-100))))
    by (apply number_ok_const; reflexivity).
  assert (Om100 : number_ok (of_Z (-100))) by (apply number_ok_const; reflexivity).
  assert (O100 : number_ok (of_Z 100)) by (apply number_ok_const; reflexivity).
  apply (le_B2R _ _ (proj1 Om1) V (proj2 Om1) F) in L.
  apply (le_B2R _ _ V (proj1 O1) F (proj2 O1)) in U.
  rewrite B2R_minus_one in L. rewrite B2R_one in U.
  unfold scale.
  set (r1 := sub v (of_Z (-1))).
  destruct (sub_bounds v (of_Z (-1)) (S754_zero false)
              (sub (of_Z 1) (of_Z (-1))) Ok Om1 O0 O2) as [K1 R1].
  { rewrite B2R_minus_one, B2R_two. cbn [B2R]. lra. }
  fold r1 in K1, R1. rewrite B2R_two in R1. cbn [B2R] in R1.
  set (r2 := div r1 (sub (of_Z 1) (of_Z (-1)))).
  destruct (div_bounds r1 (sub (of_Z 1) (of_Z (-1))) (S754_zero false) (of_Z 1)
              K1 O2 eq_refl O0 O1) as [K2 R2].
  { rewrite B2R_two, B2R_one. cbn [B2R]. lra. }
  fold r2 in K2, R2. rewrite B2R_one in R2. cbn [B2R] in R2.
  set (r3 := mul r2 (sub (of_Z 100) (of_Z (-100)))).
  destruct (mul_bounds r2 (sub (of_Z 100) (of_Z (-100))) (S754_zero false)
              (sub (of_Z 100) (of_Z (-100))) K2 O200 O0 O200) as [K3 R3].
  { rewrite B2R_two_hundred. cbn [B2R]. lra. }
  fold r3 in K3, R3. rewrite B2R_two_hundred in R3. cbn [B2R] in R3.
  set (r4 := add r3 (of_Z (-100))).
  destruct (add_bounds r3 (of_Z (-100)) (of_Z (-100)) (of_Z 100)
              K3 Om100 Om100 O100) as [K4 R4].
  { rewrite B2R_minus_hundred, B2R_hundred. lra. }
  fold r4 in K4, R4. rewrite B2R_minus_hundred, B2R_hundred in R4.
  apply floor_range; try assumption.
  apply (SFadd_not_negzero prec emax prec_pos r3 (of_Z (-100)));
    try apply K3; try apply Om100; reflexivity.
Qed.

(** ** Order facts that hold for all numbers *)

Lemma SFcompare_antisym (a b : number) :
  SFcompare b a = option_map CompOpp (SFcompare a b).
Proof.
  destruct a as [s1|s1| |s1 m1 e1], b as [s2|s2| |s2 m2 e2]; cbn;
    try reflexivity; try (destruct s1; reflexivity);
    try (destruct s2; reflexivity); try (destruct s1, s2; reflexivity).
  destruct s1, s2; cbn; try reflexivity;
    rewrite (Z.compare_antisym e1 e2);
    destruct (e1 ?= e2)%Z; cbn; try reflexivity; f_equal.
  - now rewrite (Pos.compare_cont_antisym m1 m2 Eq).
  - now rewrite (Pos.compare_cont_antisym m1 m2 Eq).
Qed.

Lemma SFcompare_total (a b : number) :
  a <> nan -> b <> nan -> exists c, SFcompare a b = Some c.
Proof.
  unfold nan.
  destruct a as [s1|s1| |s1 m1 e1], b as [s2|s2| |s2 m2 e2]; cbn;
    intros Ha Hb; try congruence; eexists; reflexivity.
Qed.

Lemma lt_le (a b : number) : lt a b = true -> le a b = true.
Proof.
  unfold lt, le, SFltb, SFleb. now destruct (SFcompare a b) as [[| |]|].
Qed.

Lemma not_lt_le (a b : number) :
  a <> nan -> b <> nan -> lt a b = false -> le b a = true.
Proof.
  intros Ha Hb. unfold lt, le, SFltb, SFleb. rewrite (SFcompare_antisym a b).
  destruct (SFcompare_total a b Ha Hb) as [c ->]. now destruct c.
Qed.

Lemma not_lt_eq (a b : number) :
  a <> nan -> b <> nan -> lt a b = false -> lt b a = false ->
  SFcompare a b = Some Eq.
Proof.
  intros Ha Hb. unfold lt, SFltb. rewrite (SFcompare_antisym a b).
  destruct (SFcompare_total a b Ha Hb) as [c ->]. now destruct c.
Qed.

(** ** The clamp *)

Lemma is_nan_false (x : number) : x <> nan -> is_nan x = false.
Proof. unfold nan. destruct x; try reflexivity. now intros []. Qed.

Lemma min_hundred (x : number) :
  x <> nan ->
  (Math.min x (of_Z 100) = x /\ lt x (of_Z 100) = true) \/
  Math.min x (of_Z 100) = of_Z 100.
Proof.
  intros Hx. unfold Math.min. rewrite (is_nan_false x Hx).
  change (is_nan (of_Z 100)) with false. cbn [orb].
  destruct (lt x (of_Z 100)) eqn:L1; [now left|right].
  destruct (lt (of_Z 100) x) eqn:L2; [reflexivity|].
  destruct x as [[|]| | |]; try reflexivity. discriminate L1.
Qed.

Lemma max_minus_hundred (y : number) :
  y <> nan ->
  Math.max (of_Z (-100)) y = of_Z (-100) \/
  (Math.max (of_Z (-100)) y = y /\ lt y (of_Z (-100)) = false).
Proof.
  intros Hy. unfold Math.max. rewrite (is_nan_false y Hy).
  change (is_nan (of_Z (-100))) with false. cbn [orb].
  destruct (lt y (of_Z (-100))) eqn:L1; [now left|right].
  split; [|reflexivity].
  destruct (lt (of_Z (-100)) y) eqn:L2; reflexivity.
Qed.

Lemma clamp_cases (x : number) :
  x <> nan ->
  in_range (clamp x (of_Z (-100)) (of_Z 100)) = true /\
  (clamp x (of_Z (-100)) (of_Z 100) = x \/
   clamp x (of_Z (-100)) (of_Z 100) = of_Z 100 \/
   clamp x (of_Z (-100)) (of_Z 100) = of_Z (-100)).
Proof.
  intros Hx. unfold clamp.
  assert (N100 : of_Z 100 <> nan) by discriminate.
  assert (Nm100 : of_Z (-100) <> nan) by discriminate.
  destruct (min_hundred x Hx) as [[-> L]| ->].
  - destruct (max_minus_hundred x Hx) as [-> | [-> L']].
    + split; [reflexivity | auto].
    + split; [|auto]. unfold in_range.
      rewrite (not_lt_le _ _ Hx Nm100 L'), (lt_le _ _ L). reflexivity.
  - destruct (max_minus_hundred (of_Z 100) N100) as [-> | [-> L']].
    + split; [reflexivity | auto].
    + split; [reflexivity | auto].
Qed.

Lemma clamp_nan : clamp nan (of_Z (-100)) (of_Z 100) = nan.
Proof. reflexivity. Qed.

Lemma in_range_not_nan (x : number) : in_range x = true -> x <> nan.
Proof. intros H E. subst x. discriminate H. Qed.

Lemma in_range_finite (x : number) : in_range x = true -> is_finite x = true.
Proof.
  destruct x as [s|[|]| |s m e]; try reflexivity; intros H; discriminate H.
Qed.

Lemma clamp_id (x : number) :
  in_range x = true -> clamp x (of_Z (-100)) (of_Z 100) = x.
Proof.
  intros H. pose proof (in_range_not_nan x H) as Hx.
  assert (N100 : of_Z 100 <> nan) by discriminate.
  assert (Nm100 : of_Z (-100) <> nan) by discriminate.
  unfold in_range in H. apply andb_prop in H as [H1 H2].
  unfold clamp, Math.min, Math.max.
  rewrite (is_nan_false x Hx).
  change (is_nan (of_Z 100)) with false. cbn [orb].
  assert (M : (if lt x (of_Z 100) then x
               else if lt (of_Z 100) x then of_Z 100
                    else match x with S754_zero true => x | _ => of_Z 100 end)
              = x).
  { destruct (lt x (of_Z 100)) eqn:L1; [reflexivity|].
    assert (L2 : lt (of_Z 100) x = false).
    { unfold lt, SFltb. unfold le, SFleb in H2.
      rewrite (SFcompare_antisym x (of_Z 100)).
      destruct (SFcompare x (of_Z 100)) as [[| |]|]; try discriminate; reflexivity. }
    rewrite L2.
    pose proof (not_lt_eq _ _ Hx N100 L1 L2) as E.
    apply SFcompare_Eq_inv in E as [(s1 & s2 & _ & E)|[E _]];
      [discriminate E|].
    rewrite E. reflexivity. }
  rewrite M. change (is_nan (of_Z (-100))) with false.
  rewrite (is_nan_false x Hx). cbn [orb].
  assert (L1 : lt x (of_Z (-100)) = false).
  { unfold lt, SFltb. unfold le, SFleb in H1.
    rewrite (SFcompare_antisym (of_Z (-100)) x).
    destruct (SFcompare (of_Z (-100)) x) as [[| |]|]; try discriminate; reflexivity. }
  rewrite L1. destruct (lt (of_Z (-100)) x); reflexivity.
Qed.

(** ** Numbers that stay numbers *)

Lemma floor_good (x : number) :
  good prec emax x -> good prec emax (Math.floor x).
Proof.
  intros G. unfold Math.floor.
  destruct x as [s|s| |s m [|p|p]]; try exact G.
  destruct s; [destruct (_ =? _)%Z|]; apply binary_normalize_good, prec_pos.
Qed.

Lemma scale_good (a : number) : a <> nan -> good prec emax (scale a).
Proof.
  intros Ha. unfold scale. apply floor_good.
  apply (SFadd_good prec emax prec_pos); try reflexivity.
  apply (SFmul_good prec emax prec_pos prec_lt_emax); try reflexivity.
  - apply (SFdiv_good prec emax prec_pos); try reflexivity.
    apply (SFsub_good prec emax prec_pos); try reflexivity. exact Ha.
  - apply (SFdiv_good prec emax prec_pos); try reflexivity.
    apply (SFsub_good prec emax prec_pos); try reflexivity. exact Ha.
Qed.

Lemma applyDeadzone_not_nan (a d : number) :
  a <> nan -> applyDeadzone a d <> nan.
Proof.
  intros Ha. unfold applyDeadzone.
  destruct (lt a d && gt a (neg d)); [discriminate | exact Ha].
Qed.

Lemma step_good (a d : number) :
  a <> nan -> good prec emax (mul (scale (applyDeadzone a d)) (decimal 2 2)).
Proof.
  intros Ha.
  destruct (scale_good (applyDeadzone a d) (applyDeadzone_not_nan a d Ha))
    as [V N].
  apply (SFmul_good prec emax prec_pos prec_lt_emax); try reflexivity; assumption.
Qed.

Lemma step_nan (d : number) :
  mul (scale (applyDeadzone nan d)) (decimal 2 2) = nan.
Proof. unfold applyDeadzone. now destruct d as [[|]|[|]| |[|] m e]. Qed.

Lemma add_valid (a b : number) :
  valid a = true -> valid b = true -> valid (add a b) = true.
Proof.
  intros Va Vb.
  destruct a as [sa|sa| |sa ma ea], b as [sb|sb| |sb mb eb];
    try reflexivity; try assumption.
  - now destruct sa, sb.
  - now destruct sa, sb.
  - apply (binary_normalize_good prec emax prec_pos).
Qed.

Lemma add_not_negzero (a b : number) :
  valid a = true -> valid b = true -> a <> S754_zero true ->
  add a b <> S754_zero true.
Proof.
  intros Va Vb Na.
  destruct a as [[|]|sa| |sa ma ea], b as [sb|sb| |sb mb eb];
    try congruence; try discriminate.
  - now destruct sb.
  - now destruct sa, sb.
  - apply (SFadd_not_negzero prec emax prec_pos); auto.
Qed.

Lemma add_pos_zero (h : number) :
  h <> S754_zero true -> add h (S754_zero false) = h.
Proof. destruct h as [[|]|[|]| |s m e]; try reflexivity. congruence. Qed.

Lemma accumulate_inv (h a d : number) :
  head_inv h ->
  head_inv (accumulate h (scale (applyDeadzone a d)) (decimal 2 2)) /\
  (h <> nan -> a <> nan ->
   accumulate h (scale (applyDeadzone a d)) (decimal 2 2) <> nan).
Proof.
  intros (Vh & Zh & Rh). unfold accumulate.
  set (delta := mul (scale (applyDeadzone a d)) (decimal 2 2)).
  assert (Vd : valid delta = true).
  { destruct a; try (apply step_good; discriminate).
    unfold delta. change S754_nan with nan. now rewrite step_nan. }
  pose proof (add_valid h delta Vh Vd) as Vx.
  pose proof (add_not_negzero h delta Vh Vd Zh) as Zx.
  set (x := add h delta) in *.
  assert (K : x <> nan -> head_inv (clamp x (of_Z (-100)) (of_Z 100))).
  { intros Nx. destruct (clamp_cases x Nx) as [IR [E|[E|E]]]; rewrite E in *.
    - repeat split; auto.
    - repeat split; auto; discriminate.
    - repeat split; auto; discriminate. }
  assert (Kn : x = nan -> head_inv (clamp x (of_Z (-100)) (of_Z 100))).
  { intros ->. rewrite clamp_nan. repeat split; auto; discriminate. }
  split.
  - destruct x; try (apply K; discriminate). now apply Kn.
  - intros Nh Na.
    assert (Nx : x <> nan).
    { destruct Rh as [|Rh]; [contradiction|].
      apply (SFadd_not_nan prec emax prec_pos).
      - now apply in_range_finite.
      - apply step_good. exact Na. }
    apply in_range_not_nan. apply (clamp_cases x Nx).
Qed.

(** ** The head orientation over a run *)

Lemma head_after_pair (g : Gamepad) (r : Misty2Robot) (a b : number) :
  headRotation r = [a; b] ->
  head_after g r =
  [accumulate a (scale (applyDeadzone (axes g).[2] (deadzone r))) (sensitivity r);
   accumulate b (scale (applyDeadzone (axes g).[3] (deadzone r))) (sensitivity r)].
Proof. intros H. unfold head_after. rewrite H. reflexivity. Qed.

Lemma robot_inv_constructor ip vq w h : robot_inv (constructor ip vq w h).
Proof.
  exists (of_Z 0), (of_Z 0). cbn.
  repeat split; try reflexivity; try discriminate; now right.
Qed.

Lemma robot_inv_step (g : Gamepad) (r : Misty2Robot) :
  robot_inv r ->
  robot_inv (robot_after g r) /\
  (head_axes_are_numbers g -> head_is_number r ->
   head_is_number (robot_after g r)).
Proof.
  intros (a & b & Hh & Ia & Ib & Hs & Hd).
  pose proof (head_after_pair g r a b Hh) as E. rewrite Hs, Hd in E.
  destruct (accumulate_inv a (axes g).[2] (decimal 1 1) Ia) as [Ia' Na'].
  destruct (accumulate_inv b (axes g).[3] (decimal 1 1) Ib) as [Ib' Nb'].
  split.
  - eexists _, _. cbn [robot_after headRotation sensitivity deadzone].
    split; [exact E|]. auto.
  - intros [G2 G3] [N0 N1]. unfold head_is_number.
    cbn [robot_after headRotation]. rewrite E. rewrite Hh in N0, N1.
    split; [apply Na' | apply Nb']; assumption.
Qed.

Lemma frames_total (gs : list Gamepad) :
  forall s, fst (frames gs s) = Normal tt.
Proof.
  induction gs as [|g gs IH]; intros s; [reflexivity|].
  cbn [frames]. unfold bind. rewrite update_eq. apply IH.
Qed.

Lemma frames_inv (gs : list Gamepad) :
  forall s, robot_inv (this s) ->
            robot_inv (this (snd (frames gs s))) /\
            (Forall head_axes_are_numbers gs -> head_is_number (this s) ->
             head_is_number (this (snd (frames gs s)))).
Proof.
  induction gs as [|g gs IH]; intros s I; [cbn; auto|].
  cbn [frames]. unfold bind. rewrite update_eq.
  destruct (robot_inv_step g (this s) I) as [I' N'].
  destruct (IH (mkStore (robot_after g (this s)) (sockets s)
                  (trace s ++ head_events g (this s) ++ drive_events g (this s)))
              I') as [I2 N2].
  split; [exact I2|].
  intros F N. inversion F; subst. apply N2; auto.
Qed.

Lemma head_inv_range (h : number) :
  head_inv h -> h <> nan -> in_range h = true.
Proof. intros (_ & _ & [E|R]) N; [contradiction | exact R]. Qed.



(** ** A frame inside the deadzone *)

Lemma scale_zero : scale (of_Z 0) = of_Z 0.
Proof. vm_compute. reflexivity. Qed.

Lemma accumulate_zero (h : number) :
  head_inv h -> accumulate h (of_Z 0) (decimal 2 2) = h.
Proof.
  intros (_ & Z & R). unfold accumulate.
  change (mul (of_Z 0) (decimal 2 2)) with (S754_zero false).
  rewrite (add_pos_zero h Z).
  destruct R as [->|R]; [apply clamp_nan | now apply clamp_id].
Qed.

(** C10.  In any store reached from a freshly constructed robot, a call of
    [update] whose four axes all lie strictly inside the deadzone 0.1 leaves
    the head orientation as it was, and a drive command sent by that call
    carries linear and angular velocity 0. *)
Theorem deadzone_frame_changes_nothing
  (ip : string) (vq w h : number) (socks : list WebSocket) (tr : list event)
  (gs : list Gamepad) (g : Gamepad) :
  (forall i : nat, (i < 4)%nat ->
     gt (axes g).[i] (neg (decimal 1 1)) = true /\
     lt (axes g).[i] (decimal 1 1) = true) ->
  let s := snd (frames gs (mkStore (constructor ip vq w h) socks tr)) in
  let s' := snd (update g s) in
  deadzone (this s) = decimal 1 1 /\
  headRotation (this s') = headRotation (this s) /\
  exists evs,
    trace s' = (trace s ++ evs)%list /\
    forall (ip' : string) (lin ang : number),
      In (DriveCommand ip' lin ang) evs -> lin = of_Z 0 /\ ang = of_Z 0.
Proof.
  intros Hin s s'.
  destruct (frames_inv gs (mkStore (constructor ip vq w h) socks tr)
              (robot_inv_constructor ip vq w h)) as [I _].
  fold s in I. destruct I as (a & b & Hh & Ia & Ib & Hs & Hd).
  assert (D : forall i, (i < 4)%nat ->
                 applyDeadzone (axes g).[i] (decimal 1 1) = of_Z 0).
  { intros i Hi. destruct (Hin i Hi) as [G L].
    now apply applyDeadzone_inside. }
  subst s'. rewrite update_eq. cbn [snd this trace robot_after headRotation].
  split; [exact Hd|]. split.
  - rewrite (head_after_pair g (this s) a b Hh), Hs, Hd.
    rewrite !D by lia. rewrite scale_zero, !accumulate_zero by assumption.
    now rewrite Hh.
  - eexists. split; [reflexivity|].
    intros ip' lin ang Hev. apply in_app_or in Hev as [Hev|Hev].
    + unfold head_events in Hev.
      destruct (due (framesToMoveHead (this s))); [|contradiction].
      destruct Hev as [Hev|[]]. discriminate Hev.
    + unfold drive_events in Hev.
      destruct (due (framesToMoveBody (this s))); [|contradiction].
      destruct Hev as [Hev|[]].
      rewrite readAnalogSticks_spec, Hd in Hev.
      cbn [arr_get nth] in Hev. rewrite !D in Hev by lia.
      rewrite mapAnalogValues_spec, scale_zero in Hev.
      cbn [arr_get nth] in Hev.
      unfold DriveCommand in Hev. injection Hev as _ <- <-. split; reflexivity.
Qed.

Lemma deadzone_frame_changes_nothing_witness :
  let g0 := mkGamepad [of_Z 1; of_Z 1; decimal 5 1; of_Z (-1)] in
  let g := mkGamepad [decimal 5 2; decimal (-9) 2; of_Z 0; decimal 99 3] in
  let s := snd (frames [g0; g0]
                  (mkStore (constructor_default "10.0.0.2") [] [])) in
  headRotation (this (snd (update g s))) = headRotation (this s).
Proof.
  intros g0 g s.
  refine (proj1 (proj2 (deadzone_frame_changes_nothing "10.0.0.2" (of_Z 100)
                          (of_Z 400) (of_Z 540) [] [] [g0; g0] g _))).
  intros i Hi.
  destruct i as [|[|[|[|i]]]]; try lia; split; vm_compute; reflexivity.
Defined.

(** ** The scaling *)

(** C4.  [mapAnalogValues] computes
    [floor ((v - (-1)) / (1 - (-1)) * (100 - (-100)) + (-100))] for each
    argument; it maps (-1, -1) to (-100, -100) and (1, 1) to (100, 100)
    exactly; and for arguments in [-1, 1] both results are integers in
    [-100, 100]. *)
Theorem axis_scaling :
  (forall x y : number,
      mapAnalogValues x y =
      [Math.floor
         (add (mul (div (sub x (of_Z (-1))) (sub (of_Z 1) (of_Z (-1))))
                   (sub (of_Z 100) (of_Z (-100))))
              (of_Z (-100)));
       Math.floor
         (add (mul (div (sub y (of_Z (-1))) (sub (of_Z 1) (of_Z (-1))))
                   (sub (of_Z 100) (of_Z (-100))))
              (of_Z (-100)))]) /\
  mapAnalogValues (of_Z (-1)) (of_Z (-1)) = [of_Z (-100); of_Z (-100)] /\
  mapAnalogValues (of_Z 1) (of_Z 1) = [of_Z 100; of_Z 100] /\
  (forall x y : number,
      valid x = true -> valid y = true ->
      le (of_Z (-1)) x = true -> le x (of_Z 1) = true ->
      le (of_Z (-1)) y = true -> le y (of_Z 1) = true ->
      exists zx zy : Z,
        -100 <= zx <= 100 /\ -100 <= zy <= 100 /\
        mapAnalogValues x y = [of_Z zx; of_Z zy]).
Proof.
  split; [reflexivity|]. split; [vm_compute; reflexivity|].
  split; [vm_compute; reflexivity|].
  intros x y Vx Vy Lx Ux Ly Uy.
  destruct (scale_range x Vx Lx Ux) as (zx & Hx & Ex).
  destruct (scale_range y Vy Ly Uy) as (zy & Hy & Ey).
  exists zx, zy. rewrite mapAnalogValues_spec, Ex, Ey. auto.
Qed.

Lemma axis_scaling_witness :
  exists zx zy : Z,
    -100 <= zx <= 100 /\ -100 <= zy <= 100 /\
    mapAnalogValues (decimal 37 2) (decimal (-5) 1) = [of_Z zx; of_Z zy].
Proof.
  apply (proj2 (proj2 (proj2 axis_scaling))); vm_compute; reflexivity.
Defined.

(** * Further properties of the code *)

(** ** The two channels run in lockstep *)

Lemma frames_from_fresh
  (ip : string) (vq w h : number) (socks : list WebSocket) (tr : list event)
  (gs : list Gamepad) :
  let s := snd (frames gs (mkStore (constructor ip vq w h) socks tr)) in
  ipAddress (this s) = ip /\
  framesToMoveHead (this s) = of_Z (Z.of_nat (List.length gs) mod 180) /\
  framesToMoveBody (this s) = of_Z (Z.of_nat (List.length gs) mod 180).
Proof.
  intros s.
  destruct (frames_run gs (mkStore (constructor ip vq w h) socks tr) 0 0)
    as (t & R & I & H & B & _); try lia; try reflexivity.
  subst s. rewrite R. cbn [snd]. rewrite Z.add_0_l in H, B. auto.
Qed.

(** X1: on a robot run from its construction the two frame counters are
    always equal, so a frame sends either nothing or exactly one head command
    followed by one drive command to the robot's address; it sends the pair
    exactly on every 180th frame. *)
Theorem commands_come_in_pairs
  (ip : string) (vq w h : number) (socks : list WebSocket) (tr : list event)
  (gs : list Gamepad) (g : Gamepad) :
  let s := snd (frames gs (mkStore (constructor ip vq w h) socks tr)) in
  let s' := snd (update g s) in
  framesToMoveHead (this s) = framesToMoveBody (this s) /\
  if (Z.of_nat (S (List.length gs)) mod 180 =? 0)%Z
  then exists pitch yaw lin ang,
      trace s' = (trace s ++ [HeadCommand ip pitch yaw (of_Z 100);
                              DriveCommand ip lin ang])%list
  else trace s' = trace s.
Proof.
  intros s s'.
  destruct (frames_from_fresh ip vq w h socks tr gs) as (I & H & B).
  fold s in I, H, B. split; [congruence|].
  subst s'. rewrite update_eq. cbn [snd trace].
  unfold head_events, drive_events. rewrite H, B, I.
  set (n := Z.of_nat (List.length gs)).
  assert (Hn : 0 <= n mod 180 < 180) by (apply Z.mod_pos_bound; lia).
  destruct (counter_step (n mod 180) Hn) as [_ D]. rewrite D.
  rewrite Nat2Z.inj_succ. fold n.
  replace (Z.succ n mod 180) with ((n mod 180 + 1) mod 180)
    by (now rewrite Zplus_mod_idemp_l).
  destruct (Z.eqb_spec (n mod 180) 179) as [E|NE].
  - rewrite E. cbn. eexists _, _, _, _. reflexivity.
  - rewrite Z.mod_small by lia.
    destruct (Z.eqb_spec (n mod 180 + 1) 0); [lia|].
    cbn. now rewrite app_nil_r.
Qed.

(** ** What [update] leaves alone *)

(** X2: a run of frames never throws, leaves the sockets, the session
    handle, the address, the sensitivity and the deadzone as they were, and
    adds to the log nothing but requests to the head and drive endpoints of
    the robot's address, at most two per frame. *)
Theorem frames_only_send_commands (gs : list Gamepad) :
  forall s : Store,
    let s' := snd (frames gs s) in
    fst (frames gs s) = Normal tt /\
    sockets s' = sockets s /\
    ws (this s') = ws (this s) /\
    ipAddress (this s') = ipAddress (this s) /\
    sensitivity (this s') = sensitivity (this s) /\
    deadzone (this s') = deadzone (this s) /\
    exists evs,
      trace s' = (trace s ++ evs)%list /\
      forallb (is_command (ipAddress (this s))) evs = true /\
      (List.length evs <= 2 * List.length gs)%nat.
Proof.
  induction gs as [|g gs IH]; intros s.
  - cbn. repeat split. exists []. rewrite app_nil_r. repeat split. cbn. lia.
  - cbn [frames]. unfold bind. rewrite update_eq.
    set (s1 := mkStore _ _ _).
    destruct (IH s1) as (R & So & W & I & Se & D & evs & T & F & L).
    cbv zeta. rewrite R, So, W, I, Se, D. repeat split.
    exists (head_events g (this s) ++ drive_events g (this s) ++ evs)%list.
    rewrite T. subst s1. cbn [trace this robot_after ipAddress] in *.
    split; [now rewrite <- !app_assoc|]. split.
    + rewrite !forallb_app, F, andb_true_r.
      unfold head_events, drive_events, is_command, HeadCommand, DriveCommand.
      destruct (due (framesToMoveHead (this s))),
        (due (framesToMoveBody (this s))); cbn;
        rewrite ?String.eqb_refl, ?orb_true_r; reflexivity.
    + rewrite !length_app. cbn [List.length].
      unfold head_events, drive_events.
      destruct (due (framesToMoveHead (this s))),
        (due (framesToMoveBody (this s))); cbn [List.length]; lia.
Qed.

(** ** NaN, once in, stays *)

Lemma applyDeadzone_nan (d : number) : applyDeadzone nan d = nan.
Proof. unfold applyDeadzone. now destruct d as [[|]|[|]| |[|] m e]. Qed.

Lemma scale_nan : scale nan = nan.
Proof. reflexivity. Qed.

Lemma accumulate_nan_delta (h s : number) : accumulate h nan s = nan.
Proof.
  unfold accumulate. change (mul nan s) with nan.
  replace (add h nan) with nan by (now destruct h). apply clamp_nan.
Qed.

Lemma accumulate_nan_head (delta s : number) : accumulate nan delta s = nan.
Proof. unfold accumulate. change (add nan (mul delta s)) with nan. apply clamp_nan. Qed.

Lemma frames_head_nan (i : nat) (gs : list Gamepad) :
  (i < 2)%nat ->
  forall s : Store,
    (headRotation (this s)).[i] = nan ->
    (headRotation (this (snd (frames gs s)))).[i] = nan.
Proof.
  intros Hi. induction gs as [|g gs IH]; intros s H; [exact H|].
  cbn [frames]. unfold bind. rewrite update_eq. apply IH.
  cbn [this robot_after headRotation].
  destruct i as [|[|i]]; try lia.
  - rewrite head_after_0, H. apply accumulate_nan_head.
  - rewrite head_after_1, H. apply accumulate_nan_head.
Qed.

(** X3: a single NaN on a right-stick axis makes the matching component of
    the head orientation NaN, and it is still NaN after any further frames,
    whatever the sticks read then. *)
Theorem nan_is_permanent (g : Gamepad) (gs : list Gamepad) (s : Store) :
  let s' := snd (frames (g :: gs) s) in
  ((axes g).[2] = nan -> (headRotation (this s')).[0] = nan) /\
  ((axes g).[3] = nan -> (headRotation (this s')).[1] = nan).
Proof.
  cbn [frames]. unfold bind. rewrite update_eq. split; intros H.
  - apply frames_head_nan; [lia|]. cbn [this robot_after headRotation].
    rewrite head_after_0, H, applyDeadzone_nan, scale_nan.
    apply accumulate_nan_delta.
  - apply frames_head_nan; [lia|]. cbn [this robot_after headRotation].
    rewrite head_after_1, H, applyDeadzone_nan, scale_nan.
    apply accumulate_nan_delta.
Qed.

Lemma nan_is_permanent_witness :
  let g := mkGamepad [of_Z 0; of_Z 0; nan; of_Z 1] in
  let g' := mkGamepad [of_Z 0; of_Z 0; of_Z (-1); of_Z 1] in
  let s := snd (frames [g; g'; g']
                  (mkStore (constructor_default "10.0.0.2") [] [])) in
  (headRotation (this s)).[0] = nan.
Proof.
  intros g g' s.
  exact (proj1 (nan_is_permanent g [g'; g']
                  (mkStore (constructor_default "10.0.0.2") [] [])) eq_refl).
Defined.

(** ** Missing axes *)

Lemma missing_axis (g : Gamepad) (i : nat) :
  (List.length (axes g) <= i)%nat -> (axes g).[i] = nan.
Proof. intros H. unfold arr_get. now apply nth_overflow. Qed.

(** X4: a gamepad that reports fewer than four axes: with at most two axes
    one frame turns both components of the head orientation into NaN; with
    at most one axis a drive command that is due carries NaN as its linear
    velocity, and with none both velocities are NaN. *)
Theorem short_gamepad_gives_nan (g : Gamepad) (s : Store) :
  let s' := snd (update g s) in
  let ip := ipAddress (this s) in
  ((List.length (axes g) <= 2)%nat ->
   (headRotation (this s')).[0] = nan /\ (headRotation (this s')).[1] = nan) /\
  ((List.length (axes g) <= 1)%nat -> due (framesToMoveBody (this s)) = true ->
   exists before ang,
     trace s' = (trace s ++ before ++ [DriveCommand ip nan ang])%list) /\
  (axes g = [] -> due (framesToMoveBody (this s)) = true ->
   exists before,
     trace s' = (trace s ++ before ++ [DriveCommand ip nan nan])%list).
Proof.
  cbv zeta. rewrite update_eq. cbn [snd this trace robot_after headRotation].
  split; [|split].
  - intros H. rewrite head_after_0, head_after_1.
    rewrite (missing_axis g 2), (missing_axis g 3) by lia.
    rewrite applyDeadzone_nan, scale_nan. split; apply accumulate_nan_delta.
  - intros H D. exists (head_events g (this s)). unfold drive_events.
    rewrite D, readAnalogSticks_spec. cbn [arr_get nth].
    fold (arr_get (axes g) 1). rewrite (missing_axis g 1) by lia.
    rewrite applyDeadzone_nan, mapAnalogValues_spec, scale_nan.
    cbn [arr_get nth]. eexists. reflexivity.
  - intros E D. exists (head_events g (this s)). unfold drive_events.
    rewrite D, readAnalogSticks_spec, E. cbn [arr_get nth].
    rewrite applyDeadzone_nan, mapAnalogValues_spec, scale_nan.
    reflexivity.
Qed.

Lemma short_gamepad_gives_nan_witness :
  let g := mkGamepad [decimal 5 1; decimal (-5) 1] in
  let s := snd (update g (mkStore (constructor_default "10.0.0.2") [] [])) in
  (headRotation (this s)).[0] = nan /\ (headRotation (this s)).[1] = nan.
Proof.
  intros g s.
  apply (proj1 (short_gamepad_gives_nan g
                  (mkStore (constructor_default "10.0.0.2") [] []))).
  cbn. lia.
Defined.

(** ** The sticks do not interfere *)

Lemma head_after_same (g g' : Gamepad) (r : Misty2Robot) :
  same_head_axes g g' -> head_after g r = head_after g' r.
Proof.
  intros [H2 H3]. unfold head_after. rewrite !readAnalogSticks_spec.
  cbn [arr_get nth]. fold (arr_get (axes g) 2) (arr_get (axes g) 3)
    (arr_get (axes g') 2) (arr_get (axes g') 3).
  now rewrite H2, H3.
Qed.

Lemma head_requests_events (g : Gamepad) (r : Misty2Robot) :
  head_requests (ipAddress r) (head_events g r ++ drive_events g r)
  = head_events g r.
Proof.
  unfold head_requests, head_events, drive_events, HeadCommand, DriveCommand.
  destruct (due (framesToMoveHead r)), (due (framesToMoveBody r)); cbn;
    rewrite ?String.eqb_refl, ?api_eqb; reflexivity.
Qed.

Lemma drive_requests_events (g : Gamepad) (r : Misty2Robot) :
  drive_requests (ipAddress r) (head_events g r ++ drive_events g r)
  = drive_events g r.
Proof.
  unfold drive_requests, head_events, drive_events, HeadCommand, DriveCommand.
  destruct (due (framesToMoveHead r)), (due (framesToMoveBody r)); cbn;
    rewrite ?String.eqb_refl, ?api_eqb; reflexivity.
Qed.

Lemma head_ignores_drive_axes_gen (gs gs' : list Gamepad) :
  Forall2 same_head_axes gs gs' ->
  forall s s' : Store,
    this s = this s' ->
    head_requests (ipAddress (this s)) (trace s)
    = head_requests (ipAddress (this s)) (trace s') ->
    this (snd (frames gs s)) = this (snd (frames gs' s')) /\
    head_requests (ipAddress (this s)) (trace (snd (frames gs s)))
    = head_requests (ipAddress (this s)) (trace (snd (frames gs' s'))).
Proof.
  induction 1 as [|g g' gs gs' Hg _ IH]; intros s s' Ht Htr; [now split|].
  cbn [frames]. unfold bind. rewrite !update_eq.
  set (s1 := mkStore _ _ _). set (s1' := mkStore _ _ _).
  assert (E1 : this s1 = this s1').
  { subst s1 s1'. cbn [this]. rewrite <- Ht. unfold robot_after.
    now rewrite (head_after_same g g' (this s) Hg). }
  assert (I : ipAddress (this s1) = ipAddress (this s)) by reflexivity.
  destruct (IH s1 s1' E1) as [A B].
  - rewrite I. subst s1 s1'. cbn [trace]. unfold head_requests in *.
    rewrite !filter_app.
    rewrite Htr. f_equal.
    rewrite <- Ht.
    pose proof (head_requests_events g (this s)) as P.
    pose proof (head_requests_events g' (this s)) as P'.
    unfold head_requests in P, P'. rewrite filter_app in P, P'.
    rewrite P, P'.
    unfold head_events.
    now rewrite (head_after_same g g' (this s) Hg).
  - rewrite I in B. split; assumption.
Qed.

Lemma drive_ignores_head_axes_gen (gs gs' : list Gamepad) :
  Forall2 same_drive_axes gs gs' ->
  forall s s' : Store,
    ipAddress (this s) = ipAddress (this s') ->
    deadzone (this s) = deadzone (this s') ->
    framesToMoveBody (this s) = framesToMoveBody (this s') ->
    drive_requests (ipAddress (this s)) (trace s)
    = drive_requests (ipAddress (this s)) (trace s') ->
    drive_requests (ipAddress (this s)) (trace (snd (frames gs s)))
    = drive_requests (ipAddress (this s)) (trace (snd (frames gs' s'))).
Proof.
  induction 1 as [|g g' gs gs' [H0 H1] _ IH]; intros s s' Hi Hd Hb Htr;
    [exact Htr|].
  cbn [frames]. unfold bind. rewrite !update_eq.
  set (s1 := mkStore _ _ _). set (s1' := mkStore _ _ _).
  assert (I : ipAddress (this s1) = ipAddress (this s)) by reflexivity.
  rewrite <- I. apply IH; subst s1 s1'; cbn [this trace robot_after ipAddress
    deadzone framesToMoveBody]; try congruence.
  unfold drive_requests in *. rewrite !filter_app. rewrite Htr. f_equal.
  pose proof (drive_requests_events g (this s)) as P.
  pose proof (drive_requests_events g' (this s')) as P'.
  unfold drive_requests in P, P'. rewrite filter_app in P, P'.
  rewrite <- Hi in P'. rewrite P, P'.
  unfold drive_events. rewrite <- Hi, <- Hd, <- Hb, !readAnalogSticks_spec.
  cbn [arr_get nth]. fold (arr_get (axes g) 0) (arr_get (axes g) 1)
    (arr_get (axes g') 0) (arr_get (axes g') 1).
  now rewrite H0, H1.
Qed.

(** X5: the two sticks do not interfere: two runs whose frames agree on the
    right stick end with the same object and the same head requests, and
    two runs whose frames agree on the left stick send the same drive
    requests. *)
Theorem sticks_do_not_interfere (gs gs' : list Gamepad) (s : Store) :
  let ip := ipAddress (this s) in
  (Forall2 same_head_axes gs gs' ->
   this (snd (frames gs s)) = this (snd (frames gs' s)) /\
   head_requests ip (trace (snd (frames gs s)))
   = head_requests ip (trace (snd (frames gs' s)))) /\
  (Forall2 same_drive_axes gs gs' ->
   drive_requests ip (trace (snd (frames gs s)))
   = drive_requests ip (trace (snd (frames gs' s)))).
Proof.
  split; intros H.
  - now apply head_ignores_drive_axes_gen.
  - now apply drive_ignores_head_axes_gen.
Qed.

Lemma sticks_do_not_interfere_witness :
  let g := mkGamepad [of_Z 1; decimal 5 1; decimal (-3) 1; of_Z 0] in
  let g' := mkGamepad [of_Z 0; of_Z (-1); decimal (-3) 1; of_Z 0] in
  let s := mkStore (constructor_default "10.0.0.2") [] [] in
  this (snd (frames [g; g] s)) = this (snd (frames [g'; g'] s)).
Proof.
  intros g g' s.
  apply (proj1 (sticks_do_not_interfere [g; g] [g'; g'] s)).
  repeat constructor.
Defined.

(** ** Sessions *)

(** X6: when the request itself is rejected (no response at all),
    [getVideoStream] and [restart] throw that rejection; the request is the
    only thing logged, no socket is created and the object is unchanged. *)
Theorem rejected_requests_throw
  (net : Transport) (parses : UrlParser) (s : Store) :
  (net (start_request (this s)) = Rejected ->
   getVideoStream net parses s =
   (Throw FetchRejected,
    mkStore (this s) (sockets s)
            (trace s ++ [Fetch (start_request (this s))]))) /\
  (net (reboot_request (this s)) = Rejected ->
   restart net s =
   (Throw FetchRejected,
    mkStore (this s) (sockets s)
            (trace s ++ [Fetch (reboot_request (this s))]))).
Proof.
  unfold start_request, reboot_request. split; intros H.
  - unfold getVideoStream, fetch_await, bind, read, emit, ret, throw.
    cbn [this sockets trace]. rewrite H. reflexivity.
  - unfold restart, fetch_await, bind, read, emit, ret, throw.
    cbn [this sockets trace]. rewrite H. reflexivity.
Qed.

Lemma rejected_requests_throw_witness :
  fst (getVideoStream (fun _ => Rejected) (fun _ => true)
         (mkStore (constructor_default "10.0.0.2") [] []))
  = Throw FetchRejected.
Proof.
  rewrite (proj1 (rejected_requests_throw (fun _ => Rejected) (fun _ => true)
                    (mkStore (constructor_default "10.0.0.2") [] []))
                 eq_refl).
  reflexivity.
Defined.

Lemma dispatch_close_open
  (cause : close_cause) (h : nat) (w : WebSocket) (ip : string) (s : Store) :
  nth_error (sockets s) h = Some w ->
  ws_state w = OPEN ->
  onclose w = Some (StopStreamOnClose ip) ->
  dispatch_close cause h s =
  (Normal tt,
   mkStore (this s)
     (update_nth (sockets s) h
        (fun w => mkWebSocket (ws_url w) (onclose w) CLOSED))
     (trace s ++ [Fetch (stop_request ip); ConsoleLog "Closed socket"])).
Proof.
  intros Hw Hopen Hclose.
  unfold dispatch_close. rewrite Hw, Hopen, Hclose.
  unfold run_closure, bind, fetch_forget, console_log, emit, stop_request. cbn.
  now rewrite <- app_assoc.
Qed.

Lemma nth_error_update_nth_other {A} (f : A -> A) (l : list A) :
  forall i j : nat, i <> j -> nth_error (update_nth l i f) j = nth_error l j.
Proof.
  induction l as [|y t IH]; intros [|i] [|j] H; cbn; try reflexivity;
    try congruence.
  apply IH. congruence.
Qed.

(** X7: where the start request is answered with 200 and the platform
    accepts the socket URL, a second [getVideoStream] opens a second socket
    and moves the [ws] field to it; the first socket stays open with its
    close handler, and closing both sends two stop requests. *)
Theorem second_session_keeps_first
  (net : Transport) (parses : UrlParser) (s : Store) :
  net (start_request (this s)) = Responded 200 ->
  parses ("ws://" ++ ipAddress (this s) ++ ":5678") = true ->
  let ip := ipAddress (this s) in
  let h1 := List.length (sockets s) in
  let s1 := snd (getVideoStream net parses s) in
  let s2 := snd (getVideoStream net parses s1) in
  fst (getVideoStream net parses s) = Normal h1 /\
  fst (getVideoStream net parses s1) = Normal (S h1) /\
  ws (this s2) = Some (S h1) /\
  sockets s2 = (sockets s ++ [session_socket ip; session_socket ip])%list /\
  trace s2 = (trace s ++ [Fetch (start_request (this s));
                          NewWebSocket ("ws://" ++ ip ++ ":5678");
                          Fetch (start_request (this s));
                          NewWebSocket ("ws://" ++ ip ++ ":5678")])%list /\
  forall c1 c2 : close_cause,
    let s3 := snd (dispatch_close c1 h1 s2) in
    let s4 := snd (dispatch_close c2 (S h1) s3) in
    trace s4 = (trace s2 ++ [Fetch (stop_request ip); ConsoleLog "Closed socket";
                             Fetch (stop_request ip); ConsoleLog "Closed socket"])%list.
Proof.
  intros H U ip h1 s1 s2.
  pose proof (getVideoStream_ok net parses s H U) as E1. cbv zeta in E1.
  assert (Es1 : s1 = mkStore (set_ws (Some h1) (this s))
                       (sockets s ++ [session_socket ip])
                       (trace s ++ [Fetch (start_request (this s));
                                    NewWebSocket ("ws://" ++ ip ++ ":5678")])).
  { unfold s1. rewrite E1. reflexivity. }
  assert (H1 : net (start_request (this s1)) = Responded 200).
  { rewrite Es1. exact H. }
  assert (U1 : parses ("ws://" ++ ipAddress (this s1) ++ ":5678") = true).
  { rewrite Es1. exact U. }
  pose proof (getVideoStream_ok net parses s1 H1 U1) as E2. cbv zeta in E2.
  assert (L1 : List.length (sockets s1) = S h1).
  { rewrite Es1. cbn [sockets]. rewrite length_app. cbn. unfold h1. lia. }
  assert (Es2 : s2 = mkStore (set_ws (Some (S h1)) (this s1))
                       (sockets s1 ++ [session_socket ip])
                       (trace s1 ++ [Fetch (start_request (this s));
                                     NewWebSocket ("ws://" ++ ip ++ ":5678")])).
  { unfold s2. rewrite E2, L1. rewrite Es1. reflexivity. }
  split; [now rewrite E1|]. split; [now rewrite E2, L1|].
  split; [now rewrite Es2|].
  assert (So : sockets s2
               = (sockets s ++ [session_socket ip; session_socket ip])%list).
  { rewrite Es2, Es1. cbn [sockets]. now rewrite <- app_assoc. }
  split; [exact So|].
  split; [rewrite Es2, Es1; cbn [trace]; now rewrite <- app_assoc|].
  intros c1 c2 s3 s4.
  assert (N1 : nth_error (sockets s2) h1 = Some (session_socket ip)).
  { rewrite So. rewrite nth_error_app2 by (unfold h1; lia).
    unfold h1. now rewrite Nat.sub_diag. }
  pose proof (dispatch_close_open c1 h1 (session_socket ip) ip s2 N1
                eq_refl eq_refl) as E3.
  assert (N2 : nth_error (sockets s3) (S h1) = Some (session_socket ip)).
  { unfold s3. rewrite E3. cbn [snd sockets].
    rewrite nth_error_update_nth_other by lia.
    rewrite So. rewrite nth_error_app2 by (unfold h1; lia).
    replace (S h1 - List.length (sockets s))%nat with 1%nat
      by (unfold h1; lia).
    reflexivity. }
  pose proof (dispatch_close_open c2 (S h1) (session_socket ip) ip s3 N2
                eq_refl eq_refl) as E4.
  unfold s4. rewrite E4. cbn [snd trace]. unfold s3. rewrite E3.
  cbn [snd trace]. now rewrite <- app_assoc.
Qed.

Lemma second_session_keeps_first_witness :
  let s := mkStore (constructor_default "10.0.0.2") [] [] in
  let net : Transport := fun _ => Responded 200 in
  let parses : UrlParser := fun u => String.eqb u "ws://10.0.0.2:5678" in
  ws (this (snd (getVideoStream net parses (snd (getVideoStream net parses s)))))
  = Some 1%nat.
Proof.
  intros s net parses.
  exact (proj1 (proj2 (proj2
           (second_session_keeps_first net parses s eq_refl eq_refl)))).
Defined.

(** ** Interval bounds through the scaling *)

Lemma lt_B2R (a b : number) :
  valid a = true -> valid b = true ->
  is_finite a = true -> is_finite b = true ->
  (lt a b = true <-> (B2R a < B2R b)%R).
Proof.
  intros Va Vb Fa Fb.
  destruct (SFcompare_finite prec emax a b Va Vb Fa Fb) as (c & Hc & Hs).
  unfold lt, SFltb. rewrite Hc. destruct c; split; intros H; try reflexivity;
    try discriminate; lra.
Qed.

Lemma scale_chain (v A1 B1 A2 B2 A3 B3 A4 B4 : number) :
  number_ok v ->
  number_ok A1 -> number_ok B1 -> number_ok A2 -> number_ok B2 ->
  number_ok A3 -> number_ok B3 -> number_ok A4 -> number_ok B4 ->
  (B2R A1 <= B2R v + 1 <= B2R B1)%R ->
  (B2R A2 <= B2R A1 / 2)%R -> (B2R B1 / 2 <= B2R B2)%R ->
  (B2R A3 <= B2R A2 * 200)%R -> (B2R B2 * 200 <= B2R B3)%R ->
  (B2R A4 <= B2R A3 - 100)%R -> (B2R B3 - 100 <= B2R B4)%R ->
  let r := add (mul (div (sub v (of_Z (-1))) (sub (of_Z 1) (of_Z (-1))))
                    (sub (of_Z 100) (of_Z (-100))))
               (of_Z (-100)) in
  number_ok r /\ r <> S754_zero true /\ (B2R A4 <= B2R r <= B2R B4)%R.
Proof.
  intros Ov OA1 OB1 OA2 OB2 OA3 OB3 OA4 OB4 H1 H2a H2b H3a H3b H4a H4b r.
  assert (Om1 : number_ok (of_Z (-1))) by (apply number_ok_const; reflexivity).
  assert (O2 : number_ok (sub (of_Z 1) (of_Z (-1))))
    by (apply number_ok_const; reflexivity).
  assert (O200 : number_ok (sub (of_Z 100) (of_Z (-100))))
    by (apply number_ok_const; reflexivity).
  assert (Om100 : number_ok (of_Z (-100))) by (apply number_ok_const; reflexivity).
  subst r.
  set (r1 := sub v (of_Z (-1))).
  destruct (sub_bounds v (of_Z (-1)) A1 B1 Ov Om1 OA1 OB1) as [K1 R1].
  { rewrite B2R_minus_one. lra. }
  fold r1 in K1, R1.
  set (r2 := div r1 (sub (of_Z 1) (of_Z (-1)))).
  destruct (div_bounds r1 (sub (of_Z 1) (of_Z (-1))) A2 B2
              K1 O2 eq_refl OA2 OB2) as [K2 R2].
  { rewrite B2R_two. lra. }
  fold r2 in K2, R2.
  set (r3 := mul r2 (sub (of_Z 100) (of_Z (-100)))).
  destruct (mul_bounds r2 (sub (of_Z 100) (of_Z (-100))) A3 B3
              K2 O200 OA3 OB3) as [K3 R3].
  { rewrite B2R_two_hundred. lra. }
  fold r3 in K3, R3.
  destruct (add_bounds r3 (of_Z (-100)) A4 B4 K3 Om100 OA4 OB4) as [K4 R4].
  { rewrite B2R_minus_hundred. lra. }
  split; [exact K4|]. split; [|exact R4].
  apply (SFadd_not_negzero prec emax prec_pos r3 (of_Z (-100)));
    try apply K3; try apply Om100; reflexivity.
Qed.

Lemma floor_between (r : number) (zl zh : Z) :
  number_ok r -> r <> S754_zero true ->
  -100 <= zl -> zh <= 100 ->
  (IZR zl <= B2R r <= IZR zh)%R ->
  exists z : Z, zl <= z <= zh /\ Math.floor r = of_Z z.
Proof.
  intros [V F] Nz Hl Hh HR.
  assert (L100 : (-100 <= IZR zl)%R) by (apply IZR_le in Hl; lra).
  assert (H100 : (IZR zh <= 100)%R) by (apply IZR_le in Hh; lra).
  destruct r as [[|]| | |s m e]; try discriminate; try congruence.
  - exists 0. cbn [B2R] in HR. destruct HR as [H1 H2].
    apply le_IZR in H1, H2. split; [lia | reflexivity].
  - unfold valid in V. cbn [valid_binary] in V.
    apply bounded_canonical in V as [C _].
    assert (He : e < 0).
    { destruct (Z_lt_le_dec e 0) as [|Hge]; [assumption|exfalso].
      destruct (canonical_normal prec emax _ _ C) as [_ D].
      { unfold emin, emax, prec. lia. }
      pose proof (F2R_digits_ge (Z.pos m) e eq_refl) as L. rewrite D in L.
      assert (B : (bpow 52 <= bpow (prec - 1 + e))%R)
        by (apply bpow_le; unfold prec; lia).
      rewrite (bpow_IZR 52) in B by lia.
      change (2 ^ 52) with 4503599627370496 in B.
      cbn [B2R] in HR. rewrite F2R_cond_Zopp in HR.
      destruct s; lra. }
    destruct e as [|p|p]; try lia.
    rewrite B2R_neg_exp in HR.
    assert (P : 0 < 2 ^ Z.pos p) by (apply Z.pow_pos_nonneg; lia).
    assert (PR : (0 < IZR (2 ^ Z.pos p))%R) by now apply IZR_lt.
    unfold Math.floor.
    rewrite Z.shiftr_div_pow2, Z.shiftl_mul_pow2 by lia.
    set (q := Z.pos m / 2 ^ Z.pos p).
    pose proof (Z.div_mod (Z.pos m) (2 ^ Z.pos p) ltac:(lia)) as DM.
    pose proof (Z.mod_pos_bound (Z.pos m) (2 ^ Z.pos p) P) as MB.
    fold q in DM.
    assert (Q0 : 0 <= q) by (apply Z.div_pos; lia).
    destruct HR as [H1 H2].
    apply (Rmult_le_compat_r (IZR (2 ^ Z.pos p))) in H1; [|lra].
    apply (Rmult_le_compat_r (IZR (2 ^ Z.pos p))) in H2; [|lra].
    unfold Rdiv in H1, H2. rewrite Rmult_assoc, Rinv_l, Rmult_1_r in H1, H2 by lra.
    rewrite <- mult_IZR in H1, H2. apply le_IZR in H1, H2.
    destruct s; cbn [cond_Zopp] in H1, H2.
    + destruct (Z.eqb_spec (q * 2 ^ Z.pos p) (Z.pos m)) as [E|NE].
      * exists (- q). split; [nia | reflexivity].
      * exists (- (q + 1)). split; [nia | reflexivity].
    + exists q. split; [nia | reflexivity].
Qed.

Lemma B2R_zero : B2R (S754_zero false) = 0%R.
Proof. reflexivity. Qed.

Lemma B2R_17_16 : B2R (div (of_Z 17) (of_Z 16)) = (17 / 16)%R.
Proof. b2r_const. Qed.
Lemma B2R_17_32 : B2R (div (of_Z 17) (of_Z 32)) = (17 / 32)%R.
Proof. b2r_const. Qed.
Lemma B2R_425_4 : B2R (div (of_Z 425) (of_Z 4)) = (425 / 4)%R.
Proof. b2r_const. Qed.
Lemma B2R_25_4 : B2R (div (of_Z 25) (of_Z 4)) = (25 / 4)%R.
Proof. b2r_const. Qed.
Lemma B2R_15_16 : B2R (div (of_Z 15) (of_Z 16)) = (15 / 16)%R.
Proof. b2r_const. Qed.
Lemma B2R_15_32 : B2R (div (of_Z 15) (of_Z 32)) = (15 / 32)%R.
Proof. b2r_const. Qed.
Lemma B2R_375_4 : B2R (div (of_Z 375) (of_Z 4)) = (375 / 4)%R.
Proof. b2r_const. Qed.
Lemma B2R_m25_4 : B2R (div (of_Z (-25)) (of_Z 4)) = (- 25 / 4)%R.
Proof. b2r_const. Qed.
Lemma B2R_half : B2R (div (of_Z 1) (of_Z 2)) = (1 / 2)%R.
Proof. b2r_const. Qed.
Lemma B2R_deadzone : (1 / 16 <= B2R (decimal 1 1) <= 1 / 8)%R.
Proof.
  rewrite decimal_0_1, B2R_neg_exp. cbn [cond_Zopp].
  change (2 ^ 56) with 72057594037927936. lra.
Qed.
Lemma B2R_neg_deadzone : B2R (neg (decimal 1 1)) = (- B2R (decimal 1 1))%R.
Proof. unfold neg. apply B2R_opp. Qed.

Ltac ok_const := apply number_ok_const; reflexivity.

Lemma B2R_zero_inv (v : number) :
  number_ok v -> B2R v = 0%R -> exists s, v = S754_zero s.
Proof.
  intros [_ F] H. destruct v as [s| | |s m e]; try discriminate.
  - now exists s.
  - cbn [B2R] in H. rewrite F2R_cond_Zopp in H.
    pose proof (F2R_pos (Z.pos m) e eq_refl). destruct s; lra.
Qed.

(** The scaled value on four parts of [-1, 1]. *)
Lemma scale_parts (v : number) :
  number_ok v -> (-1 <= B2R v <= 1)%R ->
  exists z : Z,
    scale v = of_Z z /\ -100 <= z <= 100 /\
    ((0 <= B2R v)%R -> 0 <= z) /\
    ((B2R v <= 0)%R -> z <= 0) /\
    ((1 / 16 <= B2R v)%R -> 6 <= z) /\
    ((B2R v <= - 1 / 16)%R -> z <= -6).
Proof.
  intros Ov Hv.
  assert (O0 : number_ok (S754_zero false)) by ok_const.
  assert (O1 : number_ok (of_Z 1)) by ok_const.
  assert (O2 : number_ok (sub (of_Z 1) (of_Z (-1)))) by ok_const.
  assert (O200 : number_ok (sub (of_Z 100) (of_Z (-100)))) by ok_const.
  assert (O100 : number_ok (of_Z 100)) by ok_const.
  assert (Om100 : number_ok (of_Z (-100))) by ok_const.
  assert (Oh : number_ok (div (of_Z 1) (of_Z 2))) by ok_const.
  destruct (Rle_lt_dec (1 / 16) (B2R v)) as [C1|C1].
  { (* well to the right *)
    destruct (scale_chain v (div (of_Z 17) (of_Z 16)) (sub (of_Z 1) (of_Z (-1)))
                (div (of_Z 17) (of_Z 32)) (of_Z 1)
                (div (of_Z 425) (of_Z 4)) (sub (of_Z 100) (of_Z (-100)))
                (div (of_Z 25) (of_Z 4)) (of_Z 100)) as (K & N & R);
      try assumption; try ok_const;
      rewrite ?B2R_17_16, ?B2R_17_32, ?B2R_425_4, ?B2R_25_4, ?B2R_two,
        ?B2R_one, ?B2R_two_hundred, ?B2R_hundred; try lra.
    rewrite B2R_25_4, B2R_hundred in R.
    destruct (floor_between _ 6 100 K N) as (z & Hz & E); try lia; [lra|].
    exists z. split; [exact E|]. repeat split; intros; try lia; lra. }
  destruct (Rle_lt_dec (B2R v) (- 1 / 16)) as [C2|C2].
  { (* well to the left *)
    destruct (scale_chain v (S754_zero false) (div (of_Z 15) (of_Z 16))
                (S754_zero false) (div (of_Z 15) (of_Z 32))
                (S754_zero false) (div (of_Z 375) (of_Z 4))
                (of_Z (-100)) (div (of_Z (-25)) (of_Z 4))) as (K & N & R);
      try assumption; try ok_const;
      rewrite ?B2R_zero, ?B2R_15_16, ?B2R_15_32, ?B2R_375_4, ?B2R_m25_4,
        ?B2R_minus_hundred; try lra.
    rewrite B2R_m25_4, B2R_minus_hundred in R.
    destruct (floor_between _ (-100) (-6) K N) as (z & Hz & E); try lia; [lra|].
    exists z. split; [exact E|]. repeat split; intros; try lia; lra. }
  destruct (Rtotal_order (B2R v) 0) as [C3|[C3|C3]].
  - (* just left of zero *)
    destruct (scale_chain v (S754_zero false) (of_Z 1)
                (S754_zero false) (div (of_Z 1) (of_Z 2))
                (S754_zero false) (of_Z 100)
                (of_Z (-100)) (S754_zero false)) as (K & N & R);
      try assumption; try ok_const;
      rewrite ?B2R_zero, ?B2R_one, ?B2R_half, ?B2R_hundred,
        ?B2R_minus_hundred; try lra.
    rewrite B2R_zero, B2R_minus_hundred in R.
    destruct (floor_between _ (-100) 0 K N) as (z & Hz & E); try lia; [lra|].
    exists z. split; [exact E|]. repeat split; intros; try lia; lra.
  - destruct (B2R_zero_inv v Ov C3) as [s ->].
    exists 0. split; [destruct s; reflexivity|]. repeat split; intros; try lia; lra.
  - (* just right of zero *)
    destruct (scale_chain v (of_Z 1) (sub (of_Z 1) (of_Z (-1)))
                (div (of_Z 1) (of_Z 2)) (of_Z 1)
                (of_Z 100) (sub (of_Z 100) (of_Z (-100)))
                (S754_zero false) (of_Z 100)) as (K & N & R);
      try assumption; try ok_const;
      rewrite ?B2R_zero, ?B2R_one, ?B2R_half, ?B2R_hundred, ?B2R_two,
        ?B2R_two_hundred; try lra.
    rewrite B2R_zero, B2R_hundred in R.
    destruct (floor_between _ 0 100 K N) as (z & Hz & E); try lia; [lra|].
    exists z. split; [exact E|]. repeat split; intros; try lia; lra.
Qed.

(** ** Integers between -100 and 100 as numbers *)

Lemma of_Z_table :
  forallb (fun k : nat =>
             let z := Z.of_nat k - 100 in
             valid (of_Z z) && is_finite (of_Z z)
             && le (of_Z (-100)) (of_Z z) && le (of_Z z) (of_Z 100)
             && (if z <? 0 then le (of_Z z) (of_Z (-1))
                 else if z =? 0 then same (of_Z z) (S754_zero false)
                      else le (of_Z 1) (of_Z z))
             && ((z =? 0) || same (neg (of_Z z)) (of_Z (- z))))%Z
          (seq 0 201) = true.
Proof. vm_compute. reflexivity. Qed.

Lemma of_Z_small (z : Z) :
  -100 <= z <= 100 ->
  number_ok (of_Z z) /\
  (-100 <= B2R (of_Z z) <= 100)%R /\
  (z < 0 -> (B2R (of_Z z) <= -1)%R) /\
  (z = 0 -> of_Z z = S754_zero false) /\
  (0 < z -> (1 <= B2R (of_Z z))%R) /\
  (z <> 0 -> neg (of_Z z) = of_Z (- z)).
Proof.
  intros Hz.
  pose proof of_Z_table as T. rewrite forallb_forall in T.
  specialize (T (Z.to_nat (z + 100))).
  assert (I : In (Z.to_nat (z + 100)) (seq 0 201)) by (apply in_seq; lia).
  specialize (T I). cbv zeta in T.
  replace (Z.of_nat (Z.to_nat (z + 100)) - 100) with z in T by lia.
  repeat (apply andb_prop in T; destruct T as [T ?]).
  assert (O : number_ok (of_Z z)) by (split; assumption).
  assert (Om : number_ok (of_Z (-100))) by ok_const.
  assert (Oh : number_ok (of_Z 100)) by ok_const.
  split; [exact O|]. split.
  { split.
    - rewrite <- B2R_minus_hundred. apply le_B2R; try apply O; try apply Om. assumption.
    - rewrite <- B2R_hundred. apply le_B2R; try apply O; try apply Oh. assumption. }
  split; [|split; [|split]].
  - intros Hn. destruct (Z.ltb_spec z 0); [|lia].
    rewrite <- B2R_minus_one. apply le_B2R; try apply O; try reflexivity. assumption.
  - intros ->. reflexivity.
  - intros Hp. destruct (Z.ltb_spec z 0); [lia|].
    destruct (Z.eqb_spec z 0); [lia|].
    rewrite <- B2R_one. apply le_B2R; try apply O; try reflexivity. assumption.
  - intros Hn. destruct (Z.eqb_spec z 0); [lia|].
    apply same_eq. assumption.
Qed.

(** ** A stick axis through the deadzone filter and the scaling *)

Lemma axis_in_unit_B2R (a : number) :
  axis_in_unit a -> number_ok a /\ (-1 <= B2R a <= 1)%R.
Proof.
  intros (V & L & U).
  assert (F : is_finite a = true) by (apply le_one_finite; assumption).
  split; [split; assumption|].
  rewrite <- B2R_minus_one, <- B2R_one.
  split; apply le_B2R; try assumption; reflexivity.
Qed.

Lemma applyDeadzone_cases (v d : number) :
  (lt v d && gt v (neg d) = true /\ applyDeadzone v d = of_Z 0) \/
  (lt v d && gt v (neg d) = false /\ applyDeadzone v d = v).
Proof.
  unfold applyDeadzone. destruct (lt v d && gt v (neg d)); [left|right]; now split.
Qed.

Lemma scale_applyDeadzone_range (v d : number) :
  axis_in_unit v ->
  exists z : Z, -100 <= z <= 100 /\ scale (applyDeadzone v d) = of_Z z.
Proof.
  intros (V & L & U).
  destruct (applyDeadzone_cases v d) as [[_ ->]|[_ ->]].
  - exists 0. split; [lia | reflexivity].
  - now apply scale_range.
Qed.

(** X8: a stick axis in [-1, 1], filtered with the deadzone 0.1 and scaled, is
    an integer between -100 and 100; it is zero exactly when the axis is
    strictly inside the deadzone, at least 6 when the axis is at or above
    0.1 and at most -6 when it is at or below -0.1. *)
Theorem stick_response (v : number) :
  axis_in_unit v ->
  exists z : Z,
    scale (applyDeadzone v (decimal 1 1)) = of_Z z /\ -100 <= z <= 100 /\
    (z = 0 <-> lt v (decimal 1 1) && gt v (neg (decimal 1 1)) = true) /\
    (le (decimal 1 1) v = true -> 6 <= z) /\
    (le v (neg (decimal 1 1)) = true -> z <= -6).
Proof.
  intros H. destruct (axis_in_unit_B2R v H) as [[V F] Hv].
  pose proof B2R_deadzone as D. pose proof B2R_neg_deadzone as ND.
  assert (Lt : lt v (decimal 1 1) = true <-> (B2R v < B2R (decimal 1 1))%R)
    by (apply lt_B2R; try assumption; reflexivity).
  assert (Gt : gt v (neg (decimal 1 1)) = true <->
               (B2R (neg (decimal 1 1)) < B2R v)%R)
    by (apply lt_B2R; try assumption; reflexivity).
  assert (Le : le (decimal 1 1) v = true <-> (B2R (decimal 1 1) <= B2R v)%R)
    by (apply le_B2R; try assumption; reflexivity).
  assert (Ge : le v (neg (decimal 1 1)) = true <->
               (B2R v <= B2R (neg (decimal 1 1)))%R)
    by (apply le_B2R; try assumption; reflexivity).
  destruct (applyDeadzone_cases v (decimal 1 1)) as [[C ->]|[C ->]].
  - exists 0. split; [reflexivity|]. split; [lia|].
    split; [split; [intros _; exact C | reflexivity]|].
    apply andb_prop in C as [C1 C2]. apply Lt in C1. apply Gt in C2.
    split; intros K; [apply Le in K | apply Ge in K]; exfalso; lra.
  - destruct (scale_parts v (conj V F) Hv) as (z & E & R & _ & _ & P & N).
    exists z. split; [exact E|]. split; [exact R|].
    assert (Z6 : 6 <= z \/ z <= -6).
    { apply andb_false_iff in C as [C|C].
      - left. apply P.
        destruct (Rle_lt_dec (B2R (decimal 1 1)) (B2R v)) as [|K]; [lra|].
        apply Lt in K. congruence.
      - right. apply N.
        destruct (Rle_lt_dec (B2R v) (B2R (neg (decimal 1 1)))) as [|K]; [lra|].
        apply Gt in K. congruence. }
    split; [split; [lia | intros K; rewrite K in C; discriminate]|].
    split; intros K; [apply Le in K; apply P | apply Ge in K; apply N]; lra.
Qed.

Lemma stick_response_witness :
  exists z : Z,
    scale (applyDeadzone (decimal (-25) 2) (decimal 1 1)) = of_Z z /\
    -100 <= z <= 100.
Proof.
  destruct (stick_response (decimal (-25) 2)) as (z & E & R & _).
  - split; [|split]; reflexivity.
  - exists z. split; assumption.
Defined.

(** ** The velocities of the drive commands *)

Lemma drive_events_small (g : Gamepad) (r : Misty2Robot) :
  unit_drive_axes g ->
  forall (ip : string) (lin ang : number),
    In (DriveCommand ip lin ang) (head_events g r ++ drive_events g r) ->
    small_integer lin /\ small_integer ang.
Proof.
  intros [H0 H1] ip lin ang I. apply in_app_or in I as [I|I].
  - unfold head_events in I. destruct (due _); [|contradiction].
    destruct I as [I|[]]. discriminate I.
  - unfold drive_events in I. destruct (due _); [|contradiction].
    destruct I as [I|[]].
    rewrite readAnalogSticks_spec, mapAnalogValues_spec in I.
    cbn [arr_get nth] in I. injection I as _ <- <-.
    destruct (scale_applyDeadzone_range _ (deadzone r) H0) as (z0 & R0 & E0).
    destruct (scale_applyDeadzone_range _ (deadzone r) H1) as (z1 & R1 & E1).
    split; [exists z1 | exists z0]; split; assumption.
Qed.

(** X9: while the left stick stays in [-1, 1], every drive command that a
    run of frames sends carries two integers between -100 and 100, whatever
    the state the run starts from. *)
Theorem drive_commands_in_range (gs : list Gamepad) :
  Forall unit_drive_axes gs ->
  forall s : Store,
  exists evs : list event,
    trace (snd (frames gs s)) = (trace s ++ evs)%list /\
    forall (ip : string) (lin ang : number),
      In (DriveCommand ip lin ang) evs ->
      small_integer lin /\ small_integer ang.
Proof.
  induction 1 as [|g gs Hg _ IH]; intros s.
  - exists []. cbn. rewrite app_nil_r. split; [reflexivity | intros ? ? ? []].
  - cbn [frames]. unfold bind. rewrite update_eq.
    destruct (IH (mkStore (robot_after g (this s)) (sockets s)
                    (trace s ++ head_events g (this s) ++ drive_events g (this s))))
      as (evs & T & P).
    exists ((head_events g (this s) ++ drive_events g (this s)) ++ evs)%list.
    split.
    + rewrite T. cbn [trace]. now rewrite <- !app_assoc.
    + intros ip lin ang I. apply in_app_or in I as [I|I].
      * exact (drive_events_small g (this s) Hg ip lin ang I).
      * exact (P ip lin ang I).
Qed.

Lemma drive_commands_in_range_witness :
  let g := mkGamepad [decimal 37 2; of_Z (-1)] in
  let s := mkStore (set_framesToMoveBody (of_Z 178)
                      (constructor_default "10.0.0.2")) [] [] in
  exists evs : list event,
    trace (snd (frames [g; g; g] s)) = evs /\
    forall (ip : string) (lin ang : number),
      In (DriveCommand ip lin ang) evs ->
      small_integer lin /\ small_integer ang.
Proof.
  intros g s.
  destruct (drive_commands_in_range [g; g; g]) with (s := s) as (evs & T & P).
  - repeat constructor.
  - exists evs. split; [exact T | exact P].
Defined.

(** ** The angles of the head commands *)

Lemma trunc_range (r : number) :
  number_ok r -> (-100 <= B2R r <= 100)%R ->
  exists z : Z, -100 <= z <= 100 /\
                (Math.trunc r = of_Z z \/ (z = 0 /\ Math.trunc r = S754_zero true)).
Proof.
  intros [V F] HR.
  destruct r as [[|]| | |s m e]; try discriminate.
  - exists 0. split; [lia|]. right. now split.
  - exists 0. split; [lia|]. left. reflexivity.
  - unfold valid in V. cbn [valid_binary] in V.
    apply bounded_canonical in V as [C _].
    assert (He : e < 0).
    { destruct (Z_lt_le_dec e 0) as [|Hge]; [assumption|exfalso].
      destruct (canonical_normal prec emax _ _ C) as [_ D].
      { unfold emin, emax, prec. lia. }
      pose proof (F2R_digits_ge (Z.pos m) e eq_refl) as L. rewrite D in L.
      assert (B : (bpow 52 <= bpow (prec - 1 + e))%R)
        by (apply bpow_le; unfold prec; lia).
      rewrite (bpow_IZR 52) in B by lia.
      change (2 ^ 52) with 4503599627370496 in B.
      cbn [B2R] in HR. rewrite F2R_cond_Zopp in HR.
      destruct s; lra. }
    destruct e as [|p|p]; try lia.
    rewrite B2R_neg_exp in HR.
    assert (P : 0 < 2 ^ Z.pos p) by (apply Z.pow_pos_nonneg; lia).
    assert (PR : (0 < IZR (2 ^ Z.pos p))%R) by now apply IZR_lt.
    unfold Math.trunc.
    rewrite Z.shiftr_div_pow2 by lia.
    set (q := Z.pos m / 2 ^ Z.pos p).
    pose proof (Z.div_mod (Z.pos m) (2 ^ Z.pos p) ltac:(lia)) as DM.
    pose proof (Z.mod_pos_bound (Z.pos m) (2 ^ Z.pos p) P) as MB.
    fold q in DM.
    assert (Q0 : 0 <= q) by (apply Z.div_pos; lia).
    destruct HR as [H1 H2].
    apply (Rmult_le_compat_r (IZR (2 ^ Z.pos p))) in H1; [|lra].
    apply (Rmult_le_compat_r (IZR (2 ^ Z.pos p))) in H2; [|lra].
    unfold Rdiv in H1, H2. rewrite Rmult_assoc, Rinv_l, Rmult_1_r in H1, H2 by lra.
    rewrite <- mult_IZR in H1, H2. apply le_IZR in H1, H2.
    destruct (Z.eqb_spec q 0) as [E0|N0].
    + exists 0. split; [lia|]. destruct s; [right | left]; now split.
    + destruct s; cbn [cond_Zopp] in H1, H2.
      * exists (- q). split; [nia | now left].
      * exists q. split; [nia | now left].
Qed.

Lemma neg_small (x : number) :
  small_integer_or_negzero x -> small_integer_or_negzero (neg x).
Proof.
  intros [(z & R & ->)| ->].
  - destruct (Z.eq_dec z 0) as [->|N].
    + right. reflexivity.
    + left. exists (- z). split; [lia|].
      now apply (of_Z_small z R).
  - left. exists 0. split; [lia | reflexivity].
Qed.

Lemma in_range_B2R (h : number) :
  valid h = true -> in_range h = true ->
  number_ok h /\ (-100 <= B2R h <= 100)%R.
Proof.
  intros V I. pose proof (in_range_finite h I) as F.
  apply andb_prop in I as [L U].
  split; [split; assumption|].
  rewrite <- B2R_minus_hundred, <- B2R_hundred.
  split; apply le_B2R; try assumption; reflexivity.
Qed.

Lemma trunc_head (h : number) :
  head_inv h -> h <> nan -> small_integer_or_negzero (Math.trunc h).
Proof.
  intros I N. pose proof (head_inv_range h I N) as R.
  destruct I as (V & _ & _).
  destruct (in_range_B2R h V R) as [O B].
  destruct (trunc_range h O B) as (z & Rz & [E|[_ E]]).
  - left. now exists z.
  - now right.
Qed.

Lemma head_events_small (g : Gamepad) (r : Misty2Robot) :
  robot_inv (robot_after g r) -> head_is_number (robot_after g r) ->
  forall (ip : string) (p y v : number),
    In (HeadCommand ip p y v) (head_events g r ++ drive_events g r) ->
    small_integer_or_negzero p /\ small_integer_or_negzero y /\ v = of_Z 100.
Proof.
  intros (a & b & E & Ia & Ib & _) [Na Nb] ip p y v I.
  cbn [robot_after headRotation] in E, Na, Nb. rewrite E in Na, Nb.
  cbn [arr_get nth] in Na, Nb.
  apply in_app_or in I as [I|I].
  - unfold head_events in I. destruct (due _); [|contradiction].
    destruct I as [I|[]]. rewrite E in I. cbn [arr_get nth] in I.
    injection I as _ <- <- <-.
    split; [|split; [|reflexivity]].
    + now apply trunc_head.
    + now apply neg_small, trunc_head.
  - unfold drive_events in I. destruct (due _); [|contradiction].
    destruct I as [I|[]]. discriminate I.
Qed.

Lemma frames_head_small (gs : list Gamepad) :
  Forall head_axes_are_numbers gs ->
  forall s : Store,
    robot_inv (this s) -> head_is_number (this s) ->
    exists evs : list event,
      trace (snd (frames gs s)) = (trace s ++ evs)%list /\
      forall (ip : string) (p y v : number),
        In (HeadCommand ip p y v) evs ->
        small_integer_or_negzero p /\ small_integer_or_negzero y /\ v = of_Z 100.
Proof.
  induction 1 as [|g gs Hg _ IH]; intros s Hr Hn.
  - exists []. cbn. rewrite app_nil_r. split; [reflexivity | intros ? ? ? ? []].
  - cbn [frames]. unfold bind. rewrite update_eq.
    destruct (robot_inv_step g (this s) Hr) as [Hr' Hn'].
    specialize (Hn' Hg Hn).
    destruct (IH (mkStore (robot_after g (this s)) (sockets s)
                    (trace s ++ head_events g (this s) ++ drive_events g (this s)))
                Hr' Hn')
      as (evs & T & P).
    exists ((head_events g (this s) ++ drive_events g (this s)) ++ evs)%list.
    split.
    + rewrite T. cbn [trace]. now rewrite <- !app_assoc.
    + intros ip p y v I. apply in_app_or in I as [I|I].
      * exact (head_events_small g (this s) Hr' Hn' ip p y v I).
      * exact (P ip p y v I).
Qed.

(** X10: from a new robot, while the right stick never reads NaN, every head
    command that is sent carries velocity 100 and a pitch and a yaw that are
    integers between -100 and 100 (or the negative zero). *)
Theorem head_commands_in_range
  (ip : string) (vq w h : number) (socks : list WebSocket) (tr : list event)
  (gs : list Gamepad) :
  Forall head_axes_are_numbers gs ->
  exists evs : list event,
    trace (snd (frames gs (mkStore (constructor ip vq w h) socks tr)))
    = (tr ++ evs)%list /\
    forall (ip' : string) (p y v : number),
      In (HeadCommand ip' p y v) evs ->
      small_integer_or_negzero p /\ small_integer_or_negzero y /\ v = of_Z 100.
Proof.
  intros H.
  apply (frames_head_small gs H (mkStore (constructor ip vq w h) socks tr)).
  - apply robot_inv_constructor.
  - split; discriminate.
Qed.

Lemma head_commands_in_range_witness :
  let g := mkGamepad [of_Z 0; of_Z 0; decimal 3 1; S754_infinity true] in
  exists evs : list event,
    trace (snd (frames (repeat g 180)
                  (mkStore (constructor_default "10.0.0.2") [] []))) = evs /\
    forall (ip' : string) (p y v : number),
      In (HeadCommand ip' p y v) evs ->
      small_integer_or_negzero p /\ small_integer_or_negzero y /\ v = of_Z 100.
Proof.
  intros g.
  destruct (head_commands_in_range "10.0.0.2" (of_Z 100) (of_Z 400) (of_Z 540)
              [] [] (repeat g 180)) as (evs & T & P).
  - apply Forall_forall. intros x I. apply repeat_spec in I. subst x.
    split; discriminate.
  - exists evs. split; [exact T | exact P].
Defined.

(** ** The clamp with any bounds *)

Lemma le_reflexive (x : number) : x <> nan -> le x x = true.
Proof.
  intros N. unfold le, SFleb. rewrite SFcompare_refl, is_nan_false; trivial.
Qed.

Lemma le_not_lt (a b : number) : le a b = true -> lt b a = false.
Proof.
  unfold le, lt, SFleb, SFltb. rewrite (SFcompare_antisym a b).
  destruct (SFcompare a b) as [[]|]; cbn; congruence.
Qed.

Lemma compare_Eq_le (a b : number) :
  SFcompare a b = Some Eq -> le a b = true /\ le b a = true /\ eq a b = true.
Proof.
  intros E. pose proof (SFcompare_Eq_sym a b E) as E'.
  unfold le, eq, SFleb, SFeqb. now rewrite E, E'.
Qed.

Lemma compare_Eq_left (a b c : number) :
  SFcompare a b = Some Eq -> SFcompare a c = SFcompare b c.
Proof.
  intros E. destruct (SFcompare_Eq_inv a b E) as [(s1 & s2 & -> & ->)|[-> _]].
  - destruct c; reflexivity.
  - reflexivity.
Qed.

Lemma compare_Eq_right (a b c : number) :
  SFcompare a b = Some Eq -> SFcompare c a = SFcompare c b.
Proof.
  intros E. destruct (SFcompare_Eq_inv a b E) as [(s1 & s2 & -> & ->)|[-> _]].
  - destruct c; reflexivity.
  - reflexivity.
Qed.

(** [Math.min] of two numbers: one of them, not above the second, and equal
    to the first when the first is not above the second. *)
Lemma Math_min_spec (a b : number) :
  a <> nan -> b <> nan ->
  (Math.min a b = a \/ Math.min a b = b) /\
  le (Math.min a b) b = true /\
  (le a b = true -> SFcompare (Math.min a b) a = Some Eq).
Proof.
  intros Na Nb. unfold Math.min.
  rewrite (is_nan_false a Na), (is_nan_false b Nb). cbn [orb].
  destruct (lt a b) eqn:L1.
  - split; [now left|]. split; [now apply lt_le|].
    intros _. now rewrite SFcompare_refl, is_nan_false.
  - destruct (lt b a) eqn:L2.
    + split; [now right|]. split; [now apply le_reflexive|].
      intros K. apply le_not_lt in K. congruence.
    + pose proof (not_lt_eq a b Na Nb L1 L2) as E.
      destruct (compare_Eq_le a b E) as (K1 & K2 & _).
      split; [destruct a as [[|]| | |]; auto|].
      split.
      * destruct a as [[|]| | |]; trivial; now apply le_reflexive.
      * intros _. destruct a as [[|]| | |];
          try (now apply SFcompare_Eq_sym);
          now rewrite SFcompare_refl, is_nan_false.
Qed.

Lemma Math_max_spec (a b : number) :
  a <> nan -> b <> nan ->
  (Math.max a b = a \/ Math.max a b = b) /\
  le a (Math.max a b) = true /\
  (le a b = true -> SFcompare (Math.max a b) b = Some Eq).
Proof.
  intros Na Nb. unfold Math.max.
  rewrite (is_nan_false a Na), (is_nan_false b Nb). cbn [orb].
  destruct (lt b a) eqn:L1.
  - split; [now left|]. split; [now apply le_reflexive|].
    intros K. apply le_not_lt in K. congruence.
  - destruct (lt a b) eqn:L2.
    + split; [now right|]. split; [now apply lt_le|].
      intros _. now rewrite SFcompare_refl, is_nan_false.
    + pose proof (not_lt_eq a b Na Nb L2 L1) as E.
      destruct (compare_Eq_le a b E) as (K1 & K2 & _).
      split; [destruct a as [[|]| | |]; auto|].
      split.
      * destruct a as [[|]| | |]; trivial; now apply le_reflexive.
      * intros _. destruct a as [[|]| | |]; trivial;
          now rewrite SFcompare_refl, is_nan_false.
Qed.

Lemma clamp_spec (value lo hi : number) :
  value <> nan -> lo <> nan -> hi <> nan -> le lo hi = true ->
  let r := clamp value lo hi in
  le lo r = true /\ le r hi = true /\ (r = value \/ r = lo \/ r = hi) /\
  (le lo value = true -> le value hi = true -> eq r value = true).
Proof.
  intros Nv Nl Nh Hlh r. subst r. unfold clamp.
  destruct (Math_min_spec value hi Nv Nh) as (M1 & M2 & M3).
  set (y := Math.min value hi) in *.
  assert (Ny : y <> nan) by (destruct M1 as [-> | ->]; assumption).
  destruct (Math_max_spec lo y Nl Ny) as (X1 & X2 & X3).
  set (r := Math.max lo y) in *.
  split; [exact X2|]. split; [|split].
  - destruct X1 as [-> | ->]; assumption.
  - destruct X1 as [-> | ->]; [auto|]. destruct M1 as [-> | ->]; auto.
  - intros Hl Hu. specialize (M3 Hu).
    assert (L : le lo y = true).
    { unfold le, SFleb in *. now rewrite (compare_Eq_right y value lo M3). }
    specialize (X3 L).
    unfold eq, SFeqb. rewrite (compare_Eq_left r y value X3). now rewrite M3.
Qed.

(** X11: [clamp] with any bounds: NaN as soon as one of the three arguments
    is NaN; otherwise, when [min] is not above [max], the result is one of
    the three arguments, lies between the bounds, and equals the value when
    the value already lies between them. *)
Theorem clamp_contract (value lo hi : number) :
  (is_nan value || is_nan lo || is_nan hi = true -> clamp value lo hi = nan) /\
  (value <> nan -> lo <> nan -> hi <> nan -> le lo hi = true ->
   let r := clamp value lo hi in
   le lo r = true /\ le r hi = true /\ (r = value \/ r = lo \/ r = hi) /\
   (le lo value = true -> le value hi = true -> eq r value = true)).
Proof.
  split; [|apply clamp_spec].
  unfold clamp, Math.max, Math.min. intros H.
  destruct value; try reflexivity; destruct hi; try reflexivity;
    destruct lo; try reflexivity; try discriminate H;
    cbn [is_nan orb]; now destruct (lt _ _); [|destruct (lt _ _)].
Qed.

Lemma clamp_contract_witness :
  let r := clamp (decimal 75 1) (of_Z (-3)) (decimal 25 1) in
  le (of_Z (-3)) r = true /\ le r (decimal 25 1) = true.
Proof.
  intros r.
  destruct (clamp_contract (decimal 75 1) (of_Z (-3)) (decimal 25 1))
    as [_ H].
  destruct H as (L & U & _); try discriminate; try reflexivity.
  split; [exact L | exact U].
Defined.

(** ** The direction in which the head turns *)

Lemma number_ok_not_nan (x : number) : number_ok x -> x <> nan.
Proof. intros [_ F] ->. discriminate F. Qed.

Lemma min_B2R (a b : number) :
  number_ok a -> number_ok b ->
  number_ok (Math.min a b) /\ B2R (Math.min a b) = Rmin (B2R a) (B2R b).
Proof.
  intros Oa Ob.
  pose proof (number_ok_not_nan a Oa) as Na.
  pose proof (number_ok_not_nan b Ob) as Nb.
  assert (L1 : lt a b = true <-> (B2R a < B2R b)%R)
    by (apply lt_B2R; try apply Oa; apply Ob).
  assert (L2 : lt b a = true <-> (B2R b < B2R a)%R)
    by (apply lt_B2R; try apply Oa; apply Ob).
  unfold Math.min. rewrite (is_nan_false a Na), (is_nan_false b Nb). cbn [orb].
  destruct (lt a b) eqn:E1.
  - split; [exact Oa|]. apply proj1 in L1. specialize (L1 eq_refl).
    unfold Rmin. destruct (Rle_dec _ _); lra.
  - destruct (lt b a) eqn:E2.
    + split; [exact Ob|]. apply proj1 in L2. specialize (L2 eq_refl).
      unfold Rmin. destruct (Rle_dec _ _); lra.
    + assert (B2R a = B2R b).
      { destruct (Rtotal_order (B2R a) (B2R b)) as [K|[K|K]]; trivial.
        - apply L1 in K. discriminate K.
        - apply L2 in K. discriminate K. }
      split; [destruct a as [[|]| | |]; assumption|].
      unfold Rmin. destruct (Rle_dec _ _); destruct a as [[|]| | |]; lra.
Qed.

Lemma max_B2R (a b : number) :
  number_ok a -> number_ok b ->
  number_ok (Math.max a b) /\ B2R (Math.max a b) = Rmax (B2R a) (B2R b).
Proof.
  intros Oa Ob.
  pose proof (number_ok_not_nan a Oa) as Na.
  pose proof (number_ok_not_nan b Ob) as Nb.
  assert (L1 : lt a b = true <-> (B2R a < B2R b)%R)
    by (apply lt_B2R; try apply Oa; apply Ob).
  assert (L2 : lt b a = true <-> (B2R b < B2R a)%R)
    by (apply lt_B2R; try apply Oa; apply Ob).
  unfold Math.max. rewrite (is_nan_false a Na), (is_nan_false b Nb). cbn [orb].
  destruct (lt b a) eqn:E2.
  - split; [exact Oa|]. apply proj1 in L2. specialize (L2 eq_refl).
    unfold Rmax. destruct (Rle_dec _ _); lra.
  - destruct (lt a b) eqn:E1.
    + split; [exact Ob|]. apply proj1 in L1. specialize (L1 eq_refl).
      unfold Rmax. destruct (Rle_dec _ _); lra.
    + assert (B2R a = B2R b).
      { destruct (Rtotal_order (B2R a) (B2R b)) as [K|[K|K]]; trivial.
        - apply L1 in K. discriminate K.
        - apply L2 in K. discriminate K. }
      split; [destruct a as [[|]| | |]; assumption|].
      unfold Rmax. destruct (Rle_dec _ _); destruct a as [[|]| | |]; lra.
Qed.

(** On finite numbers the clamp is the clamp of the reals. *)
Lemma clamp_B2R (x lo hi : number) :
  number_ok x -> number_ok lo -> number_ok hi ->
  number_ok (clamp x lo hi) /\
  B2R (clamp x lo hi) = Rmax (B2R lo) (Rmin (B2R x) (B2R hi)).
Proof.
  intros Ox Ol Oh. unfold clamp.
  destruct (min_B2R x hi Ox Oh) as [Om Em].
  destruct (max_B2R lo _ Ol Om) as [OM EM].
  split; [exact OM|]. now rewrite EM, Em.
Qed.

Lemma B2R_sensitivity : (1 / 64 <= B2R (decimal 2 2) <= 1 / 32)%R.
Proof.
  rewrite decimal_0_02, B2R_neg_exp. cbn [cond_Zopp].
  change (2 ^ 58) with 288230376151711744. lra.
Qed.

Lemma B2R_four : B2R (of_Z 4) = 4%R.
Proof. b2r_const. Qed.
Lemma B2R_minus_four : B2R (of_Z (-4)) = (-4)%R.
Proof. b2r_const. Qed.
Lemma B2R_104 : B2R (of_Z 104) = 104%R.
Proof. b2r_const. Qed.
Lemma B2R_minus_104 : B2R (of_Z (-104)) = (-104)%R.
Proof. b2r_const. Qed.

Lemma accumulate_B2R (h : number) (z : Z) :
  number_ok h -> (-100 <= B2R h <= 100)%R -> -100 <= z <= 100 ->
  let h' := accumulate h (of_Z z) (decimal 2 2) in
  number_ok h' /\ (-100 <= B2R h' <= 100)%R /\
  (0 <= z -> (B2R h <= B2R h')%R) /\
  (z <= 0 -> (B2R h' <= B2R h)%R).
Proof.
  intros Oh Rh Rz h'. subst h'. unfold accumulate.
  destruct (of_Z_small z Rz) as (Oz & Bz & Zn & Z0 & Zp & _).
  pose proof B2R_sensitivity as S.
  assert (Os : number_ok (decimal 2 2)) by ok_const.
  assert (O0 : number_ok (S754_zero false)) by ok_const.
  assert (O4 : number_ok (of_Z 4)) by ok_const.
  assert (Om4 : number_ok (of_Z (-4))) by ok_const.
  assert (O104 : number_ok (of_Z 104)) by ok_const.
  assert (Om104 : number_ok (of_Z (-104))) by ok_const.
  assert (O100 : number_ok (of_Z 100)) by ok_const.
  assert (Om100 : number_ok (of_Z (-100))) by ok_const.
  assert (X : exists x, add h (mul (of_Z z) (decimal 2 2)) = x /\ number_ok x /\
                        (0 <= z -> (B2R h <= B2R x)%R) /\
                        (z <= 0 -> (B2R x <= B2R h)%R)).
  { eexists. split; [reflexivity|].
    destruct (Z.lt_trichotomy z 0) as [C|[C|C]].
    - specialize (Zn C).
      destruct (mul_bounds (of_Z z) (decimal 2 2) (of_Z (-4)) (S754_zero false))
        as [Od Bd]; trivial.
      { rewrite B2R_minus_four, B2R_zero. split; nra. }
      rewrite B2R_minus_four, B2R_zero in Bd.
      destruct (add_bounds h (mul (of_Z z) (decimal 2 2)) (of_Z (-104)) h)
        as [Ox Bx]; trivial.
      { rewrite B2R_minus_104. lra. }
      split; [exact Ox|]. split; intros; [lia | lra].
    - specialize (Z0 C). rewrite Z0.
      destruct (mul_bounds (S754_zero false) (decimal 2 2)
                  (S754_zero false) (S754_zero false)) as [Od Bd]; trivial.
      { rewrite B2R_zero. lra. }
      rewrite B2R_zero in Bd.
      destruct (add_bounds h (mul (S754_zero false) (decimal 2 2)) h h)
        as [Ox Bx]; trivial.
      { lra. }
      split; [exact Ox|]. split; intros; lra.
    - specialize (Zp C).
      destruct (mul_bounds (of_Z z) (decimal 2 2) (S754_zero false) (of_Z 4))
        as [Od Bd]; trivial.
      { rewrite B2R_four, B2R_zero. split; nra. }
      rewrite B2R_four, B2R_zero in Bd.
      destruct (add_bounds h (mul (of_Z z) (decimal 2 2)) h (of_Z 104))
        as [Ox Bx]; trivial.
      { rewrite B2R_104. lra. }
      split; [exact Ox|]. split; intros; [lra | lia]. }
  destruct X as (x & -> & Ox & Up & Down).
  destruct (clamp_B2R x (of_Z (-100)) (of_Z 100) Ox Om100 O100) as [Oc Ec].
  rewrite B2R_minus_hundred, B2R_hundred in Ec.
  split; [exact Oc|]. rewrite Ec.
  split; [|split]; intros; try specialize (Up ltac:(assumption));
    try specialize (Down ltac:(assumption));
    unfold Rmax, Rmin; repeat destruct (Rle_dec _ _); lra.
Qed.

Lemma B2R_inj (a b : number) :
  number_ok a -> number_ok b -> B2R a = B2R b -> B2R a <> 0%R -> a = b.
Proof.
  intros [Va Fa] [Vb Fb] E N.
  assert (L1 : le a b = true) by (apply le_B2R; trivial; lra).
  assert (L2 : le b a = true) by (apply le_B2R; trivial; lra).
  assert (C : SFcompare a b = Some Eq).
  { unfold le, SFleb in L1, L2. rewrite (SFcompare_antisym a b) in L2.
    destruct (SFcompare a b) as [[]|]; cbn in L2; congruence. }
  destruct (SFcompare_Eq_inv a b C) as [(s1 & s2 & -> & ->)|[-> _]]; trivial.
  now contradiction N.
Qed.

Lemma stick_sign (v : number) :
  axis_in_unit v ->
  exists z : Z,
    scale (applyDeadzone v (decimal 1 1)) = of_Z z /\ -100 <= z <= 100 /\
    (le (of_Z 0) v = true -> 0 <= z) /\
    (le v (of_Z 0) = true -> z <= 0).
Proof.
  intros H. destruct (axis_in_unit_B2R v H) as [[V F] Hv].
  assert (P : le (of_Z 0) v = true <-> (0 <= B2R v)%R).
  { rewrite <- B2R_zero. apply le_B2R; trivial. }
  assert (N : le v (of_Z 0) = true <-> (B2R v <= 0)%R).
  { rewrite <- B2R_zero. apply le_B2R; trivial. }
  destruct (applyDeadzone_cases v (decimal 1 1)) as [[_ ->]|[_ ->]].
  - exists 0. split; [reflexivity|]. repeat split; intros; lia.
  - destruct (scale_parts v (conj V F) Hv) as (z & E & R & Zp & Zn & _).
    exists z. split; [exact E|]. split; [exact R|].
    split; intros K; [apply P in K; auto | apply N in K; auto].
Qed.

Lemma accumulate_follows (h v : number) :
  head_inv h -> h <> nan -> axis_in_unit v ->
  let h' := accumulate h (scale (applyDeadzone v (decimal 1 1))) (decimal 2 2) in
  (le (of_Z 0) v = true -> le h h' = true) /\
  (le v (of_Z 0) = true -> le h' h = true) /\
  (le (of_Z 0) v = true -> h = of_Z 100 -> h' = of_Z 100) /\
  (le v (of_Z 0) = true -> h = of_Z (-100) -> h' = of_Z (-100)).
Proof.
  intros I N Hv h'. subst h'.
  pose proof (head_inv_range h I N) as R. destruct I as (V & _ & _).
  destruct (in_range_B2R h V R) as [Oh Bh].
  destruct (stick_sign v Hv) as (z & -> & Rz & Zp & Zn).
  destruct (accumulate_B2R h z Oh Bh Rz) as (O' & B' & Up & Down).
  set (h' := accumulate h (of_Z z) (decimal 2 2)) in *.
  assert (L : forall a b, number_ok a -> number_ok b ->
                          (B2R a <= B2R b)%R -> le a b = true).
  { intros a b [] []. now apply le_B2R. }
  split; [|split; [|split]].
  - intros K. apply L; auto.
  - intros K. apply L; auto.
  - intros K ->. specialize (Up (Zp K)). rewrite B2R_hundred in Up.
    apply B2R_inj; trivial; rewrite ?B2R_hundred; try lra.
  - intros K ->. specialize (Down (Zn K)). rewrite B2R_minus_hundred in Down.
    apply B2R_inj; trivial; rewrite ?B2R_minus_hundred; try lra.
Qed.

(** X12: on a robot that a run of frames has reached from its construction
    without a NaN on the right stick, a frame whose right-stick axis lies in
    [-1, 1] never turns the matching component of the head orientation
    against the stick: it does not decrease when the axis is at or above
    zero and does not increase when the axis is at or below zero; a
    component at 100 (at -100) stays there while the axis is not negative
    (not positive). *)
Theorem head_follows_stick
  (ip : string) (vq w h : number) (socks : list WebSocket) (tr : list event)
  (gs : list Gamepad) (g : Gamepad) (i : nat) :
  Forall head_axes_are_numbers gs ->
  (i < 2)%nat ->
  axis_in_unit (axes g).[2 + i] ->
  let s := snd (frames gs (mkStore (constructor ip vq w h) socks tr)) in
  let a := (axes g).[2 + i] in
  let x := (headRotation (this s)).[i] in
  let x' := (headRotation (this (snd (update g s)))).[i] in
  (le (of_Z 0) a = true -> le x x' = true) /\
  (le a (of_Z 0) = true -> le x' x = true) /\
  (le (of_Z 0) a = true -> x = of_Z 100 -> x' = of_Z 100) /\
  (le a (of_Z 0) = true -> x = of_Z (-100) -> x' = of_Z (-100)).
Proof.
  intros Hgs Hi Ha s a x x'.
  destruct (frames_inv gs (mkStore (constructor ip vq w h) socks tr)
              (robot_inv_constructor ip vq w h)) as [Inv Num].
  specialize (Num Hgs ltac:(split; discriminate)).
  fold s in Inv, Num.
  destruct Inv as (p & q & E & Ip & Iq & Es & Ed).
  destruct Num as [N0 N1]. rewrite E in N0, N1. cbn [arr_get nth] in N0, N1.
  subst x'. rewrite update_eq. cbn [snd this robot_after headRotation].
  rewrite (head_after_pair g (this s) p q E), Es, Ed.
  subst x. rewrite E.
  destruct i as [|[|i]]; [| |lia]; cbn [arr_get nth];
    apply accumulate_follows; assumption.
Qed.

Lemma head_follows_stick_witness :
  let g0 := mkGamepad [of_Z 0; of_Z 0; of_Z 1; decimal (-5) 1] in
  let g := mkGamepad [of_Z 0; of_Z 0; decimal 3 1; of_Z (-1)] in
  let s := snd (frames [g0; g0] (mkStore (constructor_default "10.0.0.2") [] [])) in
  le (headRotation (this s)).[0] (headRotation (this (snd (update g s)))).[0]
  = true.
Proof.
  intros g0 g s.
  apply (head_follows_stick "10.0.0.2" (of_Z 100) (of_Z 400) (of_Z 540) [] []
           [g0; g0] g 0).
  - repeat constructor; discriminate.
  - lia.
  - split; [|split]; reflexivity.
  - reflexivity.
Defined.

(** ** The control loop and the video session side by side *)

Lemma set_ws_same (r : Misty2Robot) : set_ws (ws r) r = r.
Proof. now destruct r. Qed.

Lemma frames_any_session (gs : list Gamepad) :
  forall (s t : Store) (w : option nat),
    this t = set_ws w (this s) ->
    exists evs : list event,
      frames gs s =
      (Normal tt,
       mkStore (this (snd (frames gs s))) (sockets s) (trace s ++ evs)) /\
      frames gs t =
      (Normal tt,
       mkStore (set_ws w (this (snd (frames gs s)))) (sockets t) (trace t ++ evs)) /\
      start_request (this (snd (frames gs s))) = start_request (this s) /\
      ipAddress (this (snd (frames gs s))) = ipAddress (this s) /\
      ws (this (snd (frames gs s))) = ws (this s).
Proof.
  induction gs as [|g gs IH]; intros s t w E.
  - exists []. cbn. rewrite !app_nil_r, <- E. now destruct s, t.
  - cbn [frames]. unfold bind. rewrite !update_eq.
    set (s1 := mkStore (robot_after g (this s)) (sockets s)
                 (trace s ++ head_events g (this s) ++ drive_events g (this s))).
    set (t1 := mkStore (robot_after g (this t)) (sockets t)
                 (trace t ++ head_events g (this t) ++ drive_events g (this t))).
    assert (E1 : this t1 = set_ws w (this s1)) by (cbn; now rewrite E).
    destruct (IH s1 t1 w E1) as (evs & F1 & F2 & R & I & W).
    exists ((head_events g (this s) ++ drive_events g (this s)) ++ evs)%list.
    split; [|split; [|split; [|split]]].
    + rewrite F1 at 1. subst s1. cbn [snd this sockets trace].
      now rewrite <- !app_assoc.
    + rewrite F2. subst t1. cbn [sockets trace]. rewrite E.
      now rewrite <- !app_assoc.
    + exact R.
    + exact I.
    + exact W.
Qed.

(** X13: steering and starting the video stream do not disturb each other:
    [getVideoStream] after a run of frames ends as it would have before the
    run (with the handle, with the error of a refused start, with the
    [SyntaxError] of a socket URL the platform does not accept, or with the
    rejection of the request), and both orders leave the same object and
    the same sockets; the requests of the run and of the session are the
    same in both orders, only interleaved differently. *)
Theorem control_and_stream_commute
  (net : Transport) (parses : UrlParser) (gs : list Gamepad) (s : Store) :
  let a := getVideoStream net parses (snd (frames gs s)) in
  let b := frames gs (snd (getVideoStream net parses s)) in
  fst a = fst (getVideoStream net parses s) /\
  fst b = Normal tt /\
  this (snd a) = this (snd b) /\
  sockets (snd a) = sockets (snd b) /\
  exists commands session : list event,
    trace (snd (frames gs s)) = (trace s ++ commands)%list /\
    trace (snd (getVideoStream net parses s)) = (trace s ++ session)%list /\
    trace (snd a) = (trace s ++ commands ++ session)%list /\
    trace (snd b) = (trace s ++ session ++ commands)%list.
Proof.
  intros a b. subst a b.
  set (s' := snd (frames gs s)).
  assert (Shape :
             exists (res : Completion nat) (w : option nat)
                    (new : list WebSocket) (session : list event),
               (forall u' : Store,
                   start_request (this u') = start_request (this s) ->
                   ipAddress (this u') = ipAddress (this s) ->
                   sockets u' = sockets s ->
                   getVideoStream net parses u' =
                   (res, mkStore (set_ws (match w with
                                          | Some _ => w
                                          | None => ws (this u')
                                          end) (this u'))
                           (sockets u' ++ new) (trace u' ++ session)))).
  { destruct (net (start_request (this s))) as [status|] eqn:N.
    - destruct (Z.eq_dec status 200) as [->|Hs].
      + destruct (parses ("ws://" ++ ipAddress (this s) ++ ":5678")) eqn:U.
        * exists (Normal (List.length (sockets s))),
            (Some (List.length (sockets s))),
            [session_socket (ipAddress (this s))],
            [Fetch (start_request (this s));
             NewWebSocket ("ws://" ++ ipAddress (this s) ++ ":5678")].
          intros u' R Eip S. rewrite <- R in N. rewrite <- Eip in U.
          rewrite (getVideoStream_ok net parses u' N U). rewrite S.
          unfold session_socket. fold (start_request (this u')).
          now rewrite R, Eip.
        * exists (Throw SyntaxError), None, [],
            [Fetch (start_request (this s))].
          intros u' R Eip S. rewrite <- R in N. rewrite <- Eip in U.
          rewrite (getVideoStream_bad_url net parses u' N U).
          fold (start_request (this u')).
          now rewrite set_ws_same, app_nil_r, R.
      + exists (Throw (Error "Failed to start video stream.")), None, [],
          [Fetch (start_request (this s))].
        intros u' R _ S. rewrite <- R in N.
        rewrite (getVideoStream_refused net parses u' status N Hs).
        fold (start_request (this u')).
        now rewrite set_ws_same, app_nil_r, R.
    - exists (Throw FetchRejected), None, [], [Fetch (start_request (this s))].
      intros u' R _ S. rewrite <- R in N.
      unfold getVideoStream, fetch_await, bind, read, emit, ret, throw.
      cbn [this sockets trace]. fold (start_request (this u')). rewrite N.
      now rewrite set_ws_same, app_nil_r, R. }
  destruct Shape as (res & w & new & session & G).
  pose proof (G s eq_refl eq_refl eq_refl) as G0.
  set (w0 := match w with Some _ => w | None => ws (this s) end) in *.
  set (t := mkStore (set_ws w0 (this s)) (sockets s ++ new) (trace s ++ session)) in *.
  destruct (frames_any_session gs s t w0 eq_refl) as (evs & F1 & F2 & R & I & W).
  fold s' in F1, F2, R, I, W.
  assert (S' : sockets s' = sockets s) by (subst s'; now rewrite F1).
  pose proof (G s' R I S') as G1.
  assert (T' : trace s' = (trace s ++ evs)%list) by (subst s'; now rewrite F1).
  rewrite G0, G1. cbn [fst snd]. rewrite F2. cbn [fst snd this sockets trace].
  split; [reflexivity|]. split; [reflexivity|].
  split; [|split].
  - subst w0. destruct w; [reflexivity | now rewrite W].
  - subst t. cbn [sockets]. now rewrite S'.
  - exists evs, session. subst t. cbn [trace].
    rewrite T'. now rewrite <- !app_assoc.
Qed.

Lemma control_and_stream_commute_witness :
  let g := mkGamepad [of_Z 1; decimal (-5) 1; decimal 3 1; of_Z (-1)] in
  let gs := repeat g 180 in
  let s := mkStore (constructor_default "10.0.0.2") [] [] in
  let net : Transport := fun _ => Responded 200 in
  let parses : UrlParser := fun u => String.eqb u "ws://10.0.0.2:5678" in
  fst (getVideoStream net parses (snd (frames gs s)))
  = fst (getVideoStream net parses s) /\
  this (snd (getVideoStream net parses (snd (frames gs s))))
  = this (snd (frames gs (snd (getVideoStream net parses s)))).
Proof.
  intros g gs s net parses.
  destruct (control_and_stream_commute net parses gs s) as (A & _ & B & _).
  split; [exact A | exact B].
Defined.
